(** * no-sports-zone: the voice capture and transcription pipeline

    A shallow embedding of [src/audioProcessor.ts] (class [AudioProcessor]),
    [src/index.ts] (class [NoSportsZoneBot]) and [src/sportsDetector.ts]
    (class [SportsDetector]), with the properties of the pipeline stated over
    it.

    Conventions of the embedding.
    - JavaScript numbers are idealised as exact real numbers ([R]), with one
      extra value [NaN]; file sizes, timestamps and sample values are integers.
    - A JavaScript [Set<string>] is a [gset string], the scratch directory a
      [gmap string (list byte)] from path to content.
    - A function body is written in a small monad of completion records
      (normal, [return], [throw]) over the mutable state it touches.
    - An [async] function is cut at its [await]s into synchronous segments;
      the event loop runs one segment at a time, to completion. *)

From Stdlib Require Import ZArith NArith Reals Lra Lia Ascii String.
From Stdlib.Strings Require Import Byte.
From Stdlib Require Import DecimalString DecimalN DecimalPos.
From stdpp Require Import gmap strings list.

#[local] Set Warnings "-clear-no-such-hyp".

Local Open Scope Z_scope.

(** * Part I: the embedding *)

(** ** JavaScript values used by the code *)

Module Js.

(** A number: a real, or NaN (the value of [0 / 0]). *)
Inductive number : Type :=
| NaN
| Num (r : R).

(** [a / b] on integers held in numbers; [0 / 0] is NaN. A non-zero
    numerator over zero (an infinity) does not arise in this program. *)
Definition div (a b : Z) : number :=
  if decide (b = 0) then NaN else Num (IZR a / IZR b).

(** [Math.sqrt]: NaN for NaN and for negative arguments. *)
Definition sqrt (x : number) : number :=
  match x with
  | NaN => NaN
  | Num r => if Rlt_dec r 0 then NaN else Num (R_sqrt.sqrt r)
  end.

(** [a < b]: false as soon as one side is NaN. *)
Definition lt (a : number) (b : Z) : Prop :=
  match a with
  | NaN => False
  | Num r => (r < IZR b)%R
  end.

(** A thrown value, seen through the two fields the handlers read. *)
Record exn : Type := Exn { code : option string; message : option string }.

Definition ENOENT : exn :=
  {| code := Some "ENOENT"%string;
     message := Some "ENOENT: no such file or directory"%string |}.

(** Template-literal rendering of a non-negative integer such as
    [Date.now()]: its decimal digits. *)
Definition show (n : N) : string := NilEmpty.string_of_uint (N.to_uint n).

(** [s.includes(t)] *)
Fixpoint includes (s t : string) : bool :=
  String.prefix t s ||
  match s with
  | EmptyString => false
  | String _ s' => includes s' t
  end.

End Js.

(** ** Raw PCM: [calculateAudioEnergy] (audioProcessor.ts, 296-306) *)

Module Pcm.

(** One element of [new Int16Array(buffer.buffer, ...)] on a little-endian
    host: two bytes, two's complement. *)
Definition int16_le (lo hi : byte) : Z :=
  let u := Z.of_N (Byte.to_N lo) + 256 * Z.of_N (Byte.to_N hi) in
  if u <? 32768 then u else u - 65536.

(** The view has [buffer.length / 2] elements, the fraction dropped: a
    trailing odd byte is not part of it. *)
Fixpoint samples (buffer : list byte) : list Z :=
  match buffer with
  | lo :: hi :: rest => int16_le lo hi :: samples rest
  | _ => []
  end.

(** The loop [for (i...) sumSquares += samples[i] * samples[i]]. *)
Definition sumSquares (ss : list Z) : Z :=
  fold_left (fun acc s => acc + s * s) ss 0.

Definition calculateAudioEnergy (buffer : list byte) : Js.number :=
  let ss := samples buffer in
  Js.sqrt (Js.div (sumSquares ss) (Z.of_nat (length ss))).

End Pcm.

(** ** Thresholds of the class (audioProcessor.ts, 19-23) *)

Definition MAX_CONCURRENT : nat := 5.
Definition MIN_AUDIO_BYTES : Z := 2048.
Definition MIN_AUDIO_DURATION_MS : Z := 500.
Definition PROCESSING_TIMEOUT_MS : Z := 15000.
Definition MIN_ENERGY : Z := 100.

(** [(stats.size / 192000) * 1000] *)
Definition durationMs (size : Z) : R := (IZR size / 192000 * 1000)%R.

(** *** Facts about samples and the energy *)

Section EnergyFacts.

Lemma samples_length (buffer : list byte) :
  Z.of_nat (length (Pcm.samples buffer)) = Z.of_nat (length buffer) / 2.
Proof.
  assert (H : ∀ n (b : list byte), (length b < n)%nat →
            Z.of_nat (length (Pcm.samples b)) = Z.of_nat (length b) / 2).
  { induction n as [|n IH]; intros b Hb; [lia|].
    destruct b as [|lo [|hi rest]]; [done | done |].
    cbn [Pcm.samples length]. rewrite !Nat2Z.inj_succ, IH by (cbn in Hb; lia).
    replace (Z.succ (Z.succ (Z.of_nat (length rest))))
      with (1 * 2 + Z.of_nat (length rest)) by lia.
    rewrite Z.div_add_l by lia. lia. }
  apply (H (S (length buffer))). lia.
Qed.

Lemma fold_squares_ge (ss : list Z) (a : Z) :
  a ≤ fold_left (fun acc s => acc + s * s) ss a.
Proof.
  revert a. induction ss as [|s ss IH]; intros a; cbn; [lia|].
  etransitivity; [|apply IH]. nia.
Qed.

Lemma sumSquares_nonneg (ss : list Z) : 0 ≤ Pcm.sumSquares ss.
Proof. apply fold_squares_ge. Qed.

(** With at least one sample the energy is the real number
    [sqrt (sumSquares / n)]. *)
Lemma energy_defined (buffer : list byte) :
  let ss := Pcm.samples buffer in
  0 < Z.of_nat (length ss) →
  Pcm.calculateAudioEnergy buffer =
    Js.Num (R_sqrt.sqrt (IZR (Pcm.sumSquares ss) / IZR (Z.of_nat (length ss)))).
Proof.
  intros ss Hn. unfold Pcm.calculateAudioEnergy, Js.div. fold ss.
  destruct (decide _) as [E|_]; [lia|]. cbn.
  destruct (Rlt_dec _ _) as [Hneg|_]; [|done]. exfalso.
  assert (0 <= IZR (Pcm.sumSquares ss) / IZR (Z.of_nat (length ss)))%R; [|lra].
  apply Rmult_le_pos.
  - apply IZR_le, sumSquares_nonneg.
  - left. apply Rinv_0_lt_compat. by apply IZR_lt.
Qed.

Lemma energy_no_samples (buffer : list byte) :
  Pcm.samples buffer = [] → Pcm.calculateAudioEnergy buffer = Js.NaN.
Proof. intros E. unfold Pcm.calculateAudioEnergy. by rewrite E. Qed.

(** Comparing the energy with a positive threshold, in integers. *)
Lemma energy_lt_iff (buffer : list byte) (t : Z) :
  0 < t →
  Js.lt (Pcm.calculateAudioEnergy buffer) t ↔
  (Pcm.samples buffer ≠ [] ∧
   Pcm.sumSquares (Pcm.samples buffer)
     < t * t * Z.of_nat (length (Pcm.samples buffer))).
Proof.
  intros Ht. destruct (Pcm.samples buffer) as [|s ss] eqn:E.
  { rewrite energy_no_samples by done. cbn. split; [done | by intros [? _]]. }
  assert (Hn : 0 < Z.of_nat (length (Pcm.samples buffer))) by (rewrite E; cbn; lia).
  rewrite energy_defined by done. rewrite E in *. cbn [Js.lt].
  set (S := Pcm.sumSquares (s :: ss)). set (n := Z.of_nat (length (s :: ss))).
  assert (HS : (0 <= IZR S)%R) by apply IZR_le, sumSquares_nonneg.
  assert (Hn' : (0 < IZR n)%R) by (by apply IZR_lt).
  assert (Ht' : (0 < IZR t)%R) by (by apply IZR_lt).
  assert (Hq : (0 <= IZR S / IZR n)%R).
  { apply Rmult_le_pos; [done|]. left. by apply Rinv_0_lt_compat. }
  rewrite <- (sqrt_Rsqr (IZR t)) at 1 by lra.
  split.
  - intros H. split; [done|]. apply sqrt_lt_0_alt in H.
    apply lt_IZR. rewrite !mult_IZR. unfold Rsqr in H.
    apply (Rmult_lt_compat_r (IZR n)) in H; [|done].
    unfold Rdiv in H. rewrite Rmult_assoc, Rinv_l, Rmult_1_r in H by lra. done.
  - intros [_ H]. apply sqrt_lt_1_alt. split; [done|].
    apply IZR_lt in H. rewrite !mult_IZR in H. unfold Rsqr.
    apply (Rmult_lt_reg_r (IZR n)); [done|].
    unfold Rdiv. rewrite Rmult_assoc, Rinv_l, Rmult_1_r by lra. done.
Qed.

Lemma durationMs_lt_iff (size t : Z) :
  (durationMs size < IZR t)%R ↔ size * 1000 < t * 192000.
Proof.
  unfold durationMs. split.
  - intros H. apply lt_IZR. rewrite !mult_IZR. lra.
  - intros H. apply IZR_lt in H. rewrite !mult_IZR in H. lra.
Qed.

End EnergyFacts.

(** The two comparisons of the quality gate are decided in integers. *)
#[global] Instance energy_lt_dec (buffer : list byte) :
  Decision (Js.lt (Pcm.calculateAudioEnergy buffer) MIN_ENERGY).
Proof.
  destruct (decide (Pcm.samples buffer ≠ [] ∧
              Pcm.sumSquares (Pcm.samples buffer)
                < MIN_ENERGY * MIN_ENERGY * Z.of_nat (length (Pcm.samples buffer))))
    as [H|H]; [left | right]; rewrite energy_lt_iff by done; exact H.
Defined.

#[global] Instance duration_lt_dec (size : Z) :
  Decision (durationMs size < IZR MIN_AUDIO_DURATION_MS)%R.
Proof.
  destruct (decide (size * 1000 < MIN_AUDIO_DURATION_MS * 192000)) as [H|H];
    [left | right]; rewrite durationMs_lt_iff; exact H.
Defined.

(** ** The capture scheduler: [setupUserAudioCapture] (audioProcessor.ts, 42-162) *)

Module Scheduler.

Record user : Type := User { id : string; username : string }.

(** The lines the method writes to the console, without their payload. *)
Inductive log_line : Type :=
| LogQueueFull | LogCapturing | LogTimeout
| LogAudio | LogTooSmall | LogTooShort | LogEnergy | LogEnergyLow
| LogTranscribing | LogText | LogNoTranscription | LogError.

(** The mutable state the method reads and writes: the two sets of the
    class, the pending [setTimeout] callbacks (by processing key), the
    scratch directory, the calls made to [onTranscription] and the console. *)
Record world : Type := World {
  processingQueue : gset string;
  activeUsers : gset string;
  timers : gset string;
  files : gmap string (list byte);
  delivered : list (string * string * string);
  console : list log_line;
}.

Definition initial : world :=
  {| processingQueue := ∅; activeUsers := ∅; timers := ∅; files := ∅;
     delivered := []; console := [] |}.

Definition set_queue (f : gset string → gset string) (w : world) : world :=
  {| processingQueue := f (processingQueue w); activeUsers := activeUsers w;
     timers := timers w; files := files w; delivered := delivered w;
     console := console w |}.
Definition set_active (f : gset string → gset string) (w : world) : world :=
  {| processingQueue := processingQueue w; activeUsers := f (activeUsers w);
     timers := timers w; files := files w; delivered := delivered w;
     console := console w |}.
Definition set_timers (f : gset string → gset string) (w : world) : world :=
  {| processingQueue := processingQueue w; activeUsers := activeUsers w;
     timers := f (timers w); files := files w; delivered := delivered w;
     console := console w |}.
Definition set_files (f : gmap string (list byte) → gmap string (list byte))
    (w : world) : world :=
  {| processingQueue := processingQueue w; activeUsers := activeUsers w;
     timers := timers w; files := f (files w); delivered := delivered w;
     console := console w |}.
Definition set_delivered
    (f : list (string * string * string) → list (string * string * string))
    (w : world) : world :=
  {| processingQueue := processingQueue w; activeUsers := activeUsers w;
     timers := timers w; files := files w; delivered := f (delivered w);
     console := console w |}.
Definition set_console (f : list log_line → list log_line) (w : world) : world :=
  {| processingQueue := processingQueue w; activeUsers := activeUsers w;
     timers := timers w; files := files w; delivered := delivered w;
     console := f (console w) |}.

(** *** Completion records *)

Inductive completion (A : Type) : Type :=
| Normal (a : A)
| Return
| Throw (e : Js.exn).
Arguments Normal {A} a.
Arguments Return {A}.
Arguments Throw {A} e.

Definition M (A : Type) : Type := world → completion A * world.

#[export] Instance M_ret : MRet M := λ A a w, (Normal a, w).
#[export] Instance M_bind : MBind M := λ A B k m w,
  match m w with
  | (Normal a, w') => k a w'
  | (Return, w') => (Return, w')
  | (Throw e, w') => (Throw e, w')
  end.

Definition throw {A} (e : Js.exn) : M A := λ w, (Throw e, w).
Definition return_ {A} : M A := λ w, (Return, w).
Definition update (f : world → world) : M unit := λ w, (Normal tt, f w).
Definition log (l : log_line) : M unit := update (set_console (λ c, c ++ [l])).

(** [try { m } catch {}] *)
Definition swallow (m : M unit) : M unit := λ w,
  match m w with
  | (Throw _, w') => (Normal tt, w')
  | r => r
  end.

(** *** The [fs] calls *)

Definition existsSync (path : string) : M bool :=
  λ w, (Normal (bool_decide (is_Some (files w !! path))), w).

Definition statSync_size (path : string) : M Z := λ w,
  match files w !! path with
  | Some content => (Normal (Z.of_nat (length content)), w)
  | None => (Throw Js.ENOENT, w)
  end.

Definition readFileSync (path : string) : M (list byte) := λ w,
  match files w !! path with
  | Some content => (Normal content, w)
  | None => (Throw Js.ENOENT, w)
  end.

Definition unlinkSync (path : string) : M unit := λ w,
  match files w !! path with
  | Some _ => (Normal tt, set_files (delete path) w)
  | None => (Throw Js.ENOENT, w)
  end.

(** *** The task: what the closure of one call holds *)

Definition audioDir : string := "./audio_recordings".

Record task : Type := Task {
  speaker : user;
  processingKey : string;
  filename : string;
}.

Definition key_of (u : user) (now : N) : string :=
  id u +:+ "-" +:+ Js.show now.
Definition file_of (u : user) (now : N) : string :=
  audioDir +:+ "/" +:+ id u +:+ "-" +:+ Js.show now +:+ ".pcm".

(** Lines 47-69 and 81: the admission. [now] and [now'] are the two
    readings of [Date.now()]. [None] is the early [return] of a rejected
    admission. The statements of lines 71-88 that stand between the
    admission and the [try] are [open_streams] below. *)
Definition setupUserAudioCapture (u : user) (now now' : N) (w : world) : option task * world :=
  if bool_decide (id u ∈ activeUsers w) then (None, w)
  else if bool_decide (MAX_CONCURRENT ≤ size (processingQueue w))%nat
    then (None, set_console (λ c, c ++ [LogQueueFull]) w)
  else
    let processingKey := key_of u now in
    let w := set_active (λ s, s ∪ {[id u]}) w in
    let w := set_queue (λ s, s ∪ {[processingKey]}) w in
    let w := set_console (λ c, c ++ [LogCapturing]) w in
    let w := set_timers (λ s, s ∪ {[processingKey]}) w in
    (Some {| speaker := u; processingKey := processingKey;
             filename := file_of u now' |}, w).

(** Lines 64-69: the [setTimeout] callback, when the timer fires. A
    cleared timer does not fire. *)
Definition timeout (key : string) (w : world) : world :=
  if bool_decide (key ∈ timers w) then
    let w := set_timers (λ s, s ∖ {[key]}) w in
    if bool_decide (key ∈ processingQueue w) then
      set_queue (λ s, s ∖ {[key]}) (set_console (λ c, c ++ [LogTimeout]) w)
    else w
  else w.

(** Lines 71-88: [receiver.subscribe], [opusStream.setMaxListeners] and
    [new prism.opus.Decoder], which stand after the admission and before
    the [try] of line 90. [thrown] is the exception one of them raises, if
    any. *)
Definition open_streams (thrown : option Js.exn) : M unit :=
  match thrown with
  | Some e => throw e
  | None => mret tt
  end.

(** How a call of [setupUserAudioCapture] stands at its first [await], or
    ends before it. *)
Inductive started : Type :=
| Skipped
| Rejected (t : task) (e : Js.exn)
| Capturing (t : task).

(** Lines 47-91: the synchronous prefix of the call, up to the first
    [await]. An exception of lines 71-88 is raised outside the [try]:
    the promise of the call is rejected with it and neither the [catch]
    nor the [finally] block runs. *)
Definition start_call (u : user) (now now' : N) (thrown : option Js.exn)
    (w : world) : started * world :=
  match setupUserAudioCapture u now now' w with
  | (None, w') => (Skipped, w')
  | (Some t, w') =>
      match open_streams thrown w' with
      | (Throw e, w'') => (Rejected t e, w'')
      | (_, w'') => (Capturing t, w'')
      end
  end.

(** What [await pipelineAsync(opus, pcm, createWriteStream(filename))]
    leaves behind: the bytes written to the scratch file, if it was
    created, and the rejection, if the pipeline failed. *)
Record capture : Type := Capture {
  written : option (list byte);
  failure : option Js.exn;
}.

Definition settle_capture (t : task) (c : capture) : M unit :=
  update (set_files (λ fs, match written c with
                           | Some content => <[filename t := content]> fs
                           | None => fs
                           end));;
  match failure c with
  | Some e => throw e
  | None => mret tt
  end.

(** Lines 94-122: from the size check to the call of [transcribeAudio].
    A normal completion is the suspension at [await transcribeAudio]. *)
Definition gate_segment (t : task) : M unit :=
  size ← statSync_size (filename t);
  log LogAudio;;
  (if bool_decide (size < MIN_AUDIO_BYTES)
   then log LogTooSmall;; unlinkSync (filename t);; return_
   else mret tt);;
  (if bool_decide (durationMs size < IZR MIN_AUDIO_DURATION_MS)%R
   then log LogTooShort;; unlinkSync (filename t);; return_
   else mret tt);;
  buffer ← readFileSync (filename t);
  log LogEnergy;;
  (if bool_decide (Js.lt (Pcm.calculateAudioEnergy buffer) MIN_ENERGY)
   then log LogEnergyLow;; unlinkSync (filename t);; return_
   else mret tt);;
  log LogTranscribing.

(** [text.trim().length > 0] for a non-empty [text]: some character is
    not white space. *)
Definition is_space (c : ascii) : bool :=
  let n := N_of_ascii c in
  ((9 <=? n) && (n <=? 13) || (n =? 32) || (n =? 160))%N.

Fixpoint blank (s : string) : bool :=
  match s with
  | EmptyString => true
  | String c s' => is_space c && blank s'
  end.

Definition onTranscription (t : task) (text : string) : M unit :=
  update (set_delivered (λ d, d ++ [(id (speaker t), username (speaker t), text)])).

(** Lines 123-134: after [await transcribeAudio(filename)] has settled. *)
Definition deliver_segment (t : task) (settled : string + Js.exn) : M unit :=
  text ← match settled with inl text => mret text | inr e => throw e end;
  (if negb (blank text)
   then log LogText;; onTranscription t text
   else log LogNoTranscription);;
  unlinkSync (filename t).

(** Lines 135-156: the [catch] block. *)
Definition ignoredErrors : list string :=
  ["ERR_STREAM_PREMATURE_CLOSE"; "The compressed data passed is corrupted";
   "ENOENT"]%string.

Definition shouldLog (error : Js.exn) : bool :=
  negb (existsb (λ msg,
          bool_decide (Js.code error = Some msg) ||
          match Js.message error with
          | Some m => Js.includes m msg
          | None => false
          end) ignoredErrors).

Definition handler (t : task) (error : Js.exn) : M unit :=
  (if shouldLog error then log LogError else mret tt);;
  swallow (present ← existsSync (filename t);
           if (present : bool) then unlinkSync (filename t) else mret tt).

(** Lines 157-161: the [finally] block. *)
Definition finalizer (t : task) : M unit :=
  update (set_timers (λ s, s ∖ {[processingKey t]}));;
  update (set_queue (λ s, s ∖ {[processingKey t]}));;
  update (set_active (λ s, s ∖ {[id (speaker t)]})).

Inductive status : Type := Suspended | Terminated.

(** [try { body } catch (error) { handler } finally { finalizer }], for a
    body that either reaches its next [await] (and stays inside the [try])
    or leaves the [try]. *)
Definition try_segment (t : task) (body : M unit) (awaits : bool) (w : world)
    : status * world :=
  match body w with
  | (Normal _, w') =>
      if awaits then (Suspended, w') else (Terminated, (finalizer t w').2)
  | (Return, w') => (Terminated, (finalizer t w').2)
  | (Throw e, w') => (Terminated, (finalizer t (handler t e w').2).2)
  end.

(** The segment run when the capture pipeline settles. *)
Definition after_capture (t : task) (c : capture) (w : world) : status * world :=
  try_segment t (settle_capture t c;; gate_segment t) true w.

(** The segment run when [transcribeAudio] settles. *)
Definition after_transcribe (t : task) (settled : string + Js.exn) (w : world)
    : world :=
  (try_segment t (deliver_segment t settled) false w).2.

(** *** Runs of the event loop

    A speaker-start event is the synchronous prefix of a call; it leaves
    the same world whether the stream set-up of lines 71-88 throws or not,
    and after a throw no further event belongs to the call. *)

Inductive event : Type :=
| SpeakerStart (u : user) (now now' : N)
| TimerFires (key : string)
| CaptureSettles (t : task) (c : capture)
| TranscriptionSettles (t : task) (settled : string + Js.exn).

Definition step (w : world) (e : event) : world :=
  match e with
  | SpeakerStart u now now' => (setupUserAudioCapture u now now' w).2
  | TimerFires key => timeout key w
  | CaptureSettles t c => (after_capture t c w).2
  | TranscriptionSettles t settled => after_transcribe t settled w
  end.

Definition run (es : list event) (w : world) : world := fold_left step es w.

(** The admissions of a burst of speaker-start events, in order. *)
Fixpoint burst (us : list (user * N * N)) (w : world) : list (option task) * world :=
  match us with
  | [] => ([], w)
  | (u, now, now') :: rest =>
      let '(r, w') := setupUserAudioCapture u now now' w in
      let '(rs, w'') := burst rest w' in
      (r :: rs, w'')
  end.

End Scheduler.


(** ** The transcription lock: [transcribeAudio] (audioProcessor.ts, 164, 273-294)

    [this.transcriptionLock = this.transcriptionLock.then(() => recognize())]
    builds a chain of promises. The model keeps the promises of that chain
    in a heap indexed by allocation order, the reactions registered on each
    pending promise, and the microtask queue of the event loop. [recognize]
    is a synchronous closure: the microtask that runs it enters and leaves
    [recognizeAudio] before any other job runs. *)

Module Lock.

(** A reaction registered on a promise: the callback of [then], with the
    promise [then] returned, or the continuation of the [await] in
    [transcribeAudio]. *)
Inductive reaction : Type :=
| RunRecognize (file : string) (derived : nat)
| ResumeTranscribe (file : string).

Inductive promise : Type :=
| Pending (reactions : list reaction)
| Fulfilled (value : string).

(** Instrumentation of [recognizeAudio]: call entry and exit. *)
Inductive probe : Type :=
| Enter (file : string)
| Exit (file : string).

Record loop : Type := Loop {
  promises : list promise;
  transcriptionLock : nat;
  microtasks : list (reaction * string);
  trace : list probe;
  returned : list (string * string);
}.

(** [private transcriptionLock: Promise<any> = Promise.resolve()] *)
Definition initial : loop :=
  {| promises := [Fulfilled ""]; transcriptionLock := 0%nat; microtasks := [];
     trace := []; returned := [] |}.

(** Registering a reaction on promise [p]: queued as a microtask when [p]
    is already fulfilled, stored on [p] otherwise. *)
Definition register (p : nat) (r : reaction) (st : loop) : loop :=
  match promises st !! p with
  | Some (Fulfilled v) =>
      {| promises := promises st; transcriptionLock := transcriptionLock st;
         microtasks := microtasks st ++ [(r, v)];
         trace := trace st; returned := returned st |}
  | Some (Pending rs) =>
      {| promises := <[p := Pending (rs ++ [r])]> (promises st);
         transcriptionLock := transcriptionLock st;
         microtasks := microtasks st;
         trace := trace st; returned := returned st |}
  | None => st
  end.

(** [p.then(() => recognize())]: a fresh pending promise, and the
    reaction that will resolve it. *)
Definition then_recognize (p : nat) (file : string) (st : loop) : nat * loop :=
  let q := length (promises st) in
  let st := {| promises := promises st ++ [Pending []];
               transcriptionLock := transcriptionLock st;
               microtasks := microtasks st;
               trace := trace st; returned := returned st |} in
  (q, register p (RunRecognize file q) st).

(** Line 292, reached by the call of [transcribeAudio] for [file]:
    [await (this.transcriptionLock = this.transcriptionLock.then(...))]. *)
Definition chain (file : string) (st : loop) : loop :=
  let '(q, st) := then_recognize (transcriptionLock st) file st in
  let st := {| promises := promises st; transcriptionLock := q;
               microtasks := microtasks st;
               trace := trace st; returned := returned st |} in
  register q (ResumeTranscribe file) st.

Section Loop.
(** The text [recognize()] returns for a converted file. *)
Variable recognize : string → string.

(** Fulfilling promise [q] with [v] queues its reactions. *)
Definition fulfil (q : nat) (v : string) (st : loop) : loop :=
  match promises st !! q with
  | Some (Pending rs) =>
      {| promises := <[q := Fulfilled v]> (promises st);
         transcriptionLock := transcriptionLock st;
         microtasks := microtasks st ++ ((λ r, (r, v)) <$> rs);
         trace := trace st; returned := returned st |}
  | _ => st
  end.

(** One turn of the microtask queue. *)
Definition tick (st : loop) : loop :=
  match microtasks st with
  | [] => st
  | (RunRecognize file q, _) :: rest =>
      let text := recognize file in
      fulfil q text
        {| promises := promises st; transcriptionLock := transcriptionLock st;
           microtasks := rest;
           trace := trace st ++ [Enter file; Exit file];
           returned := returned st |}
  | (ResumeTranscribe file, v) :: rest =>
      {| promises := promises st; transcriptionLock := transcriptionLock st;
         microtasks := rest; trace := trace st;
         returned := returned st ++ [(file, v)] |}
  end.

Inductive action : Type :=
| Chain (file : string)
| Tick.

Definition act (st : loop) (a : action) : loop :=
  match a with
  | Chain file => chain file st
  | Tick => tick st
  end.

Definition run (acts : list action) (st : loop) : loop := fold_left act acts st.

(** The files chained by a schedule, in the order of chaining. *)
Definition chained (acts : list action) : list string :=
  omap (λ a, match a with Chain f => Some f | Tick => None end) acts.

(** The calls of [recognizeAudio] begun, in order. *)
Definition entered (tr : list probe) : list string :=
  omap (λ p, match p with Enter f => Some f | Exit _ => None end) tr.

(** The reentrancy counter after a trace; [None] if it ever left
    the range 0..1. *)
Fixpoint counter (tr : list probe) (c : nat) : option nat :=
  match tr with
  | [] => Some c
  | Enter _ :: tr' => if decide (c = 0%nat) then counter tr' 1%nat else None
  | Exit _ :: tr' => if decide (c = 1%nat) then counter tr' 0%nat else None
  end.

End Loop.

End Lock.

(** ** The recognition stage: [convertAudio], [recognizeAudio],
    [transcribeAudio] (audioProcessor.ts, 166-294) *)

Module Recognition.
Import Scheduler.

(** [try { m } catch (e) { h e }] *)
Definition try_catch {A} (m : M A) (h : Js.exn → M A) : M A := λ w,
  match m w with
  | (Throw e, w') => h e w'
  | r => r
  end.

(** How the [ffmpeg] child process ends: the ['error'] event of a failed
    spawn, or the ['close'] event with an exit code, having written (or
    not) the converted file. *)
Inductive ffmpeg : Type :=
| SpawnError (err : Js.exn)
| Closed (code : Z) (output : option (list byte)).

(** Lines 169-204 run synchronously in the executor of [new Promise]:
    either [spawn] (or the registration of a listener on the child) throws,
    or the child is started with its listeners in place and ends as
    [child] says. *)
Inductive spawn : Type :=
| SpawnThrows (e : Js.exn)
| Spawned (child : ffmpeg).

Definition convertedFile_of (filename : string) : string :=
  filename +:+ ".converted.pcm".

(** Lines 167-215: how the promise of [convertAudio] settles. A throw in
    the executor rejects it (the executor is given [resolve] only);
    otherwise it resolves, with [None] for [null]. *)
Definition convertAudio (filename : string) (s : spawn) : M (option string) :=
  let convertedFile := convertedFile_of filename in
  match s with
  | SpawnThrows e => throw e
  | Spawned (SpawnError _) => mret None
  | Spawned (Closed code output) =>
      update (set_files (λ fs, match output with
                               | Some bytes => <[convertedFile := bytes]> fs
                               | None => fs
                               end));;
      if decide (code ≠ 0) then mret None else mret (Some convertedFile)
  end.

(** What [recognizer.result()] gives after an accepted chunk. *)
Inductive result : Type :=
| ResultThrows (e : Js.exn)
| ResultString (resultStr : string).

(** What [recognizer.acceptWaveform(chunk)] does. *)
Inductive accept : Type :=
| AcceptThrows (e : Js.exn)
| AcceptFalse
| AcceptTrue (r : result).

(** What [recognizer.finalResult()] gives: an object, seen through its
    [text] property when that is a string; or any other value ([null], a
    string, ...). *)
Inductive final : Type :=
| FinalThrows (e : Js.exn)
| FinalObject (text : option string)
| FinalOther.

(** The recognition backend, as far as one call observes it. Chunks are
    numbered from 0. *)
Record backend : Type := Backend {
  create : option Js.exn;
  acceptWaveform : nat → list byte → accept;
  finalResult : final;
  free : option Js.exn;
}.

Definition raise_if (e : option Js.exn) : M unit :=
  match e with
  | Some e => throw e
  | None => mret tt
  end.

Definition chunkSize : nat := N.to_nat 8192.

(** The chunks the [while] loop of lines 234-249 cuts: [fuel] bounds the
    number of iterations, each of which consumes at least one byte. *)
Fixpoint chunks (fuel : nat) (audioData : list byte) : list (list byte) :=
  match fuel with
  | O => []
  | S fuel' =>
      match audioData with
      | [] => []
      | _ => take chunkSize audioData :: chunks fuel' (drop chunkSize audioData)
      end
  end.

(** [s.trim()] *)
Fixpoint trim_start (s : list ascii) : list ascii :=
  match s with
  | c :: s' => if is_space c then trim_start s' else s
  | [] => []
  end.

Definition trim (s : string) : string :=
  string_of_list_ascii
    (rev (trim_start (rev (trim_start (list_ascii_of_string s))))).

Section Backend.
(** [JSON.parse(resultStr).text]: the parse (or the property access)
    throws, or the property is falsy ([None]), or it is truthy and
    concatenates as the given string. *)
Variable parse_text : string → option string + Js.exn.

(** Lines 239-247: the body of the loop for chunk number [i]. *)
Definition feed (b : backend) (i : nat) (chunk : list byte)
    (transcription : string) : M string :=
  match acceptWaveform b i chunk with
  | AcceptThrows e => throw e
  | AcceptFalse => mret transcription
  | AcceptTrue (ResultThrows e) => throw e
  | AcceptTrue (ResultString resultStr) =>
      if bool_decide (resultStr ≠ "" ∧ resultStr ≠ "[object Object]")
      then match parse_text resultStr with
           | inr e => throw e
           | inl (Some text) => mret (transcription +:+ text +:+ " ")
           | inl None => mret transcription
           end
      else mret transcription
  end.

Fixpoint feed_all (b : backend) (i : nat) (cs : list (list byte))
    (transcription : string) : M string :=
  match cs with
  | [] => mret transcription
  | chunk :: cs' =>
      transcription ← feed b i chunk transcription;
      feed_all b (S i) cs' transcription
  end.

(** Lines 218-271. *)
Definition recognizeAudio (b : backend) (convertedFile : string) : M string :=
  try_catch
    (raise_if (create b);;
     audioData ← readFileSync convertedFile;
     transcription ← feed_all b 0 (chunks (length audioData) audioData) "";
     transcription ←
       match finalResult b with
       | FinalThrows e => throw e
       | FinalObject (Some text) => mret (transcription +:+ text)
       | FinalObject None | FinalOther => mret transcription
       end;
     raise_if (free b);;
     mret (trim transcription))
    (λ e,
       match create b with
       | None => swallow (raise_if (free b))
       | Some _ => mret tt
       end;;
       mret ""%string).

(** Lines 281-290: the closure [recognize]. *)
Definition recognize (b : backend) (convertedFile : string) : M string :=
  try_catch
    (text ← recognizeAudio b convertedFile;
     swallow (unlinkSync convertedFile);;
     mret text)
    (λ _,
       swallow (present ← existsSync convertedFile;
                if (present : bool) then unlinkSync convertedFile else mret tt);;
       mret ""%string).

(** Lines 273-294, the segments of [transcribeAudio] run one after the
    other: the conversion settles, the guard of line 276, and the
    [recognize] job of this call when its turn on the lock comes.
    The [await] of line 275 stands outside any [try]: a rejection of
    [convertAudio] is the rejection of this call.
    The result says whether [recognize] was called. *)
Definition transcribeAudio (b : backend) (s : spawn) (filename : string)
    : M (bool * string) :=
  converted ← convertAudio filename s;
  match converted with
  | None => mret (false, ""%string)
  | Some convertedFile =>
      present ← existsSync convertedFile;
      if (present : bool)
      then text ← recognize b convertedFile; mret (true, text)
      else mret (false, ""%string)
  end.

End Backend.

End Recognition.

(** ** The bot: monitoring, cooldowns and enforcement (index.ts) *)

Module Bot.
Import Scheduler.

Definition COOLDOWN_MS : N := 10000.

(** A [GuildMember]: the guild and the user; [member.id] is the user's. *)
Record member : Type := Member { guild : string; user : Scheduler.user }.

#[export] Instance user_eq_dec : EqDecision Scheduler.user.
Proof. solve_decision. Defined.
#[export] Instance member_eq_dec : EqDecision member.
Proof. solve_decision. Defined.

(** The fields of [NoSportsZoneBot], the listeners registered on
    [receiver.speaking] of each connection (in order of registration), the
    cooldown timers not yet fired, and the audio processor. Connections are
    numbered in order of creation; [activeConnections] maps a guild to its
    connection. *)
Record bot : Type := Bot {
  botId : string;
  activeConnections : gmap string nat;
  connections : nat;
  userWarnings : gmap string nat;
  monitoredUsers : gset string;
  userCooldowns : gmap string N;
  listeners : list (nat * member);
  cooldownTimers : list (member * N);
  processor : Scheduler.world;
}.

Definition initial (botId : string) : bot :=
  {| botId := botId; activeConnections := ∅; connections := 0;
     userWarnings := ∅; monitoredUsers := ∅; userCooldowns := ∅;
     listeners := []; cooldownTimers := []; processor := Scheduler.initial |}.

Definition userKey (m : member) : string := guild m +:+ "-" +:+ id (user m).

(** Lines 239-261. *)
Definition monitorUser (connection : nat) (m : member) (s : bot) : bot :=
  if bool_decide (userKey m ∈ monitoredUsers s) then s
  else
    {| botId := botId s; activeConnections := activeConnections s;
       connections := connections s; userWarnings := userWarnings s;
       monitoredUsers := monitoredUsers s ∪ {[userKey m]};
       userCooldowns := userCooldowns s;
       listeners := listeners s ++ [(connection, m)];
       cooldownTimers := cooldownTimers s; processor := processor s |}.

(** Lines 78-95 and 201-221: a new connection; when it becomes ready it
    is stored and every member of the channel that is not a bot is
    monitored. *)
Definition connect (g : string) (ready : bool) (members : list member)
    (s : bot) : bot :=
  let connection := connections s in
  let s := {| botId := botId s; activeConnections := activeConnections s;
              connections := S (connections s); userWarnings := userWarnings s;
              monitoredUsers := monitoredUsers s; userCooldowns := userCooldowns s;
              listeners := listeners s; cooldownTimers := cooldownTimers s;
              processor := processor s |} in
  if ready then
    let s := {| botId := botId s;
                activeConnections := <[g := connection]> (activeConnections s);
                connections := connections s; userWarnings := userWarnings s;
                monitoredUsers := monitoredUsers s; userCooldowns := userCooldowns s;
                listeners := listeners s; cooldownTimers := cooldownTimers s;
                processor := processor s |} in
    foldl (λ s m, monitorUser connection m s) s members
  else s.

(** Lines 104-105, 117-118, 197, 230-231: the connection of a guild is
    dropped. *)
Definition disconnect (g : string) (s : bot) : bot :=
  {| botId := botId s; activeConnections := delete g (activeConnections s);
     connections := connections s; userWarnings := userWarnings s;
     monitoredUsers := monitoredUsers s; userCooldowns := userCooldowns s;
     listeners := listeners s; cooldownTimers := cooldownTimers s;
     processor := processor s |}.

Definition set_cooldowns (f : gmap string N → gmap string N) (s : bot) : bot :=
  {| botId := botId s; activeConnections := activeConnections s;
     connections := connections s; userWarnings := userWarnings s;
     monitoredUsers := monitoredUsers s; userCooldowns := f (userCooldowns s);
     listeners := listeners s; cooldownTimers := cooldownTimers s;
     processor := processor s |}.

Definition set_warnings (f : gmap string nat → gmap string nat) (s : bot) : bot :=
  {| botId := botId s; activeConnections := activeConnections s;
     connections := connections s; userWarnings := f (userWarnings s);
     monitoredUsers := monitoredUsers s; userCooldowns := userCooldowns s;
     listeners := listeners s; cooldownTimers := cooldownTimers s;
     processor := processor s |}.

Definition set_cooldownTimers (f : list (member * N) → list (member * N))
    (s : bot) : bot :=
  {| botId := botId s; activeConnections := activeConnections s;
     connections := connections s; userWarnings := userWarnings s;
     monitoredUsers := monitoredUsers s; userCooldowns := userCooldowns s;
     listeners := listeners s; cooldownTimers := f (cooldownTimers s);
     processor := processor s |}.

Definition set_processor (w : Scheduler.world) (s : bot) : bot :=
  {| botId := botId s; activeConnections := activeConnections s;
     connections := connections s; userWarnings := userWarnings s;
     monitoredUsers := monitoredUsers s; userCooldowns := userCooldowns s;
     listeners := listeners s; cooldownTimers := cooldownTimers s;
     processor := w |}.

(** Lines 140-172: a user joined a voice channel. The result says whether
    the handler returned from inside the cooldown branch. *)
Definition user_joined (m : member) (now : N) (s : bot) : bool * bot :=
  let userId := id (user m) in
  let monitor s :=
    match activeConnections s !! guild m with
    | Some connection =>
        if bool_decide (userId ≠ botId s) then monitorUser connection m s else s
    | None => s
    end in
  match (if bool_decide (userId ≠ ""%string) then userCooldowns s !! userId
         else None) with
  | Some cooldownEnd =>
      if bool_decide (now < cooldownEnd)%N
      then (true, set_cooldownTimers (λ ts, ts ++ [(m, cooldownEnd)]) s)
      else (false, monitor (set_cooldowns (delete userId) s))
  | None => (false, monitor s)
  end.

(** Lines 152-159: the callback of the cooldown timer; [in_voice] is
    [newState.member?.voice.channel] when it runs. *)
Definition cooldown_elapsed (m : member) (in_voice : bool) (s : bot) : bot :=
  let s := set_cooldowns (delete (id (user m))) s in
  match activeConnections s !! guild m with
  | Some connection => if in_voice then monitorUser connection m s else s
  | None => s
  end.

(** Lines 136-199: [handleVoiceStateUpdate]. [old_channel] and
    [new_channel] say whether [oldState.channel] and [newState.channel] are
    set; [ready] and [members] are what [handleBotJoinedChannel] finds. *)
Definition handleVoiceStateUpdate (old_channel new_channel : bool) (m : member)
    (now : N) (ready : bool) (members : list member) (s : bot) : bot :=
  let '(returned, s) :=
    if negb old_channel && new_channel then user_joined m now s else (false, s) in
  if returned then s
  else
    let s := if old_channel && negb new_channel
             then (if bool_decide (id (user m) ≠ ""%string)
                   then set_warnings (delete (id (user m))) s else s)
             else s in
    let s := if bool_decide (id (user m) = botId s) && new_channel && negb old_channel
             then (if bool_decide (is_Some (activeConnections s !! guild m)) then s
                   else connect (guild m) ready members s)
             else s in
    if bool_decide (id (user m) = botId s) && old_channel && negb new_channel
    then disconnect (guild m) s
    else s.

(** Lines 251-260: the ['start'] event of [receiver.speaking] on a
    connection; every listener registered on it runs, and the one of the
    speaking member calls [setupUserAudioCapture]. The result lists the
    outcome of each such call. *)
Definition speaking_start (connection : nat) (userId : string) (now now' : N)
    (s : bot) : list (option task) * bot :=
  foldl (λ '(rs, s) '(c, m),
           if bool_decide (c = connection ∧ userId = id (user m))
           then let '(r, w) := setupUserAudioCapture (user m) now now' (processor s) in
                (rs ++ [r], set_processor w s)
           else (rs, s))
        ([], s) (listeners s).

(** Lines 275-296: [kickUser]. [in_voice] is [member.voice.channel],
    [disconnected] whether [member.voice.disconnect] succeeded. *)
Definition kickUser (m : member) (in_voice disconnected : bool) (now : N)
    (s : bot) : bot :=
  if negb in_voice then s
  else if negb disconnected then s
  else
    let cooldownEnd := (now + COOLDOWN_MS)%N in
    set_warnings (delete (id (user m)))
      (set_cooldowns (<[id (user m) := cooldownEnd]>) s).

Inductive event : Type :=
| Connect (g : string) (ready : bool) (members : list member)
| Disconnect (g : string)
| VoiceStateUpdate (old_channel new_channel : bool) (m : member) (now : N)
    (ready : bool) (members : list member)
| CooldownElapsed (m : member) (in_voice : bool)
| SpeakingStart (connection : nat) (userId : string) (now now' : N)
| Kick (m : member) (in_voice disconnected : bool) (now : N)
| Processor (e : Scheduler.event).

Definition step (s : bot) (e : event) : bot :=
  match e with
  | Connect g ready members => connect g ready members s
  | Disconnect g => disconnect g s
  | VoiceStateUpdate o n m now ready members =>
      handleVoiceStateUpdate o n m now ready members s
  | CooldownElapsed m in_voice =>
      if bool_decide (m ∈ (cooldownTimers s).*1)
      then cooldown_elapsed m in_voice
             (set_cooldownTimers (λ ts, filter (λ t, t.1 ≠ m) ts) s)
      else s
  | SpeakingStart c userId now now' => (speaking_start c userId now now' s).2
  | Kick m in_voice disconnected now => kickUser m in_voice disconnected now s
  | Processor e => set_processor (Scheduler.step (processor s) e) s
  end.

Definition run (es : list event) (s : bot) : bot := foldl step s es.

End Bot.

(** ** The keyword matcher: [SportsDetector] (sportsDetector.ts) *)

Module Detector.

(** A [Set<string>] in insertion order. *)
Definition set_add (k : string) (ks : list string) : list string :=
  if bool_decide (k ∈ ks) then ks else ks ++ [k].

Definition set_delete (k : string) (ks : list string) : list string :=
  filter (λ k', k' ≠ k) ks.

(** Lines 5-82: [new Set([...])]. *)
Definition initialKeywords : list string :=
  foldl (λ ks k, set_add k ks) []
    [
     (* General sports terms *)
     "football"; "soccer"; "basketball"; "baseball"; "hockey"; "tennis";
     "golf"; "cricket"; "rugby"; "volleyball"; "boxing"; "wrestling";
     "mma"; "ufc"; "nfl"; "nba"; "mlb"; "nhl"; "fifa";
     (* Common sports phrases *)
     "game"; "match"; "tournament"; "championship"; "playoffs"; "season";
     "score"; "team"; "player"; "coach"; "referee"; "stadium";
     "touchdown"; "goal"; "home run"; "slam dunk"; "hat trick";
     (* Popular teams (examples - add more as needed) *)
     "lakers"; "yankees"; "cowboys"; "patriots"; "warriors"; "celtics";
     "red sox"; "manchester united"; "barcelona"; "real madrid";
     (* Athletes (examples) *)
     "lebron"; "brady"; "messi"; "ronaldo"; "mahomes"; "curry";
     (* Sports events *)
     "super bowl"; "world cup"; "olympics"; "world series"; "finals";
     "draft"; "espn"; "sports center";
     (* American Football Terms *)
     "quarterback"; "qb"; "running back"; "rb"; "wide receiver"; "wr";
     "tight end"; "te"; "offensive line"; "defensive line"; "linebacker";
     "cornerback"; "cb"; "safety"; "free safety"; "strong safety";
     "kickoff"; "punt"; "field goal"; "extra point"; "two point conversion";
     "first down"; "fourth down"; "red zone"; "end zone"; "line of scrimmage";
     "snap"; "blitz"; "sack"; "interception"; "fumble"; "tackle";
     "pass"; "rush"; "reception"; "yard"; "yards"; "offensive coordinator";
     "defensive coordinator"; "head coach"; "play action"; "screen pass";
     "hail mary"; "onside kick"; "touchback"; "holding"; "offsides";
     "pass interference"; "roughing the passer"; "helmet to helmet";
     "division"; "conference"; "afc"; "nfc"; "wild card"; "pro bowl";
     (* Denver Broncos Players (current and recent key players) *)
     "russell wilson"; "russ wilson"; "bo nix"; "jarrett stidham";
     "javonte williams"; "jaleel mclaughlin"; "samaje perine";
     "courtland sutton"; "jerry jeudy"; "tim patrick"; "marvin mims";
     "adam trautman"; "greg dulcich"; "garett bolles"; "mike mcglinchey";
     "lloyd cushenberry"; "quinn meinerz"; "ben powers";
     "patrick surtain"; "pat surtain"; "patrick surtain ii";
     "justin simmons"; "kareem jackson"; "josey jewell"; "alex singleton";
     "jonathon cooper"; "baron browning"; "nik bonitto"; "dre mont jones";
     "zach allen"; "riley moss"; "caden sterns"; "p j locke";
     "sean payton"; "vance joseph";
     (* Broncos legends *)
     "john elway"; "peyton manning"; "von miller"; "demaryius thomas";
     "terrell davis"; "shannon sharpe"; "steve atwater"; "champ bailey";
     "rod smith"; "clinton portis"; "bradley chubb";
     (* Seattle Seahawks Players (current and recent key players) *)
     "geno smith"; "drew lock"; "kenneth walker"; "kenneth walker iii";
     "zach charbonnet"; "dk metcalf"; "tyler lockett"; "jaxon smith njigba";
     "noah fant"; "will dissly"; "colby parkinson"; "charles cross";
     "abraham lucas"; "damien lewis"; "evan brown"; "phil haynes";
     "devon witherspoon"; "tariq woolen"; "riq woolen"; "coby bryant";
     "jamal adams"; "julian love"; "quandre diggs"; "bobby wagner";
     "jordyn brooks"; "devin bush"; "boye mafe"; "dre mont jones";
     "jarran reed"; "leonard williams"; "derick hall"; "michael jackson";
     "mike macdonald"; "ryan grubb";
     (* Seahawks legends *)
     "russell wilson"; "marshawn lynch"; "beast mode"; "richard sherman";
     "kam chancellor"; "earl thomas"; "doug baldwin"; "steve largent";
     "walter jones"; "cortez kennedy"; "shaun alexander"; "matt hasselbeck";
     "pete carroll"; "legion of boom"; "sea hawks"; "12th man";
     (* NFL Teams *)
     "broncos"; "seahawks"; "raiders"; "chargers"; "chiefs";
     "ravens"; "steelers"; "browns"; "bengals"; "texans";
     "colts"; "jaguars"; "titans"; "bills"; "dolphins";
     "jets"; "eagles"; "giants"; "commanders"; "washington";
     "packers"; "bears"; "lions"; "vikings"; "falcons";
     "panthers"; "saints"; "buccaneers"; "bucs"; "cardinals";
     "49ers"; "niners"; "rams"; "arizona"; "san francisco"
    ]%string.

(** Characters are taken in the ASCII range. *)
Definition is_upper (c : ascii) : bool :=
  let n := N_of_ascii c in ((65 <=? n) && (n <=? 90))%N.
Definition is_lower (c : ascii) : bool :=
  let n := N_of_ascii c in ((97 <=? n) && (n <=? 122))%N.
Definition is_digit (c : ascii) : bool :=
  let n := N_of_ascii c in ((48 <=? n) && (n <=? 57))%N.

Definition lower (c : ascii) : ascii :=
  if is_upper c then ascii_of_N (N_of_ascii c + 32) else c.
Definition upper (c : ascii) : ascii :=
  if is_lower c then ascii_of_N (N_of_ascii c - 32) else c.

Definition chars (s : string) : list ascii := list_ascii_of_string s.

(** [s.toLowerCase()] *)
Definition toLowerCase (s : string) : string :=
  string_of_list_ascii (lower <$> chars s).

(** *** The fragment of regular expressions the patterns fall in

    [new RegExp(`\\b${keyword}\\b`, 'i')] splices the keyword into the
    pattern source as it is. A character of the keyword that is not a
    syntax character stands for itself; [.] stands for any character but a
    line terminator; the other syntax characters (quantifiers, groups,
    classes, escapes, anchors, alternation) are outside the fragment. *)
Inductive atom : Type :=
| Char (c : ascii)
| AnyChar
| WordBoundary.

Definition syntax_characters : list ascii :=
  chars "^$\.*+?()[]{}|".

Definition compile_char (c : ascii) : option atom :=
  if bool_decide (c = "."%char) then Some AnyChar
  else if bool_decide (c ∈ syntax_characters) then None
  else Some (Char c).

(** The pattern [\b keyword \b]; [None] when the keyword leaves the
    fragment (the constructor may then throw, or build another matcher). *)
Definition compile (keyword : string) : option (list atom) :=
  atoms ← mapM compile_char (chars keyword);
  Some (WordBoundary :: atoms ++ [WordBoundary]).

(** [\w] *)
Definition is_word (c : ascii) : bool :=
  is_upper c || is_lower c || is_digit c || bool_decide (c = "_"%char).

Definition is_word_at (c : option ascii) : bool :=
  match c with
  | Some c => is_word c
  | None => false
  end.

Definition is_line_terminator (c : ascii) : bool :=
  bool_decide (c = "010"%char) || bool_decide (c = "013"%char).

(** Matching a sequence of atoms at one position of the input: [prev]
    is the character before the position, [rest] the input from it. Under
    the [i] flag two characters match when their upper-case forms agree. *)
Fixpoint match_here (atoms : list atom) (prev : option ascii) (rest : list ascii)
    : bool :=
  match atoms with
  | [] => true
  | WordBoundary :: atoms' =>
      xorb (is_word_at prev) (is_word_at (head rest))
      && match_here atoms' prev rest
  | Char c :: atoms' =>
      match rest with
      | d :: rest' =>
          bool_decide (upper c = upper d) && match_here atoms' (Some d) rest'
      | [] => false
      end
  | AnyChar :: atoms' =>
      match rest with
      | d :: rest' =>
          negb (is_line_terminator d) && match_here atoms' (Some d) rest'
      | [] => false
      end
  end.

(** [regex.test(s)]: a match at some position, from left to right. *)
Fixpoint search (atoms : list atom) (prev : option ascii) (rest : list ascii)
    : bool :=
  match_here atoms prev rest ||
  match rest with
  | d :: rest' => search atoms (Some d) rest'
  | [] => false
  end.

Definition test (atoms : list atom) (s : string) : bool :=
  search atoms None (chars s).

(** Lines 85-100. [None]: some keyword is outside the fragment. *)
Definition detectSports (sportsKeywords : list string) (text : string)
    : option (bool * list string) :=
  let lowerText := toLowerCase text in
  detectedKeywords ←
    foldl (λ acc keyword,
             detectedKeywords ← acc;
             regex ← compile keyword;
             Some (if test regex lowerText
                   then detectedKeywords ++ [keyword]
                   else detectedKeywords))
          (Some []) sportsKeywords;
  Some (bool_decide (0 < length detectedKeywords)%nat, detectedKeywords).

(** Lines 102-112. *)
Definition addKeyword (keyword : string) (sportsKeywords : list string)
    : list string :=
  set_add (toLowerCase keyword) sportsKeywords.

Definition removeKeyword (keyword : string) (sportsKeywords : list string)
    : list string :=
  set_delete (toLowerCase keyword) sportsKeywords.

Definition getKeywords (sportsKeywords : list string) : list string :=
  sportsKeywords.

End Detector.


(** ** Enforcement: [handleTranscription] (index.ts, 263-273) *)

Module Enforcement.
Import Scheduler Bot.

(** The callback the ['start'] listener hands to the processor:
    [detectSports] on the text, then [kickUser] when something is detected.
    [None]: a keyword of the set is outside the fragment of patterns. *)
Definition handleTranscription (sportsKeywords : list string) (m : member)
    (text : string) (in_voice disconnected : bool) (now : N) (s : bot)
    : option bot :=
  match Detector.detectSports sportsKeywords text with
  | Some (detected, keywords) =>
      Some (if detected then kickUser m in_voice disconnected now s else s)
  | None => None
  end.

End Enforcement.


(** * Part II: the properties *)

(** ** The quality gate *)

Section QualityGate.
Import Scheduler.

(** The mean of the squared amplitudes, as the specification words it. *)
Definition mean_square (ss : list Z) : R :=
  let total := foldr Z.add 0 ((λ s, s * s) <$> ss) in
  (IZR total / IZR (Z.of_nat (length ss)))%R.

Lemma fold_squares_shift (ss : list Z) (a : Z) :
  fold_left (fun acc s => acc + s * s) ss a
  = a + foldr Z.add 0 ((λ s, s * s) <$> ss).
Proof.
  revert a. induction ss as [|s ss IH]; intros a; cbn; [lia|].
  rewrite IH. lia.
Qed.

Lemma sumSquares_spec (ss : list Z) :
  Pcm.sumSquares ss = foldr Z.add 0 ((λ s, s * s) <$> ss).
Proof. unfold Pcm.sumSquares. by rewrite fold_squares_shift. Qed.

Lemma energy_is_rms (buffer : list byte) :
  2 ≤ Z.of_nat (length buffer) →
  Pcm.calculateAudioEnergy buffer
  = Js.Num (R_sqrt.sqrt (mean_square (Pcm.samples buffer))).
Proof.
  intros Hlen. unfold mean_square. rewrite <- sumSquares_spec.
  apply energy_defined. rewrite samples_length.
  apply Z.div_str_pos. lia.
Qed.

Ltac run_gate Hfile :=
  unfold gate_segment, statSync_size, readFileSync, unlinkSync, log, update,
    return_, mbind, M_bind, mret, M_ret;
  cbn; rewrite ?Hfile; cbn;
  repeat (case_bool_decide; cbn; rewrite ?Hfile; cbn).

Lemma gate_segment_cases (t : task) (w : world) (buffer : list byte) :
  files w !! filename t = Some buffer →
  let size := Z.of_nat (length buffer) in
  gate_segment t w =
    if bool_decide (size < MIN_AUDIO_BYTES) then
      (Return, set_files (delete (filename t))
                 (set_console (λ c, (c ++ [LogAudio]) ++ [LogTooSmall]) w))
    else if bool_decide (durationMs size < IZR MIN_AUDIO_DURATION_MS)%R then
      (Return, set_files (delete (filename t))
                 (set_console (λ c, (c ++ [LogAudio]) ++ [LogTooShort]) w))
    else if bool_decide (Js.lt (Pcm.calculateAudioEnergy buffer) MIN_ENERGY) then
      (Return, set_files (delete (filename t))
                 (set_console (λ c, ((c ++ [LogAudio]) ++ [LogEnergy]) ++ [LogEnergyLow]) w))
    else
      (Normal tt,
       set_console (λ c, ((c ++ [LogAudio]) ++ [LogEnergy]) ++ [LogTranscribing]) w).
Proof.
  intros Hfile size. subst size.
  destruct (bool_decide (Z.of_nat (length buffer) < MIN_AUDIO_BYTES)) eqn:E1;
    [run_gate Hfile; try done; by rewrite E1 in *|].
  destruct (bool_decide (durationMs _ < _)%R) eqn:E2;
    [run_gate Hfile; try done; congruence|].
  destruct (bool_decide (Js.lt _ _)) eqn:E3; run_gate Hfile; try done; congruence.
Qed.

(** *** Segments of one repeated sample *)

Lemma M_bind_eq {A B : Type} (m : M A) (k : A → M B) (w : world) :
  (m ≫= k) w =
  match m w with
  | (Normal a, w') => k a w'
  | (Return, w') => (Return, w')
  | (Throw e, w') => (Throw e, w')
  end.
Proof. reflexivity. Qed.

(** [n] samples, each made of the byte [b] twice. *)
Definition tone (b : byte) (n : N) : list byte := repeat b (2 * N.to_nat n).

Lemma tone_length (b : byte) (n : N) :
  Z.of_nat (length (tone b n)) = 2 * Z.of_N n.
Proof. unfold tone. rewrite repeat_length. lia. Qed.

Lemma samples_repeat (b : byte) (k : nat) :
  Pcm.samples (repeat b (2 * k)) = repeat (Pcm.int16_le b b) k.
Proof.
  induction k as [|k IH]; [done|].
  replace (2 * S k)%nat with (S (S (2 * k))) by lia. cbn [repeat Pcm.samples].
  by rewrite IH.
Qed.

Lemma sumSquares_repeat (s : Z) (k : nat) :
  Pcm.sumSquares (repeat s k) = Z.of_nat k * (s * s).
Proof.
  rewrite sumSquares_spec. induction k as [|k IH]; [done|].
  cbn [repeat fmap list_fmap foldr]. rewrite IH. lia.
Qed.

(** The gate on a tone of at least half a second: only the energy check
    can reject it, and it does when the square of the sample is below the
    square of the threshold. *)
Lemma gate_segment_tone (t : task) (w : world) (b : byte) (n : N) :
  files w !! filename t = Some (tone b n) →
  (48000 ≤ n)%N →
  gate_segment t w =
    if bool_decide (Pcm.int16_le b b * Pcm.int16_le b b < MIN_ENERGY * MIN_ENERGY)
    then (Return, set_files (delete (filename t))
                    (set_console (λ c, ((c ++ [LogAudio]) ++ [LogEnergy])
                                       ++ [LogEnergyLow]) w))
    else (Normal tt,
          set_console (λ c, ((c ++ [LogAudio]) ++ [LogEnergy])
                            ++ [LogTranscribing]) w).
Proof.
  intros Hfile Hn. rewrite (gate_segment_cases t w (tone b n) Hfile).
  rewrite tone_length.
  rewrite (bool_decide_eq_false_2 (2 * Z.of_N n < MIN_AUDIO_BYTES))
    by (unfold MIN_AUDIO_BYTES; lia).
  rewrite (bool_decide_eq_false_2 (durationMs _ < _)%R)
    by (rewrite durationMs_lt_iff; unfold MIN_AUDIO_DURATION_MS; lia).
  assert (Hq : Js.lt (Pcm.calculateAudioEnergy (tone b n)) MIN_ENERGY ↔
               Pcm.int16_le b b * Pcm.int16_le b b < MIN_ENERGY * MIN_ENERGY).
  { rewrite energy_lt_iff by done. unfold tone.
    rewrite samples_repeat, sumSquares_repeat, repeat_length.
    assert (0 < Z.of_nat (N.to_nat n)) by lia.
    split.
    - intros [_ H1]. nia.
    - intros H1. split; [|nia]. destruct (N.to_nat n); [lia | done]. }
  by rewrite (bool_decide_ext _ _ Hq).
Qed.

(** A capture that wrote a tone and did not fail. *)
Lemma after_capture_tone (t : task) (w : world) (b : byte) (n : N) :
  (48000 ≤ n)%N →
  after_capture t (Capture (Some (tone b n)) None) w =
    let w1 := set_files (λ fs, <[filename t := tone b n]> fs) w in
    if bool_decide (Pcm.int16_le b b * Pcm.int16_le b b < MIN_ENERGY * MIN_ENERGY)
    then (Terminated,
          (finalizer t
             (set_files (delete (filename t))
                (set_console (λ c, ((c ++ [LogAudio]) ++ [LogEnergy])
                                   ++ [LogEnergyLow]) w1))).2)
    else (Suspended,
          set_console (λ c, ((c ++ [LogAudio]) ++ [LogEnergy])
                            ++ [LogTranscribing]) w1).
Proof.
  intros Hn. unfold after_capture, try_segment. rewrite M_bind_eq.
  unfold settle_capture. rewrite M_bind_eq. cbn [update written failure mret M_ret].
  rewrite (gate_segment_tone t _ b n); [|apply lookup_insert_eq|done].
  by case_bool_decide.
Qed.

(** C4. For a captured segment held in the scratch file, the gate rejects
    (the method returns early) exactly when the byte length is below
    [MIN_AUDIO_BYTES], or the estimated duration [size / 192000 * 1000] is
    below [MIN_AUDIO_DURATION_MS], or the RMS energy, the square root of the
    mean of the squared 16-bit samples, is below [MIN_ENERGY]. The checks
    run in that order and the first failing one wins: the console shows the
    line of that check alone, and the energy is not computed when an
    earlier check fails. Every rejection has deleted the scratch file when
    it returns; an accepted segment is left in place for transcription. *)
Theorem quality_gate_rejects_exactly (t : task) (w : world) (buffer : list byte) :
  files w !! filename t = Some buffer →
  let size := Z.of_nat (length buffer) in
  let small := size < MIN_AUDIO_BYTES in
  let short := (durationMs size < IZR MIN_AUDIO_DURATION_MS)%R in
  let quiet := Js.lt (Pcm.calculateAudioEnergy buffer) MIN_ENERGY in
  let c := (gate_segment t w).1 in
  let w' := (gate_segment t w).2 in
  (c = Return ↔ small ∨ short ∨ quiet) ∧
  (c = Return → files w' = delete (filename t) (files w)
                ∧ files w' !! filename t = None) ∧
  (c ≠ Return → c = Normal tt ∧ files w' = files w) ∧
  (small → console w' = console w ++ [LogAudio; LogTooSmall]) ∧
  (¬ small → short → console w' = console w ++ [LogAudio; LogTooShort]) ∧
  (¬ small → ¬ short → quiet →
     console w' = console w ++ [LogAudio; LogEnergy; LogEnergyLow]) ∧
  (¬ small →
     Pcm.calculateAudioEnergy buffer
     = Js.Num (R_sqrt.sqrt (mean_square (Pcm.samples buffer)))).
Proof.
  intros Hfile size small short quiet c w'. subst c w'.
  rewrite (gate_segment_cases t w buffer Hfile). fold size.
  assert (Hrms : ¬ small →
     Pcm.calculateAudioEnergy buffer
     = Js.Num (R_sqrt.sqrt (mean_square (Pcm.samples buffer)))).
  { intros Hs. apply energy_is_rms. unfold small, size, MIN_AUDIO_BYTES in Hs. lia. }
  repeat case_bool_decide; cbn; rewrite <- ?app_assoc; cbn;
    rewrite ?lookup_delete_eq;
    (split; [split; [intros ?; tauto || done | intros ?; tauto || done]|]);
    repeat split; try done; try tauto; intros; try tauto; try done.
Qed.

(** A segment of two silent samples: 4 zero bytes. *)
Definition tiny_task : task :=
  {| speaker := {| id := "42"; username := "ann" |};
     processingKey := "42-1000"; filename := "./audio_recordings/42-1000.pcm" |}.
Definition tiny_world : world :=
  set_files (λ _, {[ "./audio_recordings/42-1000.pcm"%string
                     := [x00; x00; x00; x00] ]}) initial.

Lemma quality_gate_rejects_exactly_witness :
  files tiny_world !! filename tiny_task = Some [x00; x00; x00; x00] ∧
  (gate_segment tiny_task tiny_world).1 = Return.
Proof.
  split; [reflexivity|].
  apply (quality_gate_rejects_exactly tiny_task tiny_world
           [x00; x00; x00; x00]); [reflexivity|].
  left. vm_compute. reflexivity.
Defined.


(** Half a second of silence: 48000 samples of value 0. *)
Definition silent_world : world :=
  set_files (λ _, {[ "./audio_recordings/42-1000.pcm"%string
                     := tone x00 48000 ]}) initial.


End QualityGate.

(** ** Processing keys are unambiguous *)

Section Keys.

Fixpoint has_dash (s : string) : bool :=
  match s with
  | EmptyString => false
  | String c s' => bool_decide (c = "-"%char) || has_dash s'
  end.

Lemma digits_no_dash (d : Decimal.uint) :
  has_dash (NilEmpty.string_of_uint d) = false.
Proof. induction d; cbn; done. Qed.

Lemma show_no_dash (n : N) : has_dash (Js.show n) = false.
Proof. apply digits_no_dash. Qed.

Lemma has_dash_app (a b : string) :
  has_dash (a +:+ b) = has_dash a || has_dash b.
Proof.
  induction a as [|c a IH]; [done|].
  change (has_dash (String c a +:+ b))
    with (bool_decide (c = "-"%char) || has_dash (a +:+ b)).
  rewrite IH. cbn. by rewrite orb_assoc.
Qed.

Lemma dash_suffix_inj (a b s t : string) :
  has_dash s = false → has_dash t = false →
  a +:+ "-" +:+ s = b +:+ "-" +:+ t → a = b ∧ s = t.
Proof.
  intros Hs Ht. revert b. induction a as [|c a IH]; intros [|d b] E.
  - by injection E.
  - injection E as _ E. change ("" +:+ s) with s in E. subst s.
    rewrite has_dash_app in Hs. simpl in Hs. by rewrite orb_true_r in Hs.
  - injection E as _ E. change ("" +:+ t) with t in E. subst t.
    rewrite has_dash_app in Ht. simpl in Ht. by rewrite orb_true_r in Ht.
  - injection E as -> E. destruct (IH b E) as [-> ->]; done.
Qed.

Lemma key_of_inj (u u' : Scheduler.user) (now now' : N) :
  Scheduler.key_of u now = Scheduler.key_of u' now' →
  Scheduler.id u = Scheduler.id u' ∧ now = now'.
Proof.
  intros E. apply dash_suffix_inj in E as [E1 E2]; try apply show_no_dash.
  split; [done|]. unfold Js.show in E2.
  apply (f_equal NilEmpty.uint_of_string) in E2.
  rewrite !NilEmpty.usu in E2. simplify_eq.
  by apply DecimalN.Unsigned.to_uint_inj.
Qed.

End Keys.

(** ** What the segments of [setupUserAudioCapture] change *)

Section Frames.
Import Scheduler.

(** The part of the state the stages between admission and cleanup leave
    alone: the two sets of the class and the timers. *)
Definition same_accounts (w w' : world) : Prop :=
  processingQueue w' = processingQueue w ∧
  activeUsers w' = activeUsers w ∧
  timers w' = timers w.

Lemma same_accounts_refl (w : world) : same_accounts w w.
Proof. done. Qed.

Lemma same_accounts_trans (w1 w2 w3 : world) :
  same_accounts w1 w2 → same_accounts w2 w3 → same_accounts w1 w3.
Proof. unfold same_accounts. intros (->&->&->) (->&->&->). done. Qed.

Ltac run_M :=
  unfold settle_capture, gate_segment, deliver_segment, handler, finalizer,
    swallow, existsSync, statSync_size, readFileSync, unlinkSync,
    onTranscription, log, update, throw, return_, mbind, M_bind, mret, M_ret;
  cbn.

Lemma settle_capture_accounts (t : task) (c : capture) (w : world) :
  same_accounts w (settle_capture t c w).2 ∧
  delivered (settle_capture t c w).2 = delivered w ∧
  (settle_capture t c w).1 ≠ Return.
Proof. run_M. destruct (failure c); done. Qed.

Lemma gate_segment_accounts (t : task) (w : world) :
  same_accounts w (gate_segment t w).2 ∧
  delivered (gate_segment t w).2 = delivered w ∧
  ((gate_segment t w).1 = Return → files (gate_segment t w).2 !! filename t = None).
Proof.
  destruct (files w !! filename t) as [buffer|] eqn:Hfile.
  - rewrite (gate_segment_cases t w buffer Hfile).
    repeat case_bool_decide; cbn; rewrite ?lookup_delete_eq; done.
  - run_M. rewrite Hfile. done.
Qed.

Lemma deliver_segment_accounts (t : task) (settled : string + Js.exn) (w : world) :
  same_accounts w (deliver_segment t settled w).2 ∧
  ((deliver_segment t settled w).1 = Normal tt →
     files (deliver_segment t settled w).2 !! filename t = None) ∧
  (deliver_segment t settled w).1 ≠ Return.
Proof.
  run_M. destruct settled as [text|e]; cbn; [|done].
  destruct (blank text); cbn; destruct (files w !! filename t) eqn:Hfile; cbn;
    rewrite ?lookup_delete_eq; done.
Qed.

(** The [catch] block always completes normally and leaves no scratch
    file behind. *)
Lemma handler_spec (t : task) (e : Js.exn) (w : world) :
  (handler t e w).1 = Normal tt ∧
  same_accounts w (handler t e w).2 ∧
  delivered (handler t e w).2 = delivered w ∧
  files (handler t e w).2 !! filename t = None.
Proof.
  run_M. destruct (shouldLog e); cbn;
    destruct (files w !! filename t) eqn:Hfile; cbn;
    rewrite ?Hfile; cbn; rewrite ?lookup_delete_eq;
    repeat case_bool_decide; cbn; rewrite ?Hfile, ?lookup_delete_eq; try done;
    exfalso; naive_solver.
Qed.

Lemma finalizer_spec (t : task) (w : world) :
  let w' := (finalizer t w).2 in
  processingQueue w' = processingQueue w ∖ {[processingKey t]} ∧
  activeUsers w' = activeUsers w ∖ {[id (speaker t)]} ∧
  timers w' = timers w ∖ {[processingKey t]} ∧
  files w' = files w ∧ delivered w' = delivered w.
Proof. done. Qed.

(** A segment either suspends with the accounts untouched, or
    terminates through the [finally] block. *)
Lemma try_segment_spec (t : task) (body : M unit) (awaits : bool) (w : world) :
  same_accounts w (body w).2 →
  ((body w).1 = Return → files (body w).2 !! filename t = None) →
  (awaits = false → (body w).1 = Normal tt →
     files (body w).2 !! filename t = None) →
  let r := try_segment t body awaits w in
  match r.1 with
  | Suspended =>
      awaits = true ∧ (body w).1 = Normal tt ∧ r.2 = (body w).2
  | Terminated =>
      processingQueue r.2 = processingQueue w ∖ {[processingKey t]} ∧
      activeUsers r.2 = activeUsers w ∖ {[id (speaker t)]} ∧
      timers r.2 = timers w ∖ {[processingKey t]} ∧
      files r.2 !! filename t = None
  end.
Proof.
  intros (Hq & Ha & Ht) Hret Hnorm. unfold try_segment.
  destruct (body w) as [[[]| |e] w'] eqn:Hbody; cbn in *.
  - destruct awaits; cbn; [done|].
    destruct (finalizer_spec t w') as (-> & -> & -> & -> & _).
    rewrite Hq, Ha, Ht. auto.
  - destruct (finalizer_spec t w') as (-> & -> & -> & -> & _).
    rewrite Hq, Ha, Ht. auto.
  - destruct (handler_spec t e w') as (_ & (Hq' & Ha' & Ht') & _ & Hf).
    destruct (finalizer_spec t (handler t e w').2) as (-> & -> & -> & -> & _).
    rewrite Hq', Ha', Ht', Hq, Ha, Ht. auto.
Qed.

End Frames.

(** ** Cleanup, late completions and the concurrency ceiling *)

Section SchedulerProperties.
Import Scheduler.

Lemma capture_body_accounts (t : task) (c : capture) (w : world) :
  let r := (settle_capture t c;; gate_segment t) w in
  same_accounts w r.2 ∧ delivered r.2 = delivered w ∧
  (r.1 = Return → files r.2 !! filename t = None).
Proof.
  destruct (settle_capture_accounts t c w) as (Hs & Hd & Hnr).
  cbn zeta. rewrite M_bind_eq.
  destruct (settle_capture t c w) as [[[]| |e] w1] eqn:E; cbn in *; try done.
  destruct (gate_segment_accounts t w1) as (Hg & Hd' & Hf).
  split; [by eapply same_accounts_trans|]. split; [congruence | done].
Qed.

Lemma after_capture_spec (t : task) (c : capture) (w : world) :
  let r := after_capture t c w in
  match r.1 with
  | Suspended => same_accounts w r.2 ∧ delivered r.2 = delivered w
  | Terminated =>
      processingQueue r.2 = processingQueue w ∖ {[processingKey t]} ∧
      activeUsers r.2 = activeUsers w ∖ {[id (speaker t)]} ∧
      timers r.2 = timers w ∖ {[processingKey t]} ∧
      files r.2 !! filename t = None
  end.
Proof.
  destruct (capture_body_accounts t c w) as (Hacc & Hd & Hret).
  pose proof (try_segment_spec t (settle_capture t c;; gate_segment t) true w
                Hacc Hret) as H.
  cbn zeta in *. unfold after_capture.
  destruct (try_segment _ _ _ _).1; [|apply H; done].
  destruct H as (_ & _ & ->); done.
Qed.

Lemma after_transcribe_spec (t : task) (settled : string + Js.exn) (w : world) :
  let w' := after_transcribe t settled w in
  processingQueue w' = processingQueue w ∖ {[processingKey t]} ∧
  activeUsers w' = activeUsers w ∖ {[id (speaker t)]} ∧
  timers w' = timers w ∖ {[processingKey t]} ∧
  files w' !! filename t = None.
Proof.
  destruct (deliver_segment_accounts t settled w) as (Hacc & Hnorm & Hnr).
  pose proof (try_segment_spec t (deliver_segment t settled) false w Hacc) as H.
  cbn zeta in *. unfold after_transcribe.
  destruct (try_segment _ _ _ _).1 eqn:E.
  - destruct H as (? & _); done.
  - apply H; done.
Qed.

Lemma after_transcribe_delivered (t : task) (text : string) (w : world) :
  delivered (after_transcribe t (inl text) w)
  = delivered w ++
      (if blank text then []
       else [(id (speaker t), username (speaker t), text)]).
Proof.
  unfold after_transcribe, try_segment, deliver_segment, unlinkSync,
    onTranscription, log, update, mbind, M_bind, mret, M_ret. cbn.
  destruct (blank text); cbn; destruct (files w !! filename t) eqn:Hfile; cbn;
    rewrite ?app_nil_r; try done;
    match goal with
    | |- context [handler ?t ?e ?w] =>
        destruct (handler_spec t e w) as (_ & _ & Hd & _)
    end;
    destruct (finalizer_spec t (handler t Js.ENOENT
      (set_console (λ c, c ++ [LogNoTranscription]) w)).2) as (_&_&_&_&Hd');
    try (rewrite Hd', Hd; cbn; by rewrite ?app_nil_r).
  all: match goal with
    | |- context [finalizer ?t ?w] =>
        destruct (finalizer_spec t w) as (_&_&_&_&Hd'')
    end; rewrite Hd'', Hd; done.
Qed.

(** What a released task leaves behind. *)
Definition released (t : task) (w : world) : Prop :=
  (processingKey t ∉ processingQueue w) ∧
  (id (speaker t) ∉ activeUsers w) ∧
  (processingKey t ∉ timers w) ∧
  files w !! filename t = None.

(** Every exit of the call through its [try] statement releases the
    task: when the segment after the capture terminates (gate rejection, or
    an error of the capture or of the gate), and when the segment after the
    transcription runs (text delivered or not, or an error of the
    transcription), the processing key is out of the in-flight set, the
    speaker out of the active-users set, the timer cleared and the scratch
    file gone, in whatever state the other tasks have left the processor by
    then. *)
Lemma finally_releases
    (t : task) (c : capture) (settled : string + Js.exn) (w w2 : world) :
  ((after_capture t c w).1 = Terminated → released t (after_capture t c w).2) ∧
  ((after_capture t c w).1 = Suspended →
     processingQueue (after_capture t c w).2 = processingQueue w ∧
     activeUsers (after_capture t c w).2 = activeUsers w) ∧
  released t (after_transcribe t settled w2).
Proof.
  pose proof (after_capture_spec t c w) as Hc.
  pose proof (after_transcribe_spec t settled w2) as Ht.
  cbn zeta in *. unfold released. split; [|split].
  - intros E. rewrite E in Hc. destruct Hc as (-> & -> & -> & ->). set_solver.
  - intros E. rewrite E in Hc. destruct Hc as ((-> & -> & _) & _). done.
  - destruct Ht as (-> & -> & -> & ->). set_solver.
Qed.

Lemma timeout_frame (key : string) (w : world) :
  delivered (timeout key w) = delivered w ∧
  activeUsers (timeout key w) = activeUsers w ∧
  files (timeout key w) = files w ∧
  timers (timeout key w) = timers w ∖ {[key]} ∧
  processingQueue (timeout key w)
  = (if bool_decide (key ∈ timers w) then processingQueue w ∖ {[key]}
     else processingQueue w).
Proof.
  unfold timeout. repeat case_bool_decide; cbn; repeat split; try done; set_solver.
Qed.

(** The events that settle a stage of a task of speaker [u]. *)
Definition settles_for (u : user) (e : event) : Prop :=
  match e with
  | CaptureSettles t _ | TranscriptionSettles t _ => id (speaker t) = id u
  | _ => False
  end.

Lemma step_keeps_active (u : user) (w : world) (e : event) :
  ¬ settles_for u e → id u ∈ activeUsers w → id u ∈ activeUsers (step w e).
Proof.
  intros Hsettles Hact.
  destruct e as [u' now now'|key|t c|t settled]; cbn [step settles_for] in *.
  - unfold setupUserAudioCapture. repeat case_bool_decide; cbn; set_solver.
  - by destruct (timeout_frame key w) as (_ & -> & _).
  - pose proof (after_capture_spec t c w) as H. cbn zeta in H.
    destruct (after_capture t c w).1.
    + destruct H as ((_ & -> & _) & _). done.
    + destruct H as (_ & -> & _). set_solver.
  - destruct (after_transcribe_spec t settled w) as (_ & -> & _). set_solver.
Qed.

(** The stream set-up of lines 71-88 leaves the processor as the
    admission left it, whether it throws or not: a speaker-start event
    stands for both. *)
Lemma start_call_world (u : user) (now now' : N) (thrown : option Js.exn)
    (w : world) :
  (start_call u now now' thrown w).2 = (setupUserAudioCapture u now now' w).2.
Proof.
  unfold start_call.
  destruct (setupUserAudioCapture u now now' w) as [[t|] w']; [|done].
  by destruct thrown.
Qed.

Lemma start_call_admitted (u : user) (now now' : N) (thrown : option Js.exn)
    (w : world) :
  id u ∉ activeUsers w →
  (size (processingQueue w) < MAX_CONCURRENT)%nat →
  let t := {| speaker := u; processingKey := key_of u now;
              filename := file_of u now' |} in
  let r := start_call u now now' thrown w in
  r.1 = match thrown with Some e => Rejected t e | None => Capturing t end ∧
  processingQueue r.2 = processingQueue w ∪ {[processingKey t]} ∧
  activeUsers r.2 = activeUsers w ∪ {[id u]} ∧
  timers r.2 = timers w ∪ {[processingKey t]} ∧
  files r.2 = files w ∧
  delivered r.2 = delivered w.
Proof.
  intros Hidle Hroom. cbn zeta. unfold start_call, setupUserAudioCapture.
  rewrite bool_decide_eq_false_2 by done.
  rewrite bool_decide_eq_false_2 by lia.
  by destruct thrown.
Qed.

(** C5, as the code has it. The [finally] block is not reached from
    every exit of an admitted call. [receiver.subscribe],
    [opusStream.setMaxListeners] and [new prism.opus.Decoder] run after the
    speaker and the processing key have been added to the two sets and the
    timer armed, and before the [try]: when one of them throws, the call
    ends with the processing key still in the in-flight set, the speaker
    still in the active-users set and the timer still armed. The timer
    later frees the slot, but nothing removes the speaker: in every later
    run of the processor in which no stage of a task of theirs settles (the
    rejected call has none), the speaker stays active and every further
    call for them is turned away. The exits through the [try] statement do
    release the task: gate rejection, an error of the capture, of the gate
    or of the transcription, and delivery. *)
Theorem setup_throw_skips_cleanup
    (u : user) (now now' later later' : N) (e : Js.exn) (es : list event)
    (w : world) :
  id u ∉ activeUsers w →
  (size (processingQueue w) < MAX_CONCURRENT)%nat →
  Forall (λ ev, ¬ settles_for u ev) es →
  let t := {| speaker := u; processingKey := key_of u now;
              filename := file_of u now' |} in
  let r := start_call u now now' (Some e) w in
  (start_call u now now' None w).1 = Capturing t ∧
  r.1 = Rejected t e ∧
  processingKey t ∈ processingQueue r.2 ∧
  id u ∈ activeUsers r.2 ∧
  processingKey t ∈ timers r.2 ∧
  files r.2 = files w ∧
  (¬ released t r.2) ∧
  (processingKey t ∉ processingQueue (timeout (processingKey t) r.2)) ∧
  id u ∈ activeUsers (run es r.2) ∧
  setupUserAudioCapture u later later' (run es r.2) = (None, run es r.2) ∧
  ∀ (c : capture) (settled : string + Js.exn) (w1 w2 : world),
    ((after_capture t c w1).1 = Terminated → released t (after_capture t c w1).2) ∧
    released t (after_transcribe t settled w2).
Proof.
  intros Hidle Hroom Hes. cbn zeta.
  destruct (start_call_admitted u now now' None w Hidle Hroom) as (Hnone & _).
  destruct (start_call_admitted u now now' (Some e) w Hidle Hroom)
    as (Hsome & Hq & Ha & Ht & Hf & _).
  cbn zeta in *.
  set (t := {| speaker := u; processingKey := key_of u now;
               filename := file_of u now' |}) in *.
  set (r := start_call u now now' (Some e) w) in *.
  assert (Hact : id u ∈ activeUsers r.2) by (rewrite Ha; set_solver).
  assert (Hrun : id u ∈ activeUsers (run es r.2)).
  { clearbody r. clear -Hact Hes. generalize dependent (r.2).
    induction Hes as [|ev es Hev _ IH]; intros w0 Hact; [done|].
    change (run (ev :: es) w0) with (run es (step w0 ev)).
    apply IH. by apply step_keeps_active. }
  split; [done|]. split; [done|].
  split; [rewrite Hq; set_solver|]. split; [done|].
  split; [rewrite Ht; set_solver|]. split; [done|].
  split; [intros (Hout & _); apply Hout; rewrite Hq; set_solver|].
  split.
  { destruct (timeout_frame (processingKey t) r.2) as (_ & _ & _ & _ & ->).
    rewrite bool_decide_eq_true_2 by (rewrite Ht; set_solver). set_solver. }
  split; [done|]. split.
  { unfold setupUserAudioCapture. by rewrite bool_decide_eq_true_2. }
  intros c settled w1 w2.
  destruct (finally_releases t c settled w1 w2) as (Hc & _ & Hs). done.
Qed.

(** Three runs of one task: rejected by the gate, failed capture, and
    accepted then transcribed. *)
Definition ann : user := {| id := "42"; username := "ann" |}.
Definition ann_task : task :=
  {| speaker := ann; processingKey := "42-1000";
     filename := "./audio_recordings/42-1000.pcm" |}.
(** Half a second of a loud tone: 48000 samples of value 32639. *)
Definition loud : list byte := tone x7f 48000.

Lemma after_capture_loud (t : task) (w : world) :
  after_capture t (Capture (Some loud) None) w =
    (Suspended,
     set_console (λ c, ((c ++ [LogAudio]) ++ [LogEnergy]) ++ [LogTranscribing])
       (set_files (λ fs, <[filename t := loud]> fs) w)).
Proof. unfold loud. by rewrite after_capture_tone by lia. Qed.

Definition admitted_world : world := (setupUserAudioCapture ann 1000 1000 initial).2.

Example finally_releases_ann :
  (after_capture ann_task (Capture (Some [x00; x00]) None) admitted_world).1
    = Terminated ∧
  (after_capture ann_task
     (Capture None (Some (Js.Exn (Some "ERR_STREAM_PREMATURE_CLOSE"%string) None)))
     admitted_world).1 = Terminated ∧
  (after_capture ann_task (Capture (Some loud) None) admitted_world).1
    = Suspended ∧
  released ann_task
    (after_capture ann_task (Capture (Some [x00; x00]) None) admitted_world).2 ∧
  released ann_task
    (after_transcribe ann_task (inl "touchdown"%string)
       (after_capture ann_task (Capture (Some loud) None) admitted_world).2).
Proof.
  split; [vm_compute; reflexivity|].
  split; [vm_compute; reflexivity|].
  split; [by rewrite after_capture_loud|].
  split.
  - apply (proj1 (finally_releases ann_task (Capture (Some [x00; x00]) None)
             (inl ""%string) admitted_world admitted_world)).
    vm_compute; reflexivity.
  - apply (proj2 (proj2 (finally_releases ann_task (Capture (Some loud) None)
             (inl "touchdown"%string) admitted_world
             (after_capture ann_task (Capture (Some loud) None) admitted_world).2))).
Qed.

(** No Opus library is installed: [new prism.opus.Decoder] throws. *)
Definition no_opus : Js.exn :=
  Js.Exn None (Some "Could not find an Opus module"%string).

Lemma setup_throw_skips_cleanup_witness :
  ((start_call ann 1000 1000 (Some no_opus) initial).1
   = Rejected ann_task no_opus) ∧
  ("42-1000"%string ∈ processingQueue (start_call ann 1000 1000 (Some no_opus) initial).2) ∧
  ("42"%string ∈ activeUsers (start_call ann 1000 1000 (Some no_opus) initial).2) ∧
  setupUserAudioCapture ann 20000 20000
    (run [TimerFires "42-1000"] (start_call ann 1000 1000 (Some no_opus) initial).2)
  = (None,
     run [TimerFires "42-1000"] (start_call ann 1000 1000 (Some no_opus) initial).2).
Proof.
  assert (Hidle : id ann ∉ activeUsers initial) by (vm_compute; discriminate).
  assert (Hroom : (size (processingQueue initial) < MAX_CONCURRENT)%nat)
    by (vm_compute; lia).
  assert (Hes : Forall (λ ev, ¬ settles_for ann ev) [TimerFires "42-1000"])
    by (repeat constructor; cbn; tauto).
  destruct (setup_throw_skips_cleanup ann 1000 1000 20000 20000 no_opus
              [TimerFires "42-1000"] initial Hidle Hroom Hes)
    as (_ & Hrej & Hkey & Huser & _ & _ & _ & _ & _ & Hblocked & _).
  split; [exact Hrej|]. split; [exact Hkey|]. split; [exact Huser|].
  exact Hblocked.
Defined.


(** The world in which ann's task was admitted, timed out, and then
    captured a loud segment that passed the gate. *)
Definition stale_world : world :=
  run [SpeakerStart ann 1000 1000; TimerFires "42-1000";
       CaptureSettles ann_task (Capture (Some loud) None)] initial.

Lemma stale_world_eq :
  stale_world =
    set_console (λ c, ((c ++ [LogAudio]) ++ [LogEnergy]) ++ [LogTranscribing])
      (set_files (λ fs, <[filename ann_task := loud]> fs)
         (timeout "42-1000" admitted_world)).
Proof.
  change stale_world
    with (after_capture ann_task (Capture (Some loud) None)
            (timeout "42-1000" admitted_world)).2.
  by rewrite after_capture_loud.
Qed.


(** The run behind [stale_world]: the task admitted first is the one the
    timer reclaims, and the transcription that settles afterwards reaches
    [onTranscription]. *)
Lemma stale_run :
  (setupUserAudioCapture ann 1000 1000 initial).1 = Some ann_task ∧
  ("42-1000"%string ∈ processingQueue (run [SpeakerStart ann 1000 1000] initial)) ∧
  ("42-1000"%string ∉ processingQueue stale_world) ∧
  delivered stale_world = [] ∧
  delivered (run [SpeakerStart ann 1000 1000; TimerFires "42-1000";
                  CaptureSettles ann_task (Capture (Some loud) None);
                  TranscriptionSettles ann_task (inl "touchdown"%string)] initial)
  = [("42", "ann", "touchdown")]%string.
Proof.
  split; [vm_compute; reflexivity|].
  split; [vm_compute; reflexivity|].
  split; [rewrite stale_world_eq; vm_compute; discriminate|].
  split; [rewrite stale_world_eq; vm_compute; reflexivity|].
  change (run _ initial)
    with (after_transcribe ann_task (inl "touchdown"%string) stale_world).
  rewrite stale_world_eq. vm_compute. reflexivity.
Qed.


End SchedulerProperties.

(** ** The concurrency ceiling *)

Section Ceiling.
Import Scheduler.

Definition admitted (rs : list (option task)) : nat :=
  length (filter (λ r, is_Some r) rs).
Definition rejected (rs : list (option task)) : nat :=
  length (filter (λ r, r = None) rs).

Lemma rejected_when_full (u : user) (now now' : N) (w : world) :
  (MAX_CONCURRENT ≤ size (processingQueue w))%nat →
  (setupUserAudioCapture u now now' w).1 = None ∧
  processingQueue (setupUserAudioCapture u now now' w).2 = processingQueue w ∧
  activeUsers (setupUserAudioCapture u now now' w).2 = activeUsers w.
Proof.
  intros Hfull. unfold setupUserAudioCapture. case_bool_decide; [done|].
  rewrite bool_decide_eq_true_2 by done. done.
Qed.

Lemma setup_queue_bound (u : user) (now now' : N) (w : world) :
  (size (processingQueue w) ≤ MAX_CONCURRENT)%nat →
  (size (processingQueue (setupUserAudioCapture u now now' w).2) ≤ MAX_CONCURRENT)%nat.
Proof.
  intros Hle. unfold setupUserAudioCapture. repeat case_bool_decide; cbn; try done.
  rewrite size_union_alt.
  assert (size ({[key_of u now]} ∖ processingQueue w : gset string) ≤ 1)%nat.
  { transitivity (size ({[key_of u now]} : gset string));
      [apply subseteq_size; set_solver | by rewrite size_singleton]. }
  lia.
Qed.

Lemma step_queue_bound (w : world) (e : event) :
  (size (processingQueue w) ≤ MAX_CONCURRENT)%nat →
  (size (processingQueue (step w e)) ≤ MAX_CONCURRENT)%nat.
Proof.
  intros Hle. destruct e as [u now now'|key|t c|t settled]; cbn.
  - by apply setup_queue_bound.
  - unfold timeout. repeat case_bool_decide; cbn; try done.
    etransitivity; [apply subseteq_size|done]. set_solver.
  - pose proof (after_capture_spec t c w) as H. cbn zeta in H.
    destruct (after_capture t c w).1.
    + destruct H as ((-> & _) & _). done.
    + destruct H as (-> & _).
      etransitivity; [apply subseteq_size|done]. set_solver.
  - destruct (after_transcribe_spec t settled w) as (-> & _).
    etransitivity; [apply subseteq_size|done]. set_solver.
Qed.

Lemma run_queue_bound (es : list event) (w : world) :
  (size (processingQueue w) ≤ MAX_CONCURRENT)%nat →
  (size (processingQueue (run es w)) ≤ MAX_CONCURRENT)%nat.
Proof.
  revert w. induction es as [|e es IH]; intros w Hle; [done|].
  cbn. apply IH. by apply step_queue_bound.
Qed.

(** During a burst, every key in the queue belongs to a speaker already
    seen in the burst. *)
Lemma burst_counts (us : list (user * N * N)) (w : world) (seen : gset string) :
  NoDup (id <$> us.*1.*1) →
  (∀ k, k ∈ processingQueue w → ∃ u now, id u ∈ seen ∧ k = key_of u now) →
  (∀ u, u ∈ us.*1.*1 → (id u ∉ seen) ∧ (id u ∉ activeUsers w)) →
  (size (processingQueue w) ≤ MAX_CONCURRENT)%nat →
  admitted (burst us w).1
  = (length us `min` (MAX_CONCURRENT - size (processingQueue w)))%nat.
Proof.
  revert w seen. induction us as [|[[u now] now'] us IH];
    intros w seen Hnd Hkeys Hfresh Hle; [done|].
  rewrite !fmap_cons in Hnd. cbn in Hnd. apply NoDup_cons in Hnd as [Hu Hnd].
  destruct (Hfresh u) as [Hseen Hact]; [rewrite !fmap_cons; cbn; left|].
  cbn [burst].
  destruct (setupUserAudioCapture u now now' w) as [r w1] eqn:Ead.
  destruct (burst us w1) as [rs w2] eqn:Erest.
  unfold setupUserAudioCapture in Ead. rewrite bool_decide_eq_false_2 in Ead by done.
  case_bool_decide as Hfull; simplify_eq.
  - (* queue full: rejected, and so is the rest of the burst *)
    specialize (IH (set_console (λ c, c ++ [LogQueueFull]) w) seen Hnd).
    rewrite Erest in IH. cbn [fst snd] in *. unfold admitted in *.
    rewrite filter_cons_False by (by intros [? ?]).
    rewrite IH; [|done| |done].
    { change (processingQueue (set_console _ w)) with (processingQueue w).
      cbn [length]. lia. }
    intros u' Hu'. apply Hfresh. rewrite !fmap_cons. cbn. by right.
  - (* admitted: the key is new, the queue grows by one *)
    assert (Hnew : key_of u now ∉ processingQueue w).
    { intros Hin. destruct (Hkeys _ Hin) as (u' & now'' & Hs & E).
      apply key_of_inj in E as [E _]. congruence. }
    match type of Erest with burst us ?w' = _ =>
      set (w1 := w') in *;
      assert (Hq1 : processingQueue w1 = processingQueue w ∪ {[key_of u now]})
        by reflexivity;
      assert (Ha1 : activeUsers w1 = activeUsers w ∪ {[id u]}) by reflexivity;
      clearbody w1;
      specialize (IH w1 (seen ∪ {[id u]}) Hnd) end.
    rewrite Erest in IH. cbn [fst snd] in *. unfold admitted in *.
    rewrite filter_cons_True by done. cbn [length]. rewrite IH, ?Hq1, ?Ha1.
    + rewrite size_union, size_singleton by set_solver. lia.
    + intros k Hk. rewrite Hq1 in Hk. apply elem_of_union in Hk as [Hk|Hk].
      * destruct (Hkeys k Hk) as (u' & n & ? & ?). exists u', n. set_solver.
      * apply elem_of_singleton in Hk. exists u, now. set_solver.
    + intros u' Hu'. 
      assert (id u' ≠ id u).
      { intros E. apply Hu. rewrite <- E. rewrite <- !list_fmap_compose.
        rewrite <- list_fmap_compose in Hu'.
        apply list_elem_of_fmap in Hu' as (x & -> & Hx).
        apply list_elem_of_fmap. by exists x. }
      destruct (Hfresh u') as [? ?]; [rewrite !fmap_cons; cbn; by right|].
      rewrite Ha1. set_solver.
    + rewrite Hq1, size_union, size_singleton by set_solver. lia.
Qed.

Lemma admitted_rejected (rs : list (option task)) :
  (admitted rs + rejected rs = length rs)%nat.
Proof.
  unfold admitted, rejected. induction rs as [|[t|] rs IH]; [done| |].
  - rewrite filter_cons_True by done.
    rewrite (filter_cons_False (λ r, r = None)) by done. cbn. lia.
  - rewrite filter_cons_False by (by intros [? ?]).
    rewrite (filter_cons_True (λ r, r = None)) by done. cbn. lia.
Qed.

Lemma burst_length (us : list (user * N * N)) (w : world) :
  length (burst us w).1 = length us.
Proof.
  revert w. induction us as [|[[u now] now'] us IH]; intros w; [done|].
  cbn. destruct (setupUserAudioCapture u now now' w) as [r w1].
  specialize (IH w1). destruct (burst us w1). cbn in *. by rewrite IH.
Qed.

(** C2. Admission is rejected once the in-flight set holds
    [MAX_CONCURRENT] keys, whoever the speaker; the in-flight set never
    holds more than [MAX_CONCURRENT] keys, after any sequence of
    speaker-start events, timer callbacks and settled captures and
    transcriptions; and a burst of [n > MAX_CONCURRENT] speaker-start
    events from distinct speakers, none of them in flight and the in-flight
    set empty, admits exactly [MAX_CONCURRENT] of them and rejects the
    others. *)
Theorem admission_respects_ceiling
    (us : list (user * N * N)) (w : world) (es : list event) :
  NoDup (id <$> us.*1.*1) →
  processingQueue w = ∅ →
  (∀ u, u ∈ us.*1.*1 → (id u ∉ activeUsers w)) →
  (MAX_CONCURRENT < length us)%nat →
  (∀ u now now' w',
     (MAX_CONCURRENT ≤ size (processingQueue w'))%nat →
     (setupUserAudioCapture u now now' w').1 = None ∧
     processingQueue (setupUserAudioCapture u now now' w').2 = processingQueue w') ∧
  (size (processingQueue (run es initial)) ≤ MAX_CONCURRENT)%nat ∧
  (size (processingQueue (burst us w).2) ≤ MAX_CONCURRENT)%nat ∧
  admitted (burst us w).1 = MAX_CONCURRENT ∧
  rejected (burst us w).1 = (length us - MAX_CONCURRENT)%nat.
Proof.
  intros Hnd Hempty Hfresh Hn.
  assert (Hadm : admitted (burst us w).1 = MAX_CONCURRENT).
  { rewrite (burst_counts us w ∅); try done.
    - rewrite Hempty, size_empty. lia.
    - intros k. rewrite Hempty. set_solver.
    - intros u Hu. split; [set_solver | by apply Hfresh].
    - rewrite Hempty, size_empty. lia. }
  split; [|split; [|split; [|split]]]; try done.
  - intros u now now' w' Hfull.
    destruct (rejected_when_full u now now' w' Hfull) as (? & ? & ?). done.
  - apply run_queue_bound. cbn. rewrite size_empty. lia.
  - clear Hadm Hnd Hfresh Hn. assert (Hle : (size (processingQueue w) ≤ MAX_CONCURRENT)%nat)
      by (rewrite Hempty, size_empty; lia).
    clear Hempty. revert w Hle.
    induction us as [|[[u now] now'] us IH]; intros w Hle; [done|].
    cbn. pose proof (setup_queue_bound u now now' w Hle) as H1.
    destruct (setupUserAudioCapture u now now' w) as [r w1]. specialize (IH w1 H1).
    destruct (burst us w1). done.
  - pose proof (admitted_rejected (burst us w).1) as H.
    rewrite burst_length in H. lia.
Qed.

(** Six speakers start talking in the same millisecond. *)
Definition six_speakers : list (user * N * N) :=
  (λ i, ({| id := i; username := "user" |}, 1000%N, 1000%N))
    <$> ["1"; "2"; "3"; "4"; "5"; "6"]%string.

Lemma admission_respects_ceiling_witness :
  admitted (burst six_speakers initial).1 = 5%nat ∧
  rejected (burst six_speakers initial).1 = 1%nat ∧
  (burst six_speakers initial).1 !! 5%nat = Some None.
Proof.
  assert (H1 : NoDup (id <$> six_speakers.*1.*1))
    by (apply (bool_decide_unpack _); vm_compute; exact I).
  assert (H2 : processingQueue initial = ∅) by reflexivity.
  assert (H3 : ∀ u, u ∈ six_speakers.*1.*1 → id u ∉ activeUsers initial)
    by (intros u _; apply not_elem_of_empty).
  assert (H4 : (MAX_CONCURRENT < length six_speakers)%nat) by (vm_compute; lia).
  destruct (admission_respects_ceiling six_speakers initial [] H1 H2 H3 H4)
    as (_ & _ & _ & Ha & Hr).
  split; [exact Ha|]. split; [exact Hr|]. vm_compute. reflexivity.
Defined.

End Ceiling.


(** ** Serialization of the recognition calls *)

Section Serialization.
Import Lock.
Variable recognize : string → string.

Definition recs (rs : list reaction) : list (string * nat) :=
  omap (λ r, match r with
             | RunRecognize f q => Some (f, q)
             | ResumeTranscribe _ => None
             end) rs.

(** The recognition jobs waiting in the microtask queue. *)
Definition jobs (ms : list (reaction * string)) : list (string * nat) :=
  recs ms.*1.

#[local] Arguments recs : simpl never.
#[local] Arguments jobs : simpl never.

(** The promises of the lock chain that are still pending, from the one
    the running job will fulfil to the one held in [transcriptionLock]:
    each carries the recognition job of the next. *)
Inductive linked (ps : list promise) : nat → list string → nat → Prop :=
| linked_last q rs :
    ps !! q = Some (Pending rs) → recs rs = [] → linked ps q [] q
| linked_next q rs f q' fs last :
    ps !! q = Some (Pending rs) → recs rs = [(f, q')] → (q < q')%nat →
    linked ps q' fs last → linked ps q (f :: fs) last.

Definition pairs (fs : list string) : list probe :=
  fs ≫= λ f, [Enter f; Exit f].

(** The state of the loop when the calls [finished] have run and the
    calls [waiting] are chained behind them: the trace is the calls
    finished, one after the other; an idle lock is a fulfilled promise; a
    busy lock has exactly one recognition job queued, for the first
    waiting call, and the others hang on the pending promises. *)
Definition invw (st : loop) (finished waiting : list string) : Prop :=
  trace st = pairs finished ∧
  match waiting with
  | [] => jobs (microtasks st) = [] ∧
          ∃ v, promises st !! transcriptionLock st = Some (Fulfilled v)
  | f :: fs => ∃ q, jobs (microtasks st) = [(f, q)] ∧
                    linked (promises st) q fs (transcriptionLock st)
  end.

Definition inv (st : loop) (all : list string) : Prop :=
  ∃ finished waiting, all = finished ++ waiting ∧ invw st finished waiting.

Lemma recs_app (rs rs' : list reaction) : recs (rs ++ rs') = recs rs ++ recs rs'.
Proof. apply omap_app. Qed.

Lemma jobs_app (ms ms' : list (reaction * string)) :
  jobs (ms ++ ms') = jobs ms ++ jobs ms'.
Proof. unfold jobs. by rewrite fmap_app, recs_app. Qed.

Lemma jobs_settled (rs : list reaction) (v : string) :
  jobs ((λ r, (r, v)) <$> rs) = recs rs.
Proof.
  unfold jobs, recs. induction rs as [|r rs IH]; [done|].
  cbn. destruct r; cbn; by rewrite IH.
Qed.

Lemma linked_end (ps : list promise) (q : nat) (fs : list string) (last : nat) :
  linked ps q fs last →
  (q ≤ last)%nat ∧ ∃ rs, ps !! last = Some (Pending rs) ∧ recs rs = [].
Proof.
  induction 1 as [q rs Hq Hrs | q rs f q' fs last Hq Hrs Hlt _ [IH1 IH2]].
  - split; [lia|]. by exists rs.
  - split; [lia | done].
Qed.

Lemma linked_insert_below (ps : list promise) (q : nat) (fs : list string)
    (last p : nat) (x : promise) :
  linked ps q fs last → (p < q)%nat → linked (<[p := x]> ps) q fs last.
Proof.
  induction 1 as [q rs Hq Hrs | q rs f q' fs last Hq Hrs Hlt _ IH]; intros Hp.
  - eapply linked_last; [|done]. rewrite list_lookup_insert_ne by lia. done.
  - eapply linked_next; [|done|done|apply IH; lia].
    rewrite list_lookup_insert_ne by lia. done.
Qed.

(** Chaining one more call at the end of a busy chain. *)
Lemma linked_extend (ps : list promise) (q : nat) (fs : list string)
    (last : nat) (f : string) (rs' : list reaction) :
  linked ps q fs last →
  recs rs' = [] →
  ∀ rs, ps !! last = Some (Pending rs) →
  linked (<[length ps := Pending rs']>
            (<[last := Pending (rs ++ [RunRecognize f (length ps)])]>
               (ps ++ [Pending []])))
         q (fs ++ [f]) (length ps).
Proof.
  intros Hl Hrs'.
  induction Hl as [q rs0 Hq Hrs | q rs0 f0 q' fs last Hq Hrs Hlt Hl IH];
    intros rs Hlast.
  - assert (q < length ps)%nat by (by eapply lookup_lt_Some).
    simplify_eq. cbn. eapply linked_next.
    + rewrite list_lookup_insert_ne by lia.
      rewrite list_lookup_insert_eq by (rewrite length_app; cbn; lia). done.
    + rewrite recs_app, Hrs. done.
    + done.
    + eapply linked_last.
      * rewrite list_lookup_insert_eq; [done|].
        rewrite length_insert, length_app. cbn. lia.
      * exact Hrs'.
  - assert (q < length ps)%nat by (by eapply lookup_lt_Some).
    destruct (linked_end _ _ _ _ Hl) as [Hle _].
    cbn. eapply linked_next; [|exact Hrs|done|by apply IH].
    rewrite !list_lookup_insert_ne by lia.
    rewrite lookup_app_l by done. done.
Qed.

Lemma inv_initial : inv initial [].
Proof. exists [], []. unfold invw. cbn. eauto. Qed.

Lemma inv_chain (st : loop) (all : list string) (f : string) :
  inv st all → inv (chain f st) (all ++ [f]).
Proof.
  intros (finished & waiting & -> & Htr & Hw).
  exists finished, (waiting ++ [f]). split; [by rewrite app_assoc|].
  unfold invw, chain, then_recognize, register. cbn.
  destruct waiting as [|f0 fs].
  - destruct Hw as [Hjobs [v Hv]].
    assert (transcriptionLock st < length (promises st))%nat
      by (by eapply lookup_lt_Some).
    rewrite lookup_app_l, Hv by done. cbn.
    rewrite list_lookup_middle by done. cbn.
    split; [done|]. exists (length (promises st)). split.
    + rewrite jobs_app, Hjobs. done.
    + eapply linked_last.
      * rewrite list_lookup_insert_eq; [done|]. rewrite length_app. cbn. lia.
      * done.
  - destruct Hw as (q & Hjobs & Hl).
    destruct (linked_end _ _ _ _ Hl) as (Hle & rs & Hlast & Hrs).
    assert (transcriptionLock st < length (promises st))%nat
      by (by eapply lookup_lt_Some).
    rewrite lookup_app_l, Hlast by done. cbn.
    rewrite list_lookup_insert_ne by lia.
    rewrite list_lookup_middle by done. cbn.
    split; [done|]. exists q. split; [done|].
    by apply linked_extend.
Qed.

Lemma pairs_snoc (fs : list string) (f : string) :
  pairs (fs ++ [f]) = pairs fs ++ [Enter f; Exit f].
Proof. unfold pairs. rewrite bind_app. cbn. done. Qed.

(** One turn of the queue: a recognition job at the head is the first
    waiting call, and running it moves that call to the finished ones; any
    other head leaves the chain as it is. *)
Lemma tick_cases (st : loop) (finished waiting : list string) :
  invw st finished waiting →
  match microtasks st with
  | (RunRecognize file _, _) :: _ =>
      ∃ fs, waiting = file :: fs ∧
            invw (tick recognize st) (finished ++ [file]) fs
  | _ => invw (tick recognize st) finished waiting ∧
         microtasks (tick recognize st) = tail (microtasks st)
  end.
Proof.
  intros (Htr & Hw). unfold tick.
  destruct (microtasks st) as [|[[file q|file] v] rest] eqn:Hms.
  - split; [|done]. split; [done|]. by rewrite Hms.
  - destruct waiting as [|f fs]; [by destruct Hw|].
    destruct Hw as (q0 & Hjobs & Hl).
    change (jobs ((RunRecognize file q, v) :: rest))
      with ((file, q) :: jobs rest) in Hjobs.
    injection Hjobs as -> -> Hrest.
    exists fs. split; [done|].
    unfold invw, fulfil. cbn.
    inversion Hl as [q' rs Hq Hrs | q' rs f' q'' fs' last Hq Hrs Hlt Hl']; subst.
    + rewrite Hq. cbn. split; [by rewrite Htr, pairs_snoc|].
      split; [by rewrite jobs_app, jobs_settled, Hrest, Hrs|].
      exists (recognize f). rewrite list_lookup_insert_eq; [done|].
      by eapply lookup_lt_Some.
    + rewrite Hq. cbn. split; [by rewrite Htr, pairs_snoc|].
      exists q''. split; [by rewrite jobs_app, jobs_settled, Hrest, Hrs|].
      by apply linked_insert_below.
  - split; [|done]. split; [done|]. cbn. destruct waiting; exact Hw.
Qed.

Lemma inv_tick (st : loop) (all : list string) :
  inv st all → inv (tick recognize st) all.
Proof.
  intros (finished & waiting & -> & Hw).
  pose proof (tick_cases st finished waiting Hw) as H.
  destruct (microtasks st) as [|[[file q|file] v] rest].
  - exists finished, waiting. by destruct H.
  - destruct H as (fs & -> & H). exists (finished ++ [file]), fs.
    split; [by rewrite <- app_assoc | done].
  - exists finished, waiting. by destruct H.
Qed.

Lemma inv_run (acts : list action) (st : loop) (all : list string) :
  inv st all → inv (run recognize acts st) (all ++ chained acts).
Proof.
  revert st all. induction acts as [|[f|] acts IH]; intros st all Hinv.
  - cbn. by rewrite app_nil_r.
  - change (chained (Chain f :: acts)) with (f :: chained acts).
    change (run recognize (Chain f :: acts) st)
      with (run recognize acts (chain f st)).
    replace (all ++ f :: chained acts) with ((all ++ [f]) ++ chained acts)
      by (by rewrite <- app_assoc).
    apply IH. by apply inv_chain.
  - change (chained (Tick :: acts)) with (chained acts).
    change (run recognize (Tick :: acts) st)
      with (run recognize acts (tick recognize st)).
    apply IH. by apply inv_tick.
Qed.

(** *** Consequences for the trace *)

Lemma entered_pairs (fs : list string) : entered (pairs fs) = fs.
Proof.
  induction fs as [|f fs IH]; [done|].
  change (entered (pairs (f :: fs))) with (f :: entered (pairs fs)).
  by rewrite IH.
Qed.

Lemma counter_pairs (fs : list string) : counter (pairs fs) 0 = Some 0%nat.
Proof. induction fs as [|f fs IH]; [done|]. exact IH. Qed.

Lemma counter_range (tr : list probe) (c c' : nat) :
  counter tr c = Some c' → (c ≤ 1)%nat → (c' ≤ 1)%nat.
Proof.
  revert c. induction tr as [|[f|f] tr IH]; intros c H Hc; cbn in H.
  - by simplify_eq.
  - case_decide; [|done]. eapply IH; [done | lia].
  - case_decide; [|done]. eapply IH; [done | lia].
Qed.

Lemma counter_prefix (tr1 tr2 : list probe) (c c' : nat) :
  counter (tr1 ++ tr2) c = Some c' → ∃ c1, counter tr1 c = Some c1.
Proof.
  revert c. induction tr1 as [|[f|f] tr1 IH]; intros c H; cbn in *.
  - by exists c.
  - case_decide; [|done]. by apply IH.
  - case_decide; [|done]. by apply IH.
Qed.

(** *** Every chained call runs *)

Definition ticks (n : nat) (st : loop) : loop :=
  run recognize (repeat Tick n) st.

Lemma ticks_S (n : nat) (st : loop) :
  ticks (S n) st = ticks n (tick recognize st).
Proof. reflexivity. Qed.

Lemma run_app (a b : list action) (st : loop) :
  run recognize (a ++ b) st = run recognize b (run recognize a st).
Proof. apply fold_left_app. Qed.

Lemma progress (k : nat) (st : loop) (finished : list string)
    (f : string) (fs : list string) :
  (length (microtasks st) ≤ k)%nat →
  invw st finished (f :: fs) →
  ∃ n, invw (ticks n st) (finished ++ [f]) fs.
Proof.
  revert st. induction k as [|k IH]; intros st Hlen Hw.
  - destruct Hw as (_ & q & Hjobs & _).
    destruct (microtasks st); [done | cbn in Hlen; lia].
  - pose proof (tick_cases st finished (f :: fs) Hw) as H.
    destruct (microtasks st) as [|[[file q|file] v] rest] eqn:Hms.
    + destruct Hw as (_ & q & Hjobs & _). by rewrite Hms in Hjobs.
    + destruct H as (fs' & E & H). simplify_eq. by exists 1%nat.
    + destruct H as [H Hrest]. cbn in Hrest, Hlen.
      destruct (IH (tick recognize st)) as [n Hn]; [rewrite Hrest; lia | done|].
      exists (S n). by rewrite ticks_S.
Qed.

Lemma drain (waiting : list string) (st : loop) (finished : list string) :
  invw st finished waiting →
  ∃ n, invw (ticks n st) (finished ++ waiting) [].
Proof.
  revert st finished. induction waiting as [|f fs IH]; intros st finished Hw.
  - exists 0%nat. by rewrite app_nil_r.
  - destruct (progress _ st finished f fs (le_n _) Hw) as [n Hn].
    destruct (IH _ _ Hn) as [m Hm]. exists (n + m)%nat.
    unfold ticks in *. rewrite repeat_app, run_app.
    by rewrite <- app_assoc in Hm.
Qed.

(** C1. For every interleaving of calls reaching the chaining point of
    [transcribeAudio] and of turns of the microtask queue: the reentrancy
    counter of [recognizeAudio] stays within 0..1 along the whole trace, so
    no two recognition calls overlap; the trace is the calls begun so far,
    each one entered and left before the next is entered; these calls are
    a prefix of the calls chained, in the order of chaining (first in, first
    out); and the queue left to run executes every chained call, in that
    order. *)
Theorem recognition_is_serialized (acts : list action) :
  let st := run recognize acts initial in
  (∀ tr1 tr2, trace st = tr1 ++ tr2 →
     ∃ c, counter tr1 0 = Some c ∧ (c ≤ 1)%nat) ∧
  trace st = pairs (entered (trace st)) ∧
  entered (trace st) `prefix_of` chained acts ∧
  ∃ n, entered (trace (run recognize (acts ++ repeat Tick n) initial))
       = chained acts.
Proof.
  intros st.
  destruct (inv_run acts initial [] inv_initial) as (finished & waiting & E & Hw).
  fold st in Hw. cbn in E. pose proof Hw as [Htr _].
  split; [|split; [|split]].
  - intros tr1 tr2 Hsplit.
    pose proof (counter_pairs finished) as Hc. rewrite <- Htr, Hsplit in Hc.
    destruct (counter_prefix _ _ _ _ Hc) as [c1 Hc1].
    exists c1. split; [done|]. eapply counter_range; [done | lia].
  - by rewrite Htr, entered_pairs.
  - rewrite Htr, entered_pairs, E. by exists waiting.
  - destruct (drain waiting st finished Hw) as [n [Hn _]].
    exists n. rewrite run_app. fold st. unfold ticks in Hn.
    by rewrite Hn, entered_pairs, E.
Qed.

End Serialization.

(** Three segments are ready together; the queue then runs. *)
Example three_calls_in_order :
  Lock.trace
    (Lock.run (λ f, f) [Lock.Chain "a"; Lock.Chain "b"; Lock.Tick; Lock.Chain "c";
                        Lock.Tick; Lock.Tick; Lock.Tick; Lock.Tick; Lock.Tick]
       Lock.initial)
  = [Lock.Enter "a"; Lock.Exit "a"; Lock.Enter "b"; Lock.Exit "b";
     Lock.Enter "c"; Lock.Exit "c"]%string.
Proof. vm_compute. reflexivity. Qed.

(** ** Failure isolation of the recognition stage *)

Section RecognitionFacts.
Import Scheduler Recognition.
Variable parse_text : string → option string + Js.exn.

(** A computation that leaves the state alone and has no [return]. *)
Definition quiet {A} (m : M A) : Prop :=
  ∀ w, (m w).2 = w ∧ (m w).1 ≠ Return.

Lemma quiet_ret {A} (a : A) : quiet (mret a).
Proof. done. Qed.

Lemma quiet_throw {A} (e : Js.exn) : quiet (throw (A := A) e).
Proof. done. Qed.

Lemma quiet_bind {A B} (m : M A) (k : A → M B) :
  quiet m → (∀ a, quiet (k a)) → quiet (m ≫= k).
Proof.
  intros Hm Hk w. rewrite M_bind_eq. destruct (Hm w) as [Hw Hr].
  destruct (m w) as [[a| |e] w']; cbn in *; subst; [apply Hk|done|done].
Qed.

Lemma quiet_raise_if (e : option Js.exn) : quiet (raise_if e).
Proof. by destruct e. Qed.

Lemma quiet_readFileSync (path : string) : quiet (readFileSync path).
Proof. intros w. unfold readFileSync. by destruct (files w !! path). Qed.

Lemma quiet_feed (b : backend) (i : nat) (chunk : list byte) (t : string) :
  quiet (feed parse_text b i chunk t).
Proof.
  unfold feed. destruct (acceptWaveform b i chunk) as [e| |[e|s]]; try done.
  case_bool_decide; [|done]. by destruct (parse_text s) as [[text|]|e].
Qed.

Lemma quiet_feed_all (b : backend) (cs : list (list byte)) (i : nat) (t : string) :
  quiet (feed_all parse_text b i cs t).
Proof.
  revert i t. induction cs as [|c cs IH]; intros i t; [done|].
  apply quiet_bind; [apply quiet_feed | intros t'; apply IH].
Qed.

(** The [try] block of [recognizeAudio]. *)
Definition recognize_body (b : backend) (convertedFile : string) : M string :=
  raise_if (create b);;
  audioData ← readFileSync convertedFile;
  transcription ← feed_all parse_text b 0 (chunks (length audioData) audioData) "";
  transcription ←
    match finalResult b with
    | FinalThrows e => throw e
    | FinalObject (Some text) => mret (transcription +:+ text)
    | FinalObject None | FinalOther => mret transcription
    end;
  raise_if (free b);;
  mret (trim transcription).

Lemma quiet_recognize_body (b : backend) (f : string) : quiet (recognize_body b f).
Proof.
  unfold recognize_body.
  apply quiet_bind; [apply quiet_raise_if | intros _].
  apply quiet_bind; [apply quiet_readFileSync | intros data].
  apply quiet_bind; [apply quiet_feed_all | intros t].
  apply quiet_bind; [by destruct (finalResult b) as [e|[text|]|] | intros t'].
  apply quiet_bind; [apply quiet_raise_if | intros _]. done.
Qed.

(** [recognizeAudio] always returns a string and leaves the state alone:
    the text of the [try] block, or the empty string when the block
    throws. *)
Lemma recognizeAudio_total (b : backend) (f : string) (w : world) :
  recognizeAudio parse_text b f w =
    (Normal (match (recognize_body b f w).1 with
             | Normal text => text
             | _ => ""%string
             end), w).
Proof.
  unfold recognizeAudio, try_catch. fold (recognize_body b f).
  destruct (quiet_recognize_body b f w) as [Hw Hr].
  destruct (recognize_body b f w) as [[text| |e] w']; cbn in *; subst; try done.
  rewrite M_bind_eq. destruct (create b); [done|].
  unfold swallow. by destruct (free b).
Qed.

Definition heard (b : backend) (f : string) (w : world) : string :=
  match (recognize_body b f w).1 with
  | Normal text => text
  | _ => ""%string
  end.

(** [recognize] always returns that string, and the converted file is
    gone when it returns. *)
Lemma recognize_total (b : backend) (f : string) (w : world) :
  ∃ w', recognize parse_text b f w = (Normal (heard b f w), w') ∧
        files w' = delete f (files w) ∧
        same_accounts w w' ∧ delivered w' = delivered w.
Proof.
  unfold recognize, try_catch. rewrite M_bind_eq, recognizeAudio_total.
  fold (heard b f w). rewrite M_bind_eq. unfold swallow, unlinkSync.
  destruct (files w !! f) eqn:Hf; cbn.
  - eexists. split; [reflexivity|]. done.
  - exists w. split; [reflexivity|]. by rewrite delete_id.
Qed.

#[local] Arguments recognize : simpl never.

(** A throw in the executor of [convertAudio] rejects its promise, and
    with it the call of [transcribeAudio], which awaits it outside any
    [try]; nothing has been written or recognized by then. *)
Lemma transcribeAudio_rejects (b : backend) (e : Js.exn) (filename : string)
    (w : world) :
  convertAudio filename (SpawnThrows e) w = (Throw e, w) ∧
  transcribeAudio parse_text b (SpawnThrows e) filename w = (Throw e, w).
Proof. split; reflexivity. Qed.

(** Once the child is spawned, [transcribeAudio] returns a string; it is
    empty when [recognize] was not called; after a call of [recognize] the
    converted file is gone. *)
Lemma transcribeAudio_total (b : backend) (child : ffmpeg) (filename : string)
    (w : world) :
  ∃ called text w',
    transcribeAudio parse_text b (Spawned child) filename w
    = (Normal (called, text), w') ∧
    (called = false → text = ""%string) ∧
    (called = true →
       files w' !! convertedFile_of filename = None ∧
       text = heard b (convertedFile_of filename)
                (convertAudio filename (Spawned child) w).2) ∧
    (called = true ↔
       ∃ bytes, child = Closed 0 (Some bytes)
       ∨ (child = Closed 0 None ∧
          files w !! convertedFile_of filename = Some bytes)).
Proof.
  unfold transcribeAudio. rewrite M_bind_eq.
  destruct child as [err|code output]; cbn.
  { exists false, ""%string, w. split; [done|]. split; [done|]. split; [done|].
    split; [done|]. intros (bytes & [?|[? _]]); done. }
  destruct (decide (code ≠ 0)) as [Hcode|Hcode]; cbn.
  { eexists false, ""%string, _. split; [done|]. split; [done|]. split; [done|].
    split; [done|]. intros (bytes & [?|[? _]]); simplify_eq. }
  assert (code = 0) as -> by lia.
  unfold existsSync. rewrite M_bind_eq. cbn. rewrite M_bind_eq. cbn.
  case_bool_decide as Hpresent; cbn.
  - rewrite M_bind_eq.
    match goal with |- context [recognize parse_text b ?f ?w0] =>
      destruct (recognize_total b f w0) as (w' & -> & Hfiles & _) end.
    cbn. eexists true, _, w'. split; [done|]. split; [done|].
    split; [intros _; split; [by rewrite Hfiles, lookup_delete_eq|]|].
    { reflexivity. }
    split; [intros _|done].
    destruct output as [bytes|]; [exists bytes; by left|].
    destruct Hpresent as [bytes Hb]. exists bytes. by right.
  - eexists false, ""%string, _. split; [done|]. split; [done|]. split; [done|].
    split; [done|].
    intros (bytes & [?|[? Hb]]); simplify_eq; exfalso; apply Hpresent; cbn.
    + by rewrite lookup_insert_eq.
    + by rewrite Hb.
Qed.

(** The same call, by what the conversion left: [recognize] is called
    exactly when the child exited with code 0 and the converted file is
    there; if it is not called the world is the one the conversion left,
    and if it is, the text is the one [recognizeAudio] hears in the
    converted file, and that file is deleted. *)
Lemma transcribeAudio_spawned (b : backend) (child : ffmpeg) (filename : string)
    (w : world) :
  let converted := convertedFile_of filename in
  let w1 := (convertAudio filename (Spawned child) w).2 in
  ∃ called text w',
    transcribeAudio parse_text b (Spawned child) filename w
    = (Normal (called, text), w') ∧
    (called = true ↔
       ∃ output, child = Closed 0 output ∧ is_Some (files w1 !! converted)) ∧
    (called = false → text = ""%string ∧ w' = w1) ∧
    (called = true →
       text = heard b converted w1 ∧
       files w' = delete converted (files w1)).
Proof.
  cbn zeta. unfold transcribeAudio. rewrite M_bind_eq.
  destruct child as [err|code output]; cbn.
  { exists false, ""%string, w. split; [done|]. split; [|done].
    split; [done|]. by intros (output & ? & _). }
  destruct (decide (code ≠ 0)) as [Hcode|Hcode]; cbn.
  { eexists false, ""%string, _. split; [done|]. split; [|done].
    split; [done|]. intros (o & ? & _); simplify_eq. }
  assert (code = 0) as -> by lia.
  unfold existsSync. rewrite M_bind_eq. cbn. rewrite M_bind_eq. cbn.
  case_bool_decide as Hpresent; cbn.
  - rewrite M_bind_eq.
    match goal with |- context [recognize parse_text b ?f ?w0] =>
      destruct (recognize_total b f w0) as (w' & -> & Hfiles & _) end.
    cbn. eexists true, _, w'. split; [done|]. split; [|done].
    split; [intros _|done]. exists output. done.
  - eexists false, ""%string, _. split; [done|]. split; [|done].
    split; [done|]. intros (o & ? & Hsome); simplify_eq.
    destruct (Hpresent Hsome).
Qed.

(** *** When the recognized text is empty *)

(** The loop body throws on this chunk: the backend throws, or the
    result is a non-empty string that does not parse. *)
Definition feed_throws (b : backend) (i : nat) (chunk : list byte) : Prop :=
  match acceptWaveform b i chunk with
  | AcceptThrows _ | AcceptTrue (ResultThrows _) => True
  | AcceptTrue (ResultString s) =>
      s ≠ ""%string ∧ s ≠ "[object Object]"%string ∧ ∃ e, parse_text s = inr e
  | AcceptFalse => False
  end.

(** The chunk contributes no text. *)
Definition feed_silent (b : backend) (i : nat) (chunk : list byte) : Prop :=
  match acceptWaveform b i chunk with
  | AcceptFalse => True
  | AcceptTrue (ResultString s) =>
      s = ""%string ∨ s = "[object Object]"%string ∨ parse_text s = inl None
  | _ => False
  end.

(** The backend throws somewhere on this input ([None]: the converted
    file cannot be read). *)
Definition backend_throws (b : backend) (audioData : option (list byte)) : Prop :=
  is_Some (create b) ∨
  audioData = None ∨
  (∃ data i chunk, audioData = Some data ∧
     chunks (length data) data !! i = Some chunk ∧ feed_throws b i chunk) ∨
  (∃ e, finalResult b = FinalThrows e) ∨
  is_Some (free b).

(** The backend runs to the end and gives no text, or white space only. *)
Definition output_empty (b : backend) (data : list byte) : Prop :=
  (∀ i chunk, chunks (length data) data !! i = Some chunk → feed_silent b i chunk) ∧
  match finalResult b with
  | FinalObject (Some text) => blank text = true
  | FinalObject None | FinalOther => True
  | FinalThrows _ => False
  end.

Lemma feed_cases (b : backend) (i : nat) (chunk : list byte) (t : string) (w : world) :
  match (feed parse_text b i chunk t w).1 with
  | Throw _ => feed_throws b i chunk
  | Normal t' => ¬ feed_throws b i chunk ∧ (feed_silent b i chunk → t' = t)
  | Return => False
  end.
Proof.
  unfold feed, feed_throws, feed_silent.
  destruct (acceptWaveform b i chunk) as [e| |[e|s]]; try done.
  { split; [tauto | done]. }
  case_bool_decide as Hs; cbn.
  - destruct Hs as [Hs1 Hs2].
    destruct (parse_text s) as [[text|]|e] eqn:Hp; cbn.
    + split; [by intros (_ & _ & e & ?)|]. by intros [?|[?|?]].
    + split; [by intros (_ & _ & e & ?)|]. done.
    + eauto.
  - split; [|done]. intros (H1 & H2 & _). apply Hs. done.
Qed.

Lemma feed_all_cases (b : backend) (cs : list (list byte)) (i : nat)
    (t : string) (w : world) :
  match (feed_all parse_text b i cs t w).1 with
  | Throw _ => ∃ j chunk, cs !! j = Some chunk ∧ feed_throws b (i + j) chunk
  | Normal t' =>
      (∀ j chunk, cs !! j = Some chunk → ¬ feed_throws b (i + j) chunk) ∧
      ((∀ j chunk, cs !! j = Some chunk → feed_silent b (i + j) chunk) → t' = t)
  | Return => False
  end.
Proof.
  revert i t. induction cs as [|c cs IH]; intros i t.
  - cbn. split; [by intros j chunk|done].
  - cbn [feed_all]. rewrite M_bind_eq.
    pose proof (feed_cases b i c t w) as Hc.
    destruct (quiet_feed b i c t w) as [Hw _].
    destruct (feed parse_text b i c t w) as [[t1| |e] w1]; cbn in *; subst.
    + specialize (IH (S i) t1).
      destruct (feed_all parse_text b (S i) cs t1 w).1 as [t2| |e].
      * destruct Hc as [Hc1 Hc2]. destruct IH as [IH1 IH2]. split.
        -- intros [|j] chunk Hj; cbn in Hj; simplify_eq.
           ++ by rewrite Nat.add_0_r.
           ++ replace (i + S j)%nat with (S i + j)%nat by lia. by apply IH1.
        -- intros Hs. rewrite IH2.
           ++ apply Hc2. specialize (Hs 0%nat c eq_refl).
              by rewrite Nat.add_0_r in Hs.
           ++ intros j chunk Hj. specialize (Hs (S j) chunk Hj).
              by replace (i + S j)%nat with (S i + j)%nat in Hs by lia.
      * done.
      * destruct IH as (j & chunk & Hj & Hf). exists (S j), chunk.
        split; [done|]. by replace (i + S j)%nat with (S i + j)%nat by lia.
    + done.
    + exists 0%nat, c. split; [done|]. by rewrite Nat.add_0_r.
Qed.

Lemma trim_start_blank (s : string) :
  blank s = true → trim_start (list_ascii_of_string s) = [].
Proof.
  induction s as [|c s IH]; [done|]. cbn. intros [Hc Hs]%andb_true_iff.
  rewrite Hc. by apply IH.
Qed.

Lemma trim_blank (s : string) : blank s = true → trim s = ""%string.
Proof. intros H. unfold trim. by rewrite trim_start_blank. Qed.

(** Whenever the backend throws, and whenever its output is empty, the
    text of [recognizeAudio] is the empty string. *)
Lemma heard_empty (b : backend) (f : string) (w : world) :
  backend_throws b (files w !! f) ∨
  (∃ data, files w !! f = Some data ∧ output_empty b data) →
  heard b f w = ""%string.
Proof.
  intros H. unfold heard, recognize_body. rewrite M_bind_eq.
  destruct (create b) as [e|] eqn:Hcreate; cbn; [done|].
  rewrite M_bind_eq. unfold readFileSync.
  destruct (files w !! f) as [data|] eqn:Hdata; cbn; [|done].
  rewrite M_bind_eq.
  pose proof (feed_all_cases b (chunks (length data) data) 0 "" w) as Hfeed.
  destruct (quiet_feed_all b (chunks (length data) data) 0 "" w) as [Hw _].
  destruct (feed_all parse_text b 0 (chunks (length data) data) "" w)
    as [[t| |e] w1]; cbn in *; subst; try done.
  destruct Hfeed as [Hno Hsilent]. rewrite M_bind_eq.
  assert (Hempty : ∀ d, Some data = Some d → output_empty b d → t = ""%string).
  { intros d [= <-] [Hall _]. by apply Hsilent. }
  assert (Hthrows : backend_throws b (Some data) →
            (∃ e, finalResult b = FinalThrows e) ∨ is_Some (free b)).
  { intros [[? ?]|[?|[(d & i & chunk & ? & Hi & Hth)|[?|?]]]]; simplify_eq; auto.
    exfalso. by eapply Hno. }
  destruct (finalResult b) as [e|[text|]|] eqn:Hfinal; cbn; try done;
    rewrite M_bind_eq; destruct (free b) as [e|] eqn:Hfree; cbn; try done.
  all: destruct H as [H|(d & Hd & Hout)];
    [apply Hthrows in H as [[? ?]|[? ?]]; done|].
  all: rewrite (Hempty d Hd Hout); destruct Hout as [_ Hfin];
    rewrite Hfinal in Hfin; try done.
  by apply trim_blank.
Qed.

(** C7, as the code has it. [transcribeAudio] does propagate one
    exception: when [spawn], or the registration of a listener on the
    child, throws in the executor of [convertAudio], the promise of
    [convertAudio] is rejected and the [await] of line 275, which stands
    outside any [try], rejects the call with the same exception, the
    scratch directory being left as it was. For a child that was spawned
    the call returns a string: [recognize] is called exactly when the child
    exited with code 0 and the converted file exists; otherwise (spawn
    error event, non-zero exit code, no converted file) the string is empty
    and whatever the conversion wrote is left in place; after a call of
    [recognize] the string is the text heard in the converted file, empty
    whenever the backend throws (at creation, on a chunk, on a result that
    does not parse, at the final result or at [free]), or the converted file
    cannot be read, or the backend gives no text, and the converted file is
    deleted, whether recognition succeeded or failed. *)
Theorem spawn_throw_crosses_transcription
    (b : backend) (s : spawn) (filename : string) (w : world) :
  let converted := convertedFile_of filename in
  match s with
  | SpawnThrows e =>
      convertAudio filename s w = (Throw e, w) ∧
      transcribeAudio parse_text b s filename w = (Throw e, w)
  | Spawned child =>
      let w1 := (convertAudio filename s w).2 in
      ∃ called text w',
        transcribeAudio parse_text b s filename w = (Normal (called, text), w') ∧
        (called = true ↔
           ∃ output, child = Closed 0 output ∧ is_Some (files w1 !! converted)) ∧
        (called = false → text = ""%string ∧ w' = w1) ∧
        (called = true →
           text = heard b converted w1 ∧
           files w' = delete converted (files w1) ∧
           (backend_throws b (files w1 !! converted)
            ∨ (∃ data, files w1 !! converted = Some data ∧ output_empty b data) →
            text = ""%string))
  end.
Proof.
  cbn zeta. destruct s as [e|child].
  - apply transcribeAudio_rejects.
  - destruct (transcribeAudio_spawned b child filename w)
      as (called & text & w' & Hrun & Hiff & Hfalse & Htrue).
    exists called, text, w'. split; [done|]. split; [done|]. split; [done|].
    intros Hc. destruct (Htrue Hc) as [-> Hfiles].
    split; [done|]. split; [done|]. apply heard_empty.
Qed.

End RecognitionFacts.

(** A backend that hears one word in the first chunk, one that throws at
    the final result, a failed conversion, and a [spawn] that throws. *)
Definition one_word : Recognition.backend :=
  {| Recognition.create := None;
     Recognition.acceptWaveform := λ i _,
       if decide (i = 0%nat)
       then Recognition.AcceptTrue (Recognition.ResultString "{text:touchdown}")
       else Recognition.AcceptFalse;
     Recognition.finalResult := Recognition.FinalObject (Some ""%string);
     Recognition.free := None |}.

Definition parse_demo (s : string) : option string + Js.exn :=
  if decide (s = "{text:touchdown}"%string) then inl (Some "touchdown"%string)
  else inr (Js.Exn None (Some "Unexpected token"%string)).

Example transcription_of_one_word :
  (Recognition.transcribeAudio parse_demo one_word
     (Recognition.Spawned (Recognition.Closed 0 (Some [x01; x02; x03; x04])))
     "a.pcm" Scheduler.initial).1
  = Scheduler.Normal (true, "touchdown"%string).
Proof. vm_compute. reflexivity. Qed.

Example transcription_backend_throws :
  Recognition.transcribeAudio parse_demo
     {| Recognition.create := None;
        Recognition.acceptWaveform := λ _ _, Recognition.AcceptTrue
                                               (Recognition.ResultString "{text:");
        Recognition.finalResult := Recognition.FinalOther;
        Recognition.free := None |}
     (Recognition.Spawned (Recognition.Closed 0 (Some [x01; x02; x03; x04])))
     "a.pcm" Scheduler.initial
  = (Scheduler.Normal (true, ""%string), Scheduler.initial).
Proof. vm_compute. reflexivity. Qed.

Example transcription_conversion_fails :
  (Recognition.transcribeAudio parse_demo one_word
     (Recognition.Spawned (Recognition.Closed 1 None)) "a.pcm"
     Scheduler.initial).1
  = Scheduler.Normal (false, ""%string).
Proof. vm_compute. reflexivity. Qed.

(** [spawn] refuses an argument that holds a NUL character, here the
    file name, which is [args[7]]. *)
Definition nul_name : string := String "000"%char ".pcm".
Definition invalid_arg : Js.exn :=
  Js.Exn (Some "ERR_INVALID_ARG_VALUE"%string)
    (Some "The argument 'args[7]' must be a string without null bytes"%string).

Example transcription_spawn_throws :
  Recognition.transcribeAudio parse_demo one_word
    (Recognition.SpawnThrows invalid_arg) nul_name Scheduler.initial
  = (Scheduler.Throw invalid_arg, Scheduler.initial).
Proof. reflexivity. Qed.

(** ** Subscriptions and cooldowns *)

Section Subscriptions.
Import Scheduler Bot.

(** Every listener was registered under its key, and no key twice. *)
Definition subscribed (s : bot) : Prop :=
  NoDup (userKey <$> (listeners s).*2) ∧
  ∀ l, l ∈ listeners s → userKey l.2 ∈ monitoredUsers s.

Lemma subscribed_same (s s' : bot) :
  listeners s' = listeners s → monitoredUsers s' = monitoredUsers s →
  subscribed s → subscribed s'.
Proof. unfold subscribed. by intros -> ->. Qed.

Lemma monitorUser_subscribed (c : nat) (m : member) (s : bot) :
  subscribed s → subscribed (monitorUser c m s).
Proof.
  intros [Hnd Hin]. unfold monitorUser. case_bool_decide as Hk; [done|].
  split; cbn.
  - rewrite !fmap_app. cbn. apply NoDup_app. split; [done|]. split.
    + intros k Hk1 Hk2%list_elem_of_singleton. subst k. apply Hk.
      apply list_elem_of_fmap in Hk1 as (m' & -> & Hm').
      apply list_elem_of_fmap in Hm' as (l & -> & Hl). by apply Hin.
    + apply NoDup_singleton.
  - intros l [Hl|Hl%list_elem_of_singleton]%elem_of_app.
    + apply elem_of_union_l. by apply Hin.
    + subst l. cbn. apply elem_of_union_r. by apply elem_of_singleton.
Qed.

Lemma monitorUser_idempotent (c c' : nat) (m : member) (s : bot) :
  monitorUser c' m (monitorUser c m s) = monitorUser c m s.
Proof.
  destruct (decide (userKey m ∈ monitoredUsers s)) as [Hk|Hk].
  - unfold monitorUser at 2 3. rewrite !bool_decide_eq_true_2 by done.
    unfold monitorUser. by rewrite bool_decide_eq_true_2.
  - unfold monitorUser at 2 3. rewrite !bool_decide_eq_false_2 by done.
    unfold monitorUser. cbn. rewrite bool_decide_eq_true_2; [done|].
    apply elem_of_union_r. by apply elem_of_singleton.
Qed.

Lemma monitor_all_subscribed (c : nat) (ms : list member) (s : bot) :
  subscribed s → subscribed (foldl (λ s m, monitorUser c m s) s ms).
Proof.
  revert s. induction ms as [|m ms IH]; intros s Hs; [done|].
  cbn. apply IH. by apply monitorUser_subscribed.
Qed.

Lemma connect_subscribed (g : string) (ready : bool) (ms : list member) (s : bot) :
  subscribed s → subscribed (connect g ready ms s).
Proof.
  intros Hs. unfold connect. destruct ready; [|done].
  by apply monitor_all_subscribed.
Qed.

Lemma user_joined_subscribed (m : member) (now : N) (s : bot) :
  subscribed s → subscribed (user_joined m now s).2.
Proof.
  intros Hs. unfold user_joined.
  assert (Hmon : ∀ s0, subscribed s0 →
    subscribed match activeConnections s0 !! guild m with
               | Some connection =>
                   if bool_decide (id (user m) ≠ botId s0)
                   then monitorUser connection m s0 else s0
               | None => s0
               end).
  { intros s0 H0. destruct (activeConnections s0 !! guild m); [|done].
    case_bool_decide; [by apply monitorUser_subscribed | done]. }
  destruct (if bool_decide _ then _ else _) as [cooldownEnd|].
  - case_bool_decide; cbn [snd]; [exact Hs|].
    apply (Hmon (set_cooldowns (delete (id (user m))) s)). exact Hs.
  - cbn [snd]. by apply Hmon.
Qed.

Lemma speaking_start_fold (ls : list (nat * member)) (c : nat) (userId : string)
    (now now' : N) (rs : list (option task)) (s : bot) :
  let r := foldl (λ '(rs, s) '(c', m),
                    if bool_decide (c' = c ∧ userId = id (user m))
                    then let '(r, w) := setupUserAudioCapture (user m) now now' (processor s) in
                         (rs ++ [r], set_processor w s)
                    else (rs, s)) (rs, s) ls in
  listeners r.2 = listeners s ∧ monitoredUsers r.2 = monitoredUsers s ∧
  userCooldowns r.2 = userCooldowns s ∧
  ((admitted rs = 0)%nat ∨
   (admitted rs = 1%nat ∧ userId ∈ activeUsers (processor s)) →
   (admitted r.1 = 0)%nat ∨
   (admitted r.1 = 1%nat ∧ userId ∈ activeUsers (processor r.2))).
Proof.
  revert rs s. induction ls as [|[c' m] ls IH]; intros rs s; [done|].
  cbn [foldl]. case_bool_decide as Hm; [|apply IH].
  destruct Hm as [-> ->].
  destruct (setupUserAudioCapture (user m) now now' (processor s)) as [r w] eqn:Ead.
  specialize (IH (rs ++ [r]) (set_processor w s)). cbn zeta in *.
  destruct IH as (-> & -> & -> & IH). repeat split; try done.
  intros Hrs. apply IH. clear IH. unfold admitted in *.
  rewrite filter_app, length_app. unfold setupUserAudioCapture in Ead.
  case_bool_decide as Hact; simplify_eq.
  { rewrite filter_cons_False by (by intros [? ?]). cbn.
    destruct Hrs as [->|[-> ?]]; auto. }
  destruct Hrs as [Hrs|[_ ?]]; [|done].
  case_bool_decide; simplify_eq.
  - rewrite filter_cons_False by (by intros [? ?]). cbn. left. lia.
  - rewrite filter_cons_True by done. cbn. right. split; [lia|].
    apply elem_of_union_r. by apply elem_of_singleton.
Qed.

Lemma step_subscribed (s : bot) (e : event) :
  subscribed s → subscribed (step s e).
Proof.
  intros Hs. destruct e as [g ready ms|g|o n m now ready ms|m v|c u now now'
                            |m v d now|e]; cbn.
  - by apply connect_subscribed.
  - done.
  - unfold handleVoiceStateUpdate.
    destruct (negb o && n) eqn:Hjoin.
    + pose proof (user_joined_subscribed m now s Hs) as Hj.
      destruct (user_joined m now s) as [[|] s1]; cbn in *; [done|].
      repeat (case_bool_decide || case_match); cbn;
        try done; by apply connect_subscribed.
    + cbn. repeat (case_bool_decide || case_match); cbn;
        try done; by apply connect_subscribed.
  - case_bool_decide; [|done]. unfold cooldown_elapsed. cbn.
    destruct (activeConnections s !! guild m); [|done].
    destruct v; [|done]. by apply monitorUser_subscribed.
  - unfold speaking_start.
    destruct (speaking_start_fold (listeners s) c u now now' [] s) as (E1 & E2 & _).
    by eapply subscribed_same.
  - unfold kickUser. by repeat case_match.
  - done.
Qed.

Lemma run_subscribed (es : list event) (s : bot) :
  subscribed s → subscribed (run es s).
Proof.
  revert s. induction es as [|e es IH]; intros s Hs; [done|].
  cbn. apply IH. by apply step_subscribed.
Qed.

Lemma filter_absent_key {A B} `{EqDecision B} (f : A → B) (l : list A) (k : B) :
  k ∉ f <$> l → filter (λ x, f x = k) l = [].
Proof.
  induction l as [|x l IH]; [done|]. rewrite fmap_cons, not_elem_of_cons.
  intros [Hk Hl]. rewrite filter_cons_False by done. by apply IH.
Qed.

Lemma NoDup_fmap_count {A B} `{EqDecision B} (f : A → B) (l : list A) (k : B) :
  NoDup (f <$> l) → (length (filter (λ x, f x = k) l) ≤ 1)%nat.
Proof.
  induction l as [|x l IH]; [cbn; lia|].
  rewrite fmap_cons. intros [Hx Hnd]%NoDup_cons.
  destruct (decide (f x = k)) as [E|E].
  - rewrite filter_cons_True by done. subst k.
    rewrite filter_absent_key by done. cbn. lia.
  - rewrite filter_cons_False by done. by apply IH.
Qed.

Lemma rejected_when_active (u : Scheduler.user) (now now' : N) (w : world) :
  id u ∈ activeUsers w → setupUserAudioCapture u now now' w = (None, w).
Proof. intros H. unfold setupUserAudioCapture. by rewrite bool_decide_eq_true_2. Qed.

(** C8. Monitoring is idempotent: a second [monitorUser] for the same
    member changes nothing, whatever the connection it is given; in every
    state the bot reaches, at most one listener is registered for a
    (guild, user) pair, and it was registered under the pair's key in
    [monitoredUsers]; a speaker-start event creates at most one capture
    task, however many listeners answer it; and a speaker with a task in
    flight is not admitted again, the processor being left as it was. *)
Theorem subscribe_is_idempotent
    (es : list event) (bot_id : string) (c c' : nat) (m : member)
    (now now' : N) (w : world) :
  let s := run es (initial bot_id) in
  monitorUser c' m (monitorUser c m s) = monitorUser c m s ∧
  (length (filter (λ l : nat * member, userKey l.2 = userKey m) (listeners s))
     ≤ 1)%nat ∧
  (∀ l, l ∈ listeners s → userKey l.2 ∈ monitoredUsers s) ∧
  (admitted (speaking_start c (id (user m)) now now' s).1 ≤ 1)%nat ∧
  (id (user m) ∈ activeUsers w → setupUserAudioCapture (user m) now now' w = (None, w)).
Proof.
  intros s.
  assert (Hs : subscribed s).
  { apply run_subscribed. split; [apply NoDup_nil_2|].
    intros l Hl. by apply elem_of_nil in Hl. }
  split; [apply monitorUser_idempotent|].
  split.
  { destruct Hs as [Hnd _]. rewrite <- list_fmap_compose in Hnd.
    by apply (NoDup_fmap_count (userKey ∘ snd)). }
  split; [apply Hs|]. split; [|apply rejected_when_active].
  unfold speaking_start.
  destruct (speaking_start_fold (listeners s) c (id (user m)) now now' [] s)
    as (_ & _ & _ & H).
  destruct H as [->|[-> _]]; [by left | lia | lia].
Qed.

End Subscriptions.

Section Cooldown.
Import Scheduler Bot.

Lemma listeners_ignore_cooldowns
    (ls : list (nat * member)) (c : nat) (userId : string) (now now' : N)
    (rs : list (option task)) (s : bot) (f : gmap string N → gmap string N) :
  let run_listener := λ '(rs, s) '(c', m),
        if bool_decide (c' = c ∧ userId = id (user m))
        then let '(r, w) := setupUserAudioCapture (user m) now now' (processor s) in
             (rs ++ [r], set_processor w s)
        else (rs, s) in
  foldl run_listener (rs, set_cooldowns f s) ls
  = ((foldl run_listener (rs, s) ls).1,
     set_cooldowns f (foldl run_listener (rs, s) ls).2).
Proof.
  cbn zeta. revert rs s. induction ls as [|[c' m] ls IH]; intros rs s; [done|].
  cbn [foldl]. case_bool_decide; [|apply IH].
  change (processor (set_cooldowns f s)) with (processor s).
  destruct (setupUserAudioCapture (user m) now now' (processor s)) as [r w].
  apply (IH (rs ++ [r]) (set_processor w s)).
Qed.

(** The ['start'] listener does not read [userCooldowns]: the outcome of
    a speaker-start event is the same under any cooldown map. *)
Lemma speaking_start_ignores_cooldowns
    (c : nat) (userId : string) (now now' : N) (s : bot)
    (f : gmap string N → gmap string N) :
  speaking_start c userId now now' (set_cooldowns f s)
  = ((speaking_start c userId now now' s).1,
     set_cooldowns f (speaking_start c userId now now' s).2).
Proof. apply listeners_ignore_cooldowns. Qed.

Definition ann_member : member := {| guild := "g"; user := ann |}.

(** Ann is monitored, says "touchdown", is disconnected at 5000 (cooldown
    until 15000), leaves, and joins again at 6000. *)
Definition ann_rejoined : bot :=
  run [Connect "g" true [ann_member];
       SpeakingStart 0 "42" 1000 1000;
       Processor (CaptureSettles ann_task (Capture (Some loud) None));
       Processor (TranscriptionSettles ann_task (inl "touchdown"%string));
       Kick ann_member true true 5000;
       VoiceStateUpdate true false ann_member 5001 false [];
       VoiceStateUpdate false true ann_member 6000 false []]
      (initial "bot").

Lemma run_cons (e : event) (es : list event) (s : bot) :
  run (e :: es) s = run es (step s e).
Proof. reflexivity. Qed.

Lemma step_capture_settles (t : task) (c : capture) (s : bot) :
  step s (Processor (CaptureSettles t c))
  = set_processor (after_capture t c (processor s)).2 s.
Proof. reflexivity. Qed.

Lemma ann_rejoined_eq :
  ann_rejoined =
    run [Processor (TranscriptionSettles ann_task (inl "touchdown"%string));
         Kick ann_member true true 5000;
         VoiceStateUpdate true false ann_member 5001 false [];
         VoiceStateUpdate false true ann_member 6000 false []]
      (let s := step (step (initial "bot") (Connect "g" true [ann_member]))
                     (SpeakingStart 0 "42" 1000 1000) in
       set_processor
         (set_console (λ c, ((c ++ [LogAudio]) ++ [LogEnergy]) ++ [LogTranscribing])
            (set_files (λ fs, <[filename ann_task := loud]> fs) (processor s)))
         s).
Proof.
  unfold ann_rejoined.
  rewrite (run_cons (Connect _ _ _)), (run_cons (SpeakingStart _ _ _ _)),
    (run_cons (Processor (CaptureSettles _ _))).
  by rewrite step_capture_settles, after_capture_loud.
Qed.

(** C3, on the code. Ann's cooldown entry is active at 7000 and the
    join handler has deferred her monitoring to its expiry, yet the listener
    registered before the disconnection is still there: her speaker-start
    event at 7000 is admitted and a capture task is created. *)
Theorem cooldown_does_not_gate_capture :
  delivered (processor ann_rejoined) = [("42", "ann", "touchdown")]%string ∧
  userCooldowns ann_rejoined !! "42"%string = Some 15000%N ∧
  (7000 < 15000)%N ∧
  cooldownTimers ann_rejoined = [(ann_member, 15000%N)] ∧
  listeners ann_rejoined = [(0%nat, ann_member)] ∧
  (speaking_start 0 "42" 7000 7000 ann_rejoined).1
  = [Some {| speaker := ann; processingKey := "42-7000";
             filename := "./audio_recordings/42-7000.pcm" |}].
Proof.
  rewrite ann_rejoined_eq.
  split; [vm_compute; reflexivity|].
  split; [vm_compute; reflexivity|].
  split; [reflexivity|].
  split; [vm_compute; reflexivity|].
  split; vm_compute; reflexivity.
Qed.

End Cooldown.

(** ** What the matcher detects *)

Section Detection.
Import Detector.

(** The specification's words: the keyword occurs in the text as a whole
    word, letters compared without regard to case, with a word boundary
    on each side of the occurrence. *)
Definition same_letters (a b : list ascii) : Prop := upper <$> a = upper <$> b.

Definition word_boundary (before after : option ascii) : Prop :=
  is_word_at before ≠ is_word_at after.

Definition occurs_as_word (keyword text : string) : Prop :=
  ∃ pre mid post,
    chars text = pre ++ mid ++ post ∧
    same_letters mid (chars keyword) ∧
    word_boundary (last pre) (head (mid ++ post)) ∧
    word_boundary (last (pre ++ mid)) (head post).

(** A keyword made of characters that stand for themselves in a pattern. *)
Definition plain (keyword : string) : Prop :=
  ∀ c, c ∈ chars keyword → compile_char c = Some (Char c).

Definition last_or (prev : option ascii) (l : list ascii) : option ascii :=
  match last l with
  | Some c => Some c
  | None => prev
  end.

Lemma last_or_cons (prev : option ascii) (d : ascii) (l : list ascii) :
  last_or prev (d :: l) = last_or (Some d) l.
Proof.
  unfold last_or. rewrite last_cons. by destruct (last l).
Qed.

Lemma last_or_app (pre mid : list ascii) :
  last (pre ++ mid) = last_or (last pre) mid.
Proof.
  unfold last_or. by rewrite last_app.
Qed.

Lemma xorb_true_ne (a b : bool) : xorb a b = true ↔ a ≠ b.
Proof. destruct a, b; cbn; split; congruence. Qed.

(** Matching the letters of a plain keyword, then the rest of the
    pattern. *)
Lemma match_here_letters (kw : list ascii) (tl : list atom)
    (prev : option ascii) (rest : list ascii) :
  match_here ((Char <$> kw) ++ tl) prev rest = true ↔
  ∃ mid post, rest = mid ++ post ∧ same_letters mid kw ∧
              match_here tl (last_or prev mid) post = true.
Proof.
  revert prev rest. induction kw as [|c kw IH]; intros prev rest.
  - cbn. split.
    + intros H. by exists [], rest.
    + intros (mid & post & -> & Hs & H). unfold same_letters in Hs.
      destruct mid; [done|]. cbn in Hs. done.
  - cbn [fmap list_fmap app match_here]. destruct rest as [|d rest].
    + split; [done|]. intros (mid & post & E & Hs & _).
      destruct mid; [done | done].
    + rewrite andb_true_iff, bool_decide_eq_true, IH. split.
      * intros (Hc & mid & post & -> & Hs & H). exists (d :: mid), post.
        split; [done|]. split; [|by rewrite last_or_cons].
        unfold same_letters in *. cbn. by rewrite Hs, Hc.
      * intros (mid & post & E & Hs & H). destruct mid as [|d' mid]; [done|].
        injection E as <- ->. unfold same_letters in Hs. cbn in Hs.
        injection Hs as Hd Hs. split; [done|]. exists mid, post.
        split; [done|]. split; [done|]. by rewrite <- (last_or_cons prev).
Qed.

Lemma search_spec (atoms : list atom) (prev : option ascii) (rest : list ascii) :
  search atoms prev rest = true ↔
  ∃ pre post, rest = pre ++ post ∧ match_here atoms (last_or prev pre) post = true.
Proof.
  revert prev. induction rest as [|d rest IH]; intros prev.
  - cbn [search]. rewrite orb_false_r. split.
    + intros H. by exists [], [].
    + intros (pre & post & E & H). symmetry in E.
      apply app_eq_nil in E as [-> ->]. done.
  - cbn [search]. rewrite orb_true_iff, IH. split.
    + intros [H|(pre & post & -> & H)].
      * by exists [], (d :: rest).
      * exists (d :: pre), post. split; [done|]. by rewrite last_or_cons.
    + intros (pre & post & E & H). destruct pre as [|d' pre].
      * left. cbn in E. by subst post.
      * right. injection E as <- ->. exists pre, post.
        split; [done|]. by rewrite <- (last_or_cons prev).
Qed.

(** The pattern of a plain keyword tests for an occurrence as a whole
    word. *)
Lemma test_plain (kw : list ascii) (s : list ascii) :
  search (WordBoundary :: (Char <$> kw) ++ [WordBoundary]) None s = true ↔
  ∃ pre mid post,
    s = pre ++ mid ++ post ∧ same_letters mid kw ∧
    word_boundary (last pre) (head (mid ++ post)) ∧
    word_boundary (last (pre ++ mid)) (head post).
Proof.
  rewrite search_spec. split.
  - intros (pre & rest & -> & H). cbn [match_here] in H.
    apply andb_true_iff in H as [Hb H].
    apply match_here_letters in H as (mid & post & -> & Hs & H).
    cbn [match_here] in H. rewrite andb_true_r in H.
    exists pre, mid, post. split; [done|]. split; [done|].
    assert (Hl : last_or None pre = last pre) by (unfold last_or; by destruct (last pre)).
    rewrite Hl in *. split; [by apply xorb_true_ne|].
    rewrite last_or_app. by apply xorb_true_ne.
  - intros (pre & mid & post & -> & Hs & Hb1 & Hb2).
    exists pre, (mid ++ post). split; [done|].
    assert (Hl : last_or None pre = last pre) by (unfold last_or; by destruct (last pre)).
    cbn [match_here]. rewrite Hl. apply andb_true_iff.
    split; [by apply xorb_true_ne|].
    apply match_here_letters. exists mid, post. split; [done|]. split; [done|].
    cbn [match_here]. rewrite andb_true_r. apply xorb_true_ne.
    by rewrite <- last_or_app.
Qed.

(** *** Lower-casing the text changes nothing for the pattern *)

Lemma upper_lower (c : ascii) : upper (lower c) = upper c.
Proof. destruct c as [[] [] [] [] [] [] [] []]; reflexivity. Qed.

Lemma is_word_lower (c : ascii) : is_word (lower c) = is_word c.
Proof. destruct c as [[] [] [] [] [] [] [] []]; reflexivity. Qed.

Lemma is_word_at_lower (o : option ascii) :
  is_word_at (lower <$> o) = is_word_at o.
Proof. destruct o; [apply is_word_lower | done]. Qed.

Lemma head_lower (l : list ascii) : head (lower <$> l) = lower <$> head l.
Proof. by destruct l. Qed.

Lemma chars_toLowerCase (s : string) : chars (toLowerCase s) = lower <$> chars s.
Proof. apply list_ascii_of_string_of_list_ascii. Qed.

Lemma same_letters_lower (mid kw : list ascii) :
  same_letters (lower <$> mid) kw ↔ same_letters mid kw.
Proof.
  unfold same_letters. rewrite <- list_fmap_compose.
  by rewrite (list_fmap_ext (upper ∘ lower) upper mid)
    by (intros; apply upper_lower).
Qed.

(** The test the code makes for a keyword whose characters stand for
    themselves. *)
Definition hit (keyword lowerText : string) : bool :=
  test (WordBoundary :: (Char <$> chars keyword) ++ [WordBoundary]) lowerText.

Lemma hit_occurs (keyword text : string) :
  hit keyword (toLowerCase text) = true ↔ occurs_as_word keyword text.
Proof.
  unfold hit, test, occurs_as_word. rewrite test_plain, chars_toLowerCase. split.
  - intros (pre' & mid' & post' & E & Hs & Hb1 & Hb2).
    apply fmap_app_inv in E as (pre & rest & -> & E & ->). symmetry in E.
    apply fmap_app_inv in E as (mid & post & -> & -> & ->).
    exists pre, mid, post. split; [done|].
    split; [by apply same_letters_lower|].
    unfold word_boundary in *.
    rewrite <- !fmap_app, !fmap_last, !head_lower, !is_word_at_lower in Hb1, Hb2.
    done.
  - intros (pre & mid & post & -> & Hs & Hb1 & Hb2).
    exists (lower <$> pre), (lower <$> mid), (lower <$> post).
    split; [by rewrite !fmap_app|]. split; [by apply same_letters_lower|].
    unfold word_boundary in *.
    rewrite <- !fmap_app, !fmap_last, !head_lower, !is_word_at_lower. done.
Qed.

Lemma compile_plain (keyword : string) :
  plain keyword →
  compile keyword
  = Some (WordBoundary :: (Char <$> chars keyword) ++ [WordBoundary]).
Proof.
  intros Hp. unfold compile, plain in *.
  assert (H : mapM compile_char (chars keyword) = Some (Char <$> chars keyword)).
  { induction (chars keyword) as [|c l IH]; [done|].
    cbn. rewrite Hp by left. cbn. rewrite IH; [done|].
    intros c' Hc'. apply Hp. by right. }
  by rewrite H.
Qed.

Lemma detect_fold (ks : list string) (lowerText : string) (acc : list string) :
  Forall plain ks →
  foldl (λ acc keyword,
           detectedKeywords ← acc;
           regex ← compile keyword;
           Some (if test regex lowerText
                 then detectedKeywords ++ [keyword]
                 else detectedKeywords))
        (Some acc) ks
  = Some (acc ++ filter (λ k, hit k lowerText = true) ks).
Proof.
  revert acc. induction ks as [|k ks IH]; intros acc Hp.
  - cbn. by rewrite app_nil_r.
  - apply Forall_cons in Hp as [Hk Hp]. cbn [foldl]. cbn [mbind option_bind].
    rewrite (compile_plain k Hk). cbn [mbind option_bind]. fold (hit k lowerText).
    destruct (hit k lowerText) eqn:Hh.
    + rewrite IH by done. rewrite filter_cons_True by done.
      by rewrite <- app_assoc.
    + rewrite IH by done. by rewrite filter_cons_False by congruence.
Qed.

(** On keywords free of syntax characters the matcher does what the
    specification says: the terms returned are the configured terms that
    occur in the text as whole words, in the order of the set, and the flag
    says whether there is one. *)
Lemma detectSports_plain (ks : list string) (text : string) :
  Forall plain ks →
  ∃ found,
    detectSports ks text = Some (bool_decide (0 < length found)%nat, found) ∧
    found = filter (λ k, hit k (toLowerCase text) = true) ks ∧
    (∀ k, k ∈ found ↔ k ∈ ks ∧ occurs_as_word k text) ∧
    ((0 < length found)%nat ↔ ∃ k, k ∈ ks ∧ occurs_as_word k text).
Proof.
  intros Hp. set (found := filter (λ k, hit k (toLowerCase text) = true) ks).
  exists found. unfold detectSports. rewrite detect_fold by done.
  cbn [mbind option_bind app]. fold found. split; [reflexivity|]. split; [done|].
  assert (Hin : ∀ k, k ∈ found ↔ k ∈ ks ∧ occurs_as_word k text).
  { intros k. unfold found. rewrite list_elem_of_filter, hit_occurs. tauto. }
  split; [done|]. clearbody found. split.
  - intros Hlen. destruct found as [|k l]; [cbn in Hlen; lia|].
    exists k. apply Hin. by left.
  - intros (k & Hk). apply Hin in Hk.
    destruct found; [by apply elem_of_nil in Hk | cbn; lia].
Qed.

#[local] Instance atom_eq_dec : EqDecision atom.
Proof. solve_decision. Defined.

Definition plainb (keyword : string) : bool :=
  forallb (λ c, bool_decide (compile_char c = Some (Char c))) (chars keyword).

Lemma plainb_plain (keyword : string) : plainb keyword = true → plain keyword.
Proof.
  unfold plainb, plain. rewrite forallb_forall. intros H c Hc.
  apply list_elem_of_In, H in Hc. by apply bool_decide_eq_true in Hc.
Qed.

Lemma initialKeywords_plain : Forall plain initialKeywords.
Proof.
  apply (Forall_impl (λ k, plainb k = true)); [|apply plainb_plain].
  apply (bool_decide_unpack _). vm_compute. exact I.
Qed.

(** The mutation API changes the membership of the set. *)
Lemma addKeyword_elem (keyword k : string) (ks : list string) :
  k ∈ addKeyword keyword ks ↔ k = toLowerCase keyword ∨ k ∈ ks.
Proof.
  unfold addKeyword, set_add. case_bool_decide.
  - split; [auto | by intros [->|?]].
  - rewrite elem_of_app, list_elem_of_singleton. tauto.
Qed.

Lemma removeKeyword_elem (keyword k : string) (ks : list string) :
  k ∈ removeKeyword keyword ks ↔ k ≠ toLowerCase keyword ∧ k ∈ ks.
Proof. unfold removeKeyword, set_delete. by rewrite list_elem_of_filter. Qed.

(** C9, on the code. A keyword added through [addKeyword] is spliced
    into the pattern unescaped: after [addKeyword("a.b")] the text [axb],
    in which no configured keyword occurs, is reported as a detection of
    [a.b]; without that keyword it is not. *)
Theorem unescaped_keyword_detects_other_text :
  let ks := addKeyword "a.b" initialKeywords in
  "a.b"%string ∈ ks ∧
  detectSports ks "axb" = Some (true, ["a.b"%string]) ∧
  (∀ k, k ∈ ks → ¬ occurs_as_word k "axb") ∧
  detectSports initialKeywords "axb" = Some (false, []).
Proof.
  intros ks. split; [apply addKeyword_elem; by left|].
  split; [vm_compute; reflexivity|]. split; [|vm_compute; reflexivity].
  assert (H : Forall (λ k, hit k (toLowerCase "axb") = false) ks)
    by (apply (bool_decide_unpack _); vm_compute; exact I).
  intros k Hk Hocc. apply hit_occurs in Hocc.
  pose proof (proj1 (Forall_forall _ _) H k Hk) as Hmiss. cbv beta in Hmiss.
  congruence.
Qed.

End Detection.

Example detect_touchdown :
  Detector.detectSports Detector.initialKeywords "What a TOUCHDOWN pass, folks"
  = Some (true, ["touchdown"; "pass"]%string).
Proof. vm_compute. reflexivity. Qed.

Example detect_nothing :
  Detector.detectSports Detector.initialKeywords "the gamers passed the teamwork test"
  = Some (false, []).
Proof. vm_compute. reflexivity. Qed.


(** * Part III: further properties of the code *)

(** ** The energy of a buffer *)

Section EnergyRange.

Lemma int16_le_range (lo hi : byte) : -32768 ≤ Pcm.int16_le lo hi < 32768.
Proof.
  unfold Pcm.int16_le.
  pose proof (Byte.to_N_bounded lo). pose proof (Byte.to_N_bounded hi).
  destruct (Z.ltb_spec (Z.of_N (Byte.to_N lo) + 256 * Z.of_N (Byte.to_N hi)) 32768);
    lia.
Qed.

(** Induction on a buffer, two bytes at a time. *)
Lemma buffer_pairs_ind (P : list byte → Prop) :
  P [] → (∀ b, P [b]) → (∀ lo hi rest, P rest → P (lo :: hi :: rest)) →
  ∀ buffer, P buffer.
Proof.
  intros H0 H1 H2.
  assert (H : ∀ n (b : list byte), (length b < n)%nat → P b).
  { induction n as [|n IH]; intros b Hb; [lia|].
    destruct b as [|lo [|hi rest]]; [done | done |].
    apply H2, IH. cbn in Hb. lia. }
  intros buffer. apply (H (S (length buffer))). lia.
Qed.

Lemma samples_Forall (P : Z → Prop) (buffer : list byte) :
  (∀ lo hi, P (Pcm.int16_le lo hi)) → Forall P (Pcm.samples buffer).
Proof.
  intros HP. induction buffer as [| b | lo hi rest IH] using buffer_pairs_ind;
    cbn; [done | done |]. by constructor.
Qed.

Lemma sumSquares_cons (s : Z) (ss : list Z) :
  Pcm.sumSquares (s :: ss) = s * s + Pcm.sumSquares ss.
Proof. by rewrite !sumSquares_spec. Qed.

Lemma sumSquares_le (ss : list Z) (m : Z) :
  Forall (λ s, - m ≤ s ≤ m) ss →
  Pcm.sumSquares ss ≤ m * m * Z.of_nat (length ss).
Proof.
  induction 1 as [|s ss Hs _ IH]; [cbn; lia|].
  rewrite sumSquares_cons. cbn [length]. nia.
Qed.

Lemma sumSquares_zero (ss : list Z) :
  Pcm.sumSquares ss = 0 ↔ Forall (λ s, s = 0) ss.
Proof.
  induction ss as [|s ss IH]; [done|].
  rewrite sumSquares_cons, Forall_cons, <- IH.
  pose proof (sumSquares_nonneg ss). nia.
Qed.

Lemma samples_nonempty (buffer : list byte) :
  (2 ≤ length buffer)%nat → 0 < Z.of_nat (length (Pcm.samples buffer)).
Proof.
  intros H. rewrite samples_length. apply Z.div_str_pos. lia.
Qed.

Lemma samples_short (buffer : list byte) :
  (length buffer < 2)%nat → Pcm.samples buffer = [].
Proof. destruct buffer as [|lo [|hi rest]]; cbn; [done | done | lia]. Qed.

Lemma samples_odd_byte (buffer : list byte) (b : byte) :
  Nat.Even (length buffer) → Pcm.samples (buffer ++ [b]) = Pcm.samples buffer.
Proof.
  induction buffer as [| b0 | lo hi rest IH] using buffer_pairs_ind; intros He.
  - done.
  - destruct He as [k Hk]. cbn in Hk. lia.
  - cbn [app Pcm.samples]. rewrite IH; [done|].
    destruct He as [k Hk]. cbn in Hk. exists (k - 1)%nat. lia.
Qed.

(** The energy of a buffer of 16-bit samples is a real between 0 and
    the largest amplitude a sample can have. *)
Theorem energy_within_sample_range (buffer : list byte) :
  (2 ≤ length buffer)%nat →
  ∃ r : R, Pcm.calculateAudioEnergy buffer = Js.Num r ∧ (0 <= r <= 32768)%R.
Proof.
  intros Hlen. pose proof (samples_nonempty buffer Hlen) as Hn.
  rewrite energy_defined by done. eexists. split; [reflexivity|].
  split; [apply sqrt_pos|].
  set (ss := Pcm.samples buffer) in *.
  assert (Hle : Pcm.sumSquares ss ≤ 32768 * 32768 * Z.of_nat (length ss)).
  { apply sumSquares_le. apply samples_Forall. intros lo hi.
    pose proof (int16_le_range lo hi). lia. }
  apply Rle_trans with (R_sqrt.sqrt (32768 * 32768));
    [apply sqrt_le_1_alt | rewrite sqrt_square; lra].
  assert (Hn' : (0 < IZR (Z.of_nat (length ss)))%R) by (by apply IZR_lt).
  apply IZR_le in Hle. rewrite !mult_IZR in Hle.
  apply (Rmult_le_reg_r (IZR (Z.of_nat (length ss)))); [done|].
  unfold Rdiv. rewrite Rmult_assoc, Rinv_l, Rmult_1_r by lra. done.
Qed.

Lemma energy_within_sample_range_witness :
  ∃ r : R, Pcm.calculateAudioEnergy [xff; x7f] = Js.Num r ∧ (0 <= r <= 32768)%R.
Proof. apply (energy_within_sample_range [xff; x7f]). cbn. lia. Defined.

(** A buffer of fewer than two bytes holds no sample: the mean is [0 / 0],
    the energy is NaN, and NaN is below no threshold. *)
Theorem energy_of_no_sample_is_NaN (buffer : list byte) (threshold : Z) :
  (length buffer < 2)%nat →
  Pcm.calculateAudioEnergy buffer = Js.NaN ∧
  ¬ Js.lt (Pcm.calculateAudioEnergy buffer) threshold.
Proof.
  intros Hlen. rewrite energy_no_samples by (by apply samples_short).
  split; [done|]. cbn. tauto.
Qed.

Lemma energy_of_no_sample_is_NaN_witness :
  Pcm.calculateAudioEnergy [] = Js.NaN ∧
  ¬ Js.lt (Pcm.calculateAudioEnergy []) MIN_ENERGY.
Proof. apply (energy_of_no_sample_is_NaN [] MIN_ENERGY). cbn. lia. Defined.

(** The view over the buffer has [length / 2] elements: the last byte of
    a buffer of odd length is not read. *)
Theorem energy_ignores_trailing_byte (buffer : list byte) (b : byte) :
  Nat.Even (length buffer) →
  Pcm.calculateAudioEnergy (buffer ++ [b]) = Pcm.calculateAudioEnergy buffer.
Proof.
  intros He. unfold Pcm.calculateAudioEnergy. by rewrite samples_odd_byte.
Qed.

Lemma energy_ignores_trailing_byte_witness :
  Pcm.calculateAudioEnergy ([x10; x27] ++ [xff])
  = Pcm.calculateAudioEnergy [x10; x27].
Proof. apply (energy_ignores_trailing_byte [x10; x27] xff). by exists 1%nat. Defined.

(** The energy is zero for digital silence and for nothing else. *)
Theorem energy_zero_iff_silence (buffer : list byte) :
  (2 ≤ length buffer)%nat →
  Pcm.calculateAudioEnergy buffer = Js.Num 0
  ↔ Forall (λ s, s = 0) (Pcm.samples buffer).
Proof.
  intros Hlen. pose proof (samples_nonempty buffer Hlen) as Hn.
  rewrite energy_defined by done. rewrite <- sumSquares_zero.
  set (ss := Pcm.samples buffer) in *.
  assert (Hn' : (0 < IZR (Z.of_nat (length ss)))%R) by (by apply IZR_lt).
  assert (HS : (0 <= IZR (Pcm.sumSquares ss))%R) by apply IZR_le, sumSquares_nonneg.
  assert (Hq : (0 <= IZR (Pcm.sumSquares ss) / IZR (Z.of_nat (length ss)))%R).
  { apply Rmult_le_pos; [done|]. left. by apply Rinv_0_lt_compat. }
  split.
  - intros [= H]. apply sqrt_eq_0 in H; [|done].
    apply eq_IZR. apply (Rmult_eq_reg_r (/ IZR (Z.of_nat (length ss)))).
    + unfold Rdiv in H. lra.
    + apply Rinv_neq_0_compat. lra.
  - intros ->. unfold Rdiv. by rewrite Rmult_0_l, sqrt_0.
Qed.

Lemma energy_zero_iff_silence_witness :
  Pcm.calculateAudioEnergy [x00; x00; x00; x00] = Js.Num 0
  ↔ Forall (λ s, s = 0) (Pcm.samples [x00; x00; x00; x00]).
Proof. apply (energy_zero_iff_silence [x00; x00; x00; x00]). cbn. lia. Defined.

End EnergyRange.

(** ** The quality gate and the [catch] block *)

Section GateOutcomes.
Import Scheduler.

(** A segment is accepted for transcription exactly when it holds at least
    half a second of audio (96000 bytes) and the sum of its squared samples
    reaches [MIN_ENERGY]² per sample. The byte check never decides alone: a
    segment below [MIN_AUDIO_BYTES] is below the duration threshold too. *)
Theorem gate_accepts_iff (t : task) (w : world) (buffer : list byte) :
  files w !! filename t = Some buffer →
  ((gate_segment t w).1 = Normal tt ↔
     96000 ≤ Z.of_nat (length buffer) ∧
     MIN_ENERGY * MIN_ENERGY * Z.of_nat (length (Pcm.samples buffer))
       ≤ Pcm.sumSquares (Pcm.samples buffer)) ∧
  (Z.of_nat (length buffer) < MIN_AUDIO_BYTES →
     (durationMs (Z.of_nat (length buffer)) < IZR MIN_AUDIO_DURATION_MS)%R).
Proof.
  intros Hfile. split.
  - rewrite (gate_segment_cases t w buffer Hfile).
    unfold MIN_AUDIO_BYTES, MIN_AUDIO_DURATION_MS.
    case_bool_decide as Hsmall; [split; [done | lia]|].
    case_bool_decide as Hshort.
    { apply durationMs_lt_iff in Hshort. split; [done | lia]. }
    rewrite durationMs_lt_iff in Hshort.
    case_bool_decide as Hquiet.
    + apply energy_lt_iff in Hquiet as [_ Hquiet]; [|done]. split; [done | lia].
    + rewrite energy_lt_iff in Hquiet by done. split; [intros _ | done].
      split; [lia|].
      destruct (decide (Pcm.sumSquares (Pcm.samples buffer)
                        < MIN_ENERGY * MIN_ENERGY
                          * Z.of_nat (length (Pcm.samples buffer)))) as [Hlt|]; [|lia].
      exfalso. apply Hquiet. split; [|done]. intros E.
      pose proof (samples_length buffer) as Hl. rewrite E in Hl. cbn in Hl.
      assert (2 ≤ Z.of_nat (length buffer) / 2); [|lia].
      apply Z.div_le_lower_bound; lia.
  - intros Hsmall. apply durationMs_lt_iff.
    unfold MIN_AUDIO_BYTES, MIN_AUDIO_DURATION_MS in *. lia.
Qed.

Lemma gate_accepts_iff_witness :
  (gate_segment tiny_task silent_world).1 ≠ Normal tt.
Proof.
  destruct (gate_accepts_iff tiny_task silent_world (tone x00 48000) eq_refl)
    as [Hiff _].
  intros Hacc. apply Hiff in Hacc as [_ Hacc]. unfold tone in Hacc.
  rewrite samples_repeat, sumSquares_repeat, repeat_length in Hacc.
  vm_compute in Hacc. by apply Hacc.
Defined.

Ltac run_body :=
  unfold after_capture, try_segment, settle_capture, gate_segment, handler,
    finalizer, swallow, existsSync, statSync_size, readFileSync, unlinkSync,
    log, update, throw, return_, mbind, M_bind, mret, M_ret;
  cbn.

(** A capture that wrote no file and reported no failure: [statSync]
    throws ENOENT, which the [catch] block ignores. The call ends through
    the [finally] block without a line on the console. *)
Theorem empty_capture_ends_silently (t : task) (w : world) :
  files w !! filename t = None →
  after_capture t (Capture None None) w = (Terminated, (finalizer t w).2).
Proof.
  intros Hfile. destruct w as [q a ti fs d c]. run_body. cbn in Hfile.
  rewrite Hfile. cbn.
  replace (shouldLog Js.ENOENT) with false by (vm_compute; reflexivity).
  cbn. rewrite Hfile. cbn. done.
Qed.

Lemma empty_capture_ends_silently_witness :
  after_capture ann_task (Capture None None) admitted_world
  = (Terminated, (finalizer ann_task admitted_world).2).
Proof. apply (empty_capture_ends_silently ann_task admitted_world). reflexivity. Defined.

(** A capture pipeline that fails: the call terminates, the scratch file
    is removed whether or not the pipeline had created it, nothing is
    transcribed, and the console gets one error line unless the error is one
    of the three ignored ones. *)
Theorem failed_capture_is_cleaned_up
    (t : task) (content : option (list byte)) (e : Js.exn) (w : world) :
  let r := after_capture t (Capture content (Some e)) w in
  r.1 = Terminated ∧
  files r.2 = delete (filename t) (files w) ∧
  delivered r.2 = delivered w ∧
  console r.2 = console w ++ (if shouldLog e then [LogError] else []) ∧
  (∀ msg, msg ∈ ignoredErrors → Js.code e = Some msg → console r.2 = console w) ∧
  (Js.code e = None → Js.message e = None → console r.2 = console w ++ [LogError]).
Proof.
  cbn zeta.
  assert (Hcode : ∀ msg, msg ∈ ignoredErrors → Js.code e = Some msg →
                         shouldLog e = false).
  { intros msg Hmsg Hc. unfold shouldLog. apply negb_false_iff, existsb_exists.
    exists msg. split; [by apply list_elem_of_In|].
    by rewrite bool_decide_eq_true_2. }
  assert (Hnone : Js.code e = None → Js.message e = None → shouldLog e = true).
  { intros Hc Hm. unfold shouldLog. rewrite Hc, Hm. reflexivity. }
  assert (Hmain :
    (after_capture t (Capture content (Some e)) w).1 = Terminated ∧
    files (after_capture t (Capture content (Some e)) w).2
      = delete (filename t) (files w) ∧
    delivered (after_capture t (Capture content (Some e)) w).2 = delivered w ∧
    console (after_capture t (Capture content (Some e)) w).2
      = console w ++ (if shouldLog e then [LogError] else [])).
  { destruct w as [q a ti fs d c]. run_body.
    destruct (fs !! filename t) as [old|] eqn:Hfile;
      destruct content as [bytes|]; cbn; destruct (shouldLog e); cbn.
    all: repeat first
      [ rewrite lookup_insert_eq | rewrite Hfile
      | rewrite (bool_decide_eq_true_2 (is_Some (Some _))) by eauto
      | rewrite (bool_decide_eq_false_2 (is_Some None)) by (by intros [? ?])
      | progress cbn ].
    all: rewrite ?delete_insert_eq, ?app_nil_r, ?delete_id by done; done. }
  destruct Hmain as (H1 & H2 & H3 & H4). repeat split; try done.
  - intros msg Hmsg Hc. rewrite H4, (Hcode msg) by done. by rewrite app_nil_r.
  - intros Hc Hm. by rewrite H4, Hnone.
Qed.

End GateOutcomes.


(** ** Deliveries, blocked speakers and timers *)

Section SchedulerRuns.
Import Scheduler.

Lemma setup_delivered (u : user) (now now' : N) (w : world) :
  delivered (setupUserAudioCapture u now now' w).2 = delivered w.
Proof. unfold setupUserAudioCapture. by repeat case_bool_decide. Qed.

Lemma after_capture_delivered (t : task) (c : capture) (w : world) :
  delivered (after_capture t c w).2 = delivered w.
Proof.
  destruct (capture_body_accounts t c w) as (_ & Hd & _). cbn zeta in Hd.
  unfold after_capture, try_segment.
  destruct ((settle_capture t c;; gate_segment t) w) as [[[]| |e] w1]; cbn in *.
  - done.
  - by destruct (finalizer_spec t w1) as (_ & _ & _ & _ & ->).
  - destruct (handler_spec t e w1) as (_ & _ & Hh & _).
    destruct (finalizer_spec t (handler t e w1).2) as (_ & _ & _ & _ & ->).
    congruence.
Qed.

Lemma after_transcribe_failed (t : task) (e : Js.exn) (w : world) :
  delivered (after_transcribe t (inr e) w) = delivered w.
Proof.
  unfold after_transcribe, try_segment, deliver_segment. rewrite M_bind_eq.
  cbn [throw fst snd].
  destruct (handler_spec t e w) as (_ & _ & Hh & _).
  destruct (finalizer_spec t (handler t e w).2) as (_ & _ & _ & _ & ->).
  done.
Qed.

(** What one event passes to [onTranscription]. *)
Definition passes (e : event) : list (string * string * string) :=
  match e with
  | TranscriptionSettles t (inl text) =>
      if blank text then [] else [(id (speaker t), username (speaker t), text)]
  | _ => []
  end.

Lemma step_delivered (w : world) (e : event) :
  delivered (step w e) = delivered w ++ passes e.
Proof.
  destruct e as [u now now'|key|t c|t [text|e]]; cbn [step passes];
    rewrite ?app_nil_r.
  - apply setup_delivered.
  - apply timeout_frame.
  - apply after_capture_delivered.
  - apply after_transcribe_delivered.
  - apply after_transcribe_failed.
Qed.

Lemma run_delivered (es : list event) (w : world) :
  delivered (run es w) = delivered w ++ (es ≫= passes).
Proof.
  revert w. induction es as [|e es IH]; intros w; [by rewrite app_nil_r|].
  change (run (e :: es) w) with (run es (step w e)).
  rewrite IH, step_delivered, <- app_assoc. done.
Qed.

(** Whatever the events, the callback [onTranscription] is called only
    when a transcription settles with a text that is not blank, with that
    text and the speaker of that task, once per such event and in the order
    of the events: a segment the gate rejects, a failed capture, a timeout
    and a failed or blank transcription pass nothing. *)
Theorem callback_only_for_heard_text
    (es : list event) (w : world) (entry : string * string * string) :
  entry ∈ delivered (run es w) →
  delivered (run es w) = delivered w ++ (es ≫= passes) ∧
  (entry ∈ delivered w ∨
   ∃ t text, TranscriptionSettles t (inl text) ∈ es ∧ blank text = false ∧
             entry = (id (speaker t), username (speaker t), text)).
Proof.
  intros Hin. split; [apply run_delivered|].
  rewrite run_delivered, elem_of_app in Hin. destruct Hin as [Hin|Hin]; [by left|].
  right. apply list_elem_of_bind in Hin as (e & Hentry & He).
  destruct e as [u now now'|key|t c|t [text|e]]; cbn in Hentry;
    try (by apply elem_of_nil in Hentry).
  destruct (blank text) eqn:Hb; [by apply elem_of_nil in Hentry|].
  apply list_elem_of_singleton in Hentry. by exists t, text.
Qed.

Lemma callback_only_for_heard_text_witness :
  delivered (run [SpeakerStart ann 1000 1000;
                  CaptureSettles ann_task (Capture (Some [x00; x00]) None);
                  TranscriptionSettles ann_task (inl "   "%string);
                  TranscriptionSettles ann_task (inl "touchdown"%string)] initial)
  = [("42", "ann", "touchdown")]%string.
Proof.
  assert (Hin : ("42", "ann", "touchdown")%string ∈
    delivered (run [SpeakerStart ann 1000 1000;
                    CaptureSettles ann_task (Capture (Some [x00; x00]) None);
                    TranscriptionSettles ann_task (inl "   "%string);
                    TranscriptionSettles ann_task (inl "touchdown"%string)] initial))
    by (vm_compute; apply list_elem_of_here).
  destruct (callback_only_for_heard_text _ _ _ Hin) as [Heq _].
  rewrite Heq. vm_compute. reflexivity.
Defined.

(** A speaker with a task in flight is turned away until a stage of a task
    of theirs settles and ends the call: neither the timeout of the task nor
    anything other speakers do makes the speaker admissible again. *)
Theorem speaker_blocked_until_own_task_ends
    (u : user) (es : list event) (w : world) (now now' : N) :
  id u ∈ activeUsers w →
  Forall (λ e, ¬ settles_for u e) es →
  id u ∈ activeUsers (run es w) ∧
  setupUserAudioCapture u now now' (run es w) = (None, run es w).
Proof.
  intros Hact Hes.
  assert (H : id u ∈ activeUsers (run es w)).
  { revert w Hact. induction Hes as [|e es He _ IH]; intros w Hact; [done|].
    change (run (e :: es) w) with (run es (step w e)).
    apply IH. by apply step_keeps_active. }
  split; [done|]. by apply rejected_when_active.
Qed.

Definition bob : user := {| id := "7"; username := "bob" |}.

Lemma speaker_blocked_until_own_task_ends_witness :
  setupUserAudioCapture ann 20000 20000
    (run [TimerFires "42-1000"; SpeakerStart bob 16000 16000] admitted_world)
  = (None, run [TimerFires "42-1000"; SpeakerStart bob 16000 16000] admitted_world).
Proof.
  apply (speaker_blocked_until_own_task_ends ann
           [TimerFires "42-1000"; SpeakerStart bob 16000 16000] admitted_world).
  - vm_compute. reflexivity.
  - repeat constructor; cbn; tauto.
Defined.

(** When the timer of a task fires, its slot is free again although its
    pipeline is still running: with the queue full, a new speaker is turned
    away before the timeout and admitted after it, next to the speakers
    still active. *)
Theorem timeout_frees_a_slot
    (u : user) (now now' : N) (key : string) (w : world) :
  size (processingQueue w) = MAX_CONCURRENT →
  key ∈ processingQueue w →
  key ∈ timers w →
  id u ∉ activeUsers w →
  (setupUserAudioCapture u now now' w).1 = None ∧
  activeUsers (timeout key w) = activeUsers w ∧
  size (processingQueue (timeout key w)) = (MAX_CONCURRENT - 1)%nat ∧
  is_Some (setupUserAudioCapture u now now' (timeout key w)).1 ∧
  activeUsers (setupUserAudioCapture u now now' (timeout key w)).2
  = activeUsers w ∪ {[id u]}.
Proof.
  intros Hfull Hkey Htimer Hidle.
  destruct (timeout_frame key w) as (_ & Ha & _ & _ & Hq).
  rewrite bool_decide_eq_true_2 in Hq by done.
  assert (Hsize : size (processingQueue (timeout key w)) = (MAX_CONCURRENT - 1)%nat).
  { rewrite Hq, size_difference by set_solver. rewrite size_singleton. lia. }
  split.
  { apply rejected_when_full. lia. }
  split; [done|]. split; [done|].
  unfold setupUserAudioCapture.
  rewrite bool_decide_eq_false_2 by (by rewrite Ha).
  rewrite bool_decide_eq_false_2 by (rewrite Hsize; unfold MAX_CONCURRENT; lia).
  cbn. by rewrite Ha.
Qed.

Definition five_running : world := (burst (take 5 six_speakers) initial).2.

Lemma timeout_frees_a_slot_witness :
  (setupUserAudioCapture bob 16000 16000 five_running).1 = None ∧
  is_Some (setupUserAudioCapture bob 16000 16000 (timeout "1-1000" five_running)).1.
Proof.
  assert (H1 : size (processingQueue five_running) = MAX_CONCURRENT)
    by (vm_compute; reflexivity).
  assert (H2 : "1-1000"%string ∈ processingQueue five_running)
    by (vm_compute; reflexivity).
  assert (H3 : "1-1000"%string ∈ timers five_running) by (vm_compute; reflexivity).
  assert (H4 : id bob ∉ activeUsers five_running) by (vm_compute; discriminate).
  destruct (timeout_frees_a_slot bob 16000 16000 "1-1000" five_running H1 H2 H3 H4)
    as (Hno & _ & _ & Hyes & _).
  split; [exact Hno | exact Hyes].
Defined.

(** The timer of a task is cleared when the call ends: a callback that
    comes after the end of the call changes nothing, and a timer fires at
    most once. *)
Theorem timer_is_cleared_on_exit
    (t : task) (c : capture) (settled : string + Js.exn) (key : string) (w : world) :
  timeout (processingKey t) (after_transcribe t settled w)
  = after_transcribe t settled w ∧
  ((after_capture t c w).1 = Terminated →
   timeout (processingKey t) (after_capture t c w).2 = (after_capture t c w).2) ∧
  timeout key (timeout key w) = timeout key w.
Proof.
  assert (Hcleared : ∀ k w0, k ∉ timers w0 → timeout k w0 = w0).
  { intros k w0 Hk. unfold timeout. by rewrite bool_decide_eq_false_2. }
  split; [|split].
  - apply Hcleared. destruct (after_transcribe_spec t settled w) as (_ & _ & -> & _).
    set_solver.
  - intros Hend. apply Hcleared. pose proof (after_capture_spec t c w) as H.
    cbn zeta in H. rewrite Hend in H. destruct H as (_ & _ & -> & _). set_solver.
  - apply Hcleared. destruct (timeout_frame key w) as (_ & _ & _ & -> & _).
    set_solver.
Qed.

End SchedulerRuns.

(** ** Names of the scratch files *)

Section FileNames.
Import Scheduler.

Lemma chars_app (a b : string) :
  list_ascii_of_string (a +:+ b)
  = list_ascii_of_string a ++ list_ascii_of_string b.
Proof.
  induction a as [|c a IH]; [done|].
  change (String c a +:+ b) with (String c (a +:+ b)). cbn. by rewrite IH.
Qed.

Lemma append_inj_r (a b c : string) : a +:+ c = b +:+ c → a = b.
Proof.
  intros E. apply (f_equal list_ascii_of_string) in E.
  rewrite !chars_app in E. apply app_inv_tail in E.
  apply (f_equal string_of_list_ascii) in E.
  by rewrite !string_of_list_ascii_of_string in E.
Qed.

Lemma file_of_inj (u u' : user) (now now' : N) :
  file_of u now = file_of u' now' → id u = id u' ∧ now = now'.
Proof.
  unfold file_of. intros E.
  apply String.app_inj, String.app_inj in E.
  apply dash_suffix_inj in E as [E1 E2];
    try (rewrite has_dash_app, show_no_dash; reflexivity).
  split; [done|]. apply append_inj_r in E2.
  apply (key_of_inj {| id := ""; username := "" |} {| id := ""; username := "" |}).
  unfold key_of. cbn. by rewrite E2.
Qed.

(** Two admissions write to the same scratch file only if they are of the
    same speaker in the same millisecond; and a processing key names its
    speaker and its time. *)
Theorem scratch_names_are_unambiguous (u u' : user) (now now' : N) :
  (file_of u now = file_of u' now' ↔ id u = id u' ∧ now = now') ∧
  (key_of u now = key_of u' now' ↔ id u = id u' ∧ now = now').
Proof.
  split; (split; [|by unfold file_of, key_of; intros [-> ->]]).
  - apply file_of_inj.
  - apply key_of_inj.
Qed.

(** The decimal digits of a number end in a digit. *)
Fixpoint digits_last (d : Decimal.uint) : option ascii :=
  match d with
  | Decimal.Nil => None
  | Decimal.D0 d' => Some (default "0"%char (digits_last d'))
  | Decimal.D1 d' => Some (default "1"%char (digits_last d'))
  | Decimal.D2 d' => Some (default "2"%char (digits_last d'))
  | Decimal.D3 d' => Some (default "3"%char (digits_last d'))
  | Decimal.D4 d' => Some (default "4"%char (digits_last d'))
  | Decimal.D5 d' => Some (default "5"%char (digits_last d'))
  | Decimal.D6 d' => Some (default "6"%char (digits_last d'))
  | Decimal.D7 d' => Some (default "7"%char (digits_last d'))
  | Decimal.D8 d' => Some (default "8"%char (digits_last d'))
  | Decimal.D9 d' => Some (default "9"%char (digits_last d'))
  end.

Lemma digits_last_spec (d : Decimal.uint) :
  last (list_ascii_of_string (NilEmpty.string_of_uint d)) = digits_last d.
Proof.
  induction d as [|d IH|d IH|d IH|d IH|d IH|d IH|d IH|d IH|d IH|d IH];
    [done|..]; cbn [NilEmpty.string_of_uint list_ascii_of_string digits_last];
    rewrite last_cons, IH; by destruct (digits_last d).
Qed.

Lemma digits_last_digit (d : Decimal.uint) (c : ascii) :
  digits_last d = Some c → Detector.is_digit c = true.
Proof.
  revert c.
  induction d as [|d IH|d IH|d IH|d IH|d IH|d IH|d IH|d IH|d IH|d IH];
    intros c; [done|..]; cbn [digits_last]; intros [= <-];
    (destruct (digits_last d) as [c'|]; [by apply IH | reflexivity]).
Qed.

Lemma show_last (n : N) :
  ∃ c, last (list_ascii_of_string (Js.show n)) = Some c ∧ Detector.is_digit c = true.
Proof.
  unfold Js.show. rewrite digits_last_spec.
  destruct (digits_last (N.to_uint n)) as [c|] eqn:E.
  - exists c. split; [done|]. by eapply digits_last_digit.
  - exfalso. destruct n as [|p]; [done|]. cbn in E.
    pose proof (Unsigned.to_uint_nonnil p) as Hp.
    by destruct (Pos.to_uint p).
Qed.

Lemma converted_is_no_scratch_file (f : string) (u : user) (now : N) :
  Recognition.convertedFile_of f ≠ file_of u now.
Proof.
  unfold Recognition.convertedFile_of, file_of. intros E.
  apply (f_equal list_ascii_of_string) in E. rewrite !chars_app in E.
  change (list_ascii_of_string ".converted.pcm")
    with (list_ascii_of_string ".converted" ++ list_ascii_of_string ".pcm") in E.
  rewrite !app_assoc in E. apply app_inv_tail in E.
  apply (f_equal last) in E. rewrite !last_app in E.
  destruct (show_last now) as (c & Hc & Hdigit). rewrite Hc in E.
  cbn in E. injection E as <-. done.
Qed.

End FileNames.


(** ** Each call on the lock resumes with the text of its own file *)

Section OwnText.
Import Lock.
Variable recognize : string → string.

(** The promise a recognition job will fulfil is allocated, and the calls
    waiting on it are calls for the file of that job. *)
Definition target_ok (ps : list promise) (f : string) (q : nat) : Prop :=
  (q < length ps)%nat ∧
  ∀ rs f', ps !! q = Some (Pending rs) → ResumeTranscribe f' ∈ rs → f' = f.

Definition reaction_ok (ps : list promise) (r : reaction) : Prop :=
  match r with
  | RunRecognize f q => target_ok ps f q
  | ResumeTranscribe _ => True
  end.

Definition job_ok (ps : list promise) (m : reaction * string) : Prop :=
  match m.1 with
  | RunRecognize f q => target_ok ps f q
  | ResumeTranscribe f => m.2 = recognize f
  end.

Definition own (st : loop) : Prop :=
  (transcriptionLock st < length (promises st))%nat ∧
  (∀ q rs, promises st !! q = Some (Pending rs) →
           Forall (reaction_ok (promises st)) rs) ∧
  Forall (job_ok (promises st)) (microtasks st) ∧
  Forall (λ fv : string * string, fv.2 = recognize fv.1) (returned st).

(** [ps'] has the promises of [ps], none of them waited on by a call it
    was not waited on before. *)
Definition extends (ps ps' : list promise) : Prop :=
  (length ps ≤ length ps')%nat ∧
  ∀ q rs' f, (q < length ps)%nat → ps' !! q = Some (Pending rs') →
             ResumeTranscribe f ∈ rs' →
             ∃ rs, ps !! q = Some (Pending rs) ∧ ResumeTranscribe f ∈ rs.

Lemma target_ok_extends (ps ps' : list promise) (f : string) (q : nat) :
  extends ps ps' → target_ok ps f q → target_ok ps' f q.
Proof.
  intros [Hlen Hext] [Hq Hok]. split; [lia|].
  intros rs' f' Hrs' Hf'. destruct (Hext q rs' f' Hq Hrs' Hf') as (rs & Hrs & Hf).
  by eapply Hok.
Qed.

Lemma reaction_ok_extends (ps ps' : list promise) (r : reaction) :
  extends ps ps' → reaction_ok ps r → reaction_ok ps' r.
Proof. destruct r; [apply target_ok_extends | done]. Qed.

Lemma job_ok_extends (ps ps' : list promise) (m : reaction * string) :
  extends ps ps' → job_ok ps m → job_ok ps' m.
Proof.
  destruct m as [[f q|f] v]; unfold job_ok; cbn; [apply target_ok_extends | done].
Qed.

Lemma extends_refl (ps : list promise) : extends ps ps.
Proof. split; [done|]. intros q rs f _ Hrs Hf. by exists rs. Qed.

Lemma extends_trans (ps1 ps2 ps3 : list promise) :
  extends ps1 ps2 → extends ps2 ps3 → extends ps1 ps3.
Proof.
  intros [L1 E1] [L2 E2]. split; [lia|]. intros q rs3 f Hq Hrs3 Hf.
  destruct (E2 q rs3 f ltac:(lia) Hrs3 Hf) as (rs2 & Hrs2 & Hf2).
  by apply (E1 q rs2 f).
Qed.

Lemma extends_alloc (ps : list promise) (x : promise) : extends ps (ps ++ [x]).
Proof.
  split; [rewrite length_app; lia|]. intros q rs f Hq Hrs Hf.
  rewrite lookup_app_l in Hrs by done. by exists rs.
Qed.

(** Registering a recognition job on a pending promise. *)
Lemma extends_job (ps : list promise) (p : nat) (rs : list reaction)
    (f : string) (q : nat) :
  ps !! p = Some (Pending rs) →
  extends ps (<[p := Pending (rs ++ [RunRecognize f q])]> ps).
Proof.
  intros Hp. split; [by rewrite length_insert|]. intros i rs' f' Hi Hrs' Hf'.
  destruct (decide (i = p)) as [->|Hne].
  - rewrite list_lookup_insert_eq in Hrs' by done. simplify_eq.
    exists rs. split; [done|].
    apply elem_of_app in Hf' as [?|Hf']; [done|].
    by apply list_elem_of_singleton in Hf'.
  - rewrite list_lookup_insert_ne in Hrs' by done. by exists rs'.
Qed.

Lemma extends_fulfil (ps : list promise) (q : nat) (v : string) :
  extends ps (<[q := Fulfilled v]> ps).
Proof.
  split; [by rewrite length_insert|]. intros i rs' f' Hi Hrs' Hf'.
  destruct (decide (i = q)) as [->|Hne].
  - rewrite list_lookup_insert_eq in Hrs' by done. done.
  - rewrite list_lookup_insert_ne in Hrs' by done. by exists rs'.
Qed.

Lemma own_initial : own initial.
Proof.
  split; [cbn; lia|]. split; [|split; constructor].
  intros [|q] rs Hq; cbn in Hq; done.
Qed.

Lemma own_chain (file : string) (st : loop) : own st → own (chain file st).
Proof.
  intros (Hlock & Hpend & Hjobs & Hret).
  set (ps := promises st) in *. set (q := length ps).
  set (ps1 := ps ++ [Pending []]).
  assert (Hq1 : ps1 !! q = Some (Pending [])).
  { unfold ps1, q. by rewrite lookup_app_r, Nat.sub_diag by lia. }
  assert (Hlen1 : length ps1 = S q) by (unfold ps1; rewrite length_app; cbn; lia).
  (* the promises after the registration of the recognition job *)
  set (ps2 := match ps1 !! transcriptionLock st with
              | Some (Pending rs) =>
                  <[transcriptionLock st := Pending (rs ++ [RunRecognize file q])]> ps1
              | _ => ps1
              end).
  set (ps3 := <[q := Pending [ResumeTranscribe file]]> ps2).
  assert (Hlen2 : length ps2 = S q).
  { unfold ps2. destruct (ps1 !! transcriptionLock st) as [[rs|v]|];
      rewrite ?length_insert; exact Hlen1. }
  assert (Hq2 : ps2 !! q = Some (Pending [])).
  { unfold ps2. destruct (ps1 !! transcriptionLock st) as [[rs|v]|]; try done.
    rewrite list_lookup_insert_ne by (unfold q; lia). done. }
  assert (He12 : extends ps ps2).
  { apply (extends_trans _ ps1); [apply extends_alloc|]. unfold ps2.
    destruct (ps1 !! transcriptionLock st) as [[rs|v]|] eqn:Hp;
      [by apply extends_job | apply extends_refl | apply extends_refl]. }
  assert (He23 : extends ps ps3).
  { destruct He12 as [Hl He]. split; [unfold ps3; rewrite length_insert; lia|].
    intros i rs' f Hi Hrs' Hf. unfold ps3 in Hrs'.
    rewrite list_lookup_insert_ne in Hrs' by (unfold q; lia). by eapply He. }
  assert (Hnew : target_ok ps3 file q).
  { split; [unfold ps3; rewrite length_insert; lia|]. intros rs f' Hrs Hf'.
    unfold ps3 in Hrs. rewrite list_lookup_insert_eq in Hrs by lia.
    simplify_eq. apply list_elem_of_singleton in Hf'. congruence. }
  assert (Hstate : chain file st =
    {| promises := ps3; transcriptionLock := q;
       microtasks := match ps1 !! transcriptionLock st with
                     | Some (Fulfilled v) =>
                         microtasks st ++ [(RunRecognize file q, v)]
                     | _ => microtasks st
                     end;
       trace := trace st; returned := returned st |}).
  { unfold chain, then_recognize, register. fold ps q ps1. cbn.
    destruct (ps1 !! transcriptionLock st) as [[rs|v]|] eqn:Hp; cbn.
    - rewrite list_lookup_insert_ne by (unfold q; lia). rewrite Hq1.
      unfold ps3, ps2. by rewrite ?Hp.
    - rewrite Hq1. unfold ps3, ps2. by rewrite ?Hp.
    - rewrite Hq1. unfold ps3, ps2. by rewrite ?Hp. }
  rewrite Hstate. split; [cbn; unfold ps3; rewrite length_insert; lia|].
  split; [|split]; cbn.
  - intros i rs Hi. destruct (decide (i = q)) as [->|Hne].
    { unfold ps3 in Hi. rewrite list_lookup_insert_eq in Hi by lia. simplify_eq.
      by apply Forall_singleton. }
    unfold ps3 in Hi. rewrite list_lookup_insert_ne in Hi by done.
    unfold ps2 in Hi.
    destruct (ps1 !! transcriptionLock st) as [[rs0|v]|] eqn:Hp.
    + destruct (decide (i = transcriptionLock st)) as [->|Hne'].
      * rewrite list_lookup_insert_eq in Hi by lia. simplify_eq.
        apply Forall_app. split; [|apply Forall_singleton; exact Hnew].
        unfold ps1 in Hp. rewrite lookup_app_l in Hp by done.
        eapply Forall_impl; [by eapply Hpend|].
        intros r. by apply reaction_ok_extends.
      * rewrite list_lookup_insert_ne in Hi by done.
        assert (i < q)%nat.
        { apply lookup_lt_Some in Hi. rewrite Hlen1 in Hi. lia. }
        unfold ps1 in Hi. rewrite lookup_app_l in Hi by done.
        eapply Forall_impl; [by eapply Hpend|].
        intros r. by apply reaction_ok_extends.
    + assert (i < q)%nat.
      { apply lookup_lt_Some in Hi. rewrite Hlen1 in Hi. lia. }
      unfold ps1 in Hi. rewrite lookup_app_l in Hi by done.
      eapply Forall_impl; [by eapply Hpend|].
      intros r. by apply reaction_ok_extends.
    + assert (i < q)%nat.
      { apply lookup_lt_Some in Hi. rewrite Hlen1 in Hi. lia. }
      unfold ps1 in Hi. rewrite lookup_app_l in Hi by done.
      eapply Forall_impl; [by eapply Hpend|].
      intros r. by apply reaction_ok_extends.
  - assert (Hold : Forall (job_ok ps3) (microtasks st)).
    { eapply Forall_impl; [exact Hjobs|]. intros m. by apply job_ok_extends. }
    destruct (ps1 !! transcriptionLock st) as [[rs0|v]|]; try done.
    apply Forall_app. split; [done|]. apply Forall_singleton. exact Hnew.
  - done.
Qed.

Lemma own_tick (st : loop) : own st → own (tick recognize st).
Proof.
  intros (Hlock & Hpend & Hjobs & Hret). unfold tick.
  destruct (microtasks st) as [|[[file q|file] v0] rest] eqn:Hm.
  - by rewrite <- Hm in Hjobs.
  - apply Forall_cons in Hjobs as [Hjob Hrest]. unfold job_ok in Hjob.
    cbn in Hjob. unfold fulfil. cbn.
    destruct (promises st !! q) as [[rs|v]|] eqn:Hq; try done.
    assert (He : extends (promises st) (<[q := Fulfilled (recognize file)]> (promises st)))
      by apply extends_fulfil.
    split; [cbn; by rewrite length_insert|]. split; [|split]; cbn.
    + intros i rs' Hi. destruct (decide (i = q)) as [->|Hne].
      { rewrite list_lookup_insert_eq in Hi by (by eapply lookup_lt_Some). done. }
      rewrite list_lookup_insert_ne in Hi by done.
      eapply Forall_impl; [by eapply Hpend|].
      intros r. by apply reaction_ok_extends.
    + apply Forall_app. split.
      * eapply Forall_impl; [exact Hrest|]. intros m. by apply job_ok_extends.
      * apply Forall_fmap. specialize (Hpend q rs Hq).
        apply Forall_forall. intros r Hr.
        pose proof (proj1 (Forall_forall _ _) Hpend r Hr) as Hok.
        destruct r as [f' q'|f']; unfold job_ok; cbn.
        -- by apply (target_ok_extends (promises st)).
        -- destruct Hjob as [_ Hjob]. by rewrite (Hjob rs f' Hq Hr).
    + done.
  - apply Forall_cons in Hjobs as [Hjob Hrest]. unfold job_ok in Hjob.
    cbn in Hjob. split; [done|]. split; [done|]. split; [done|]. cbn.
    apply Forall_app. split; [done|]. apply Forall_singleton. exact Hjob.
Qed.

Lemma own_run (acts : list action) (st : loop) :
  own st → own (run recognize acts st).
Proof.
  revert st. induction acts as [|a acts IH]; intros st Hst; [done|].
  cbn. apply IH. destruct a; [by apply own_chain | by apply own_tick].
Qed.

(** Whatever the interleaving of calls and of turns of the queue, a call
    of [transcribeAudio] resumes with the text [recognize] returned for its
    own converted file, never with the text of another call. *)
Theorem call_resumes_with_own_text
    (acts : list action) (file text : string) :
  (file, text) ∈ returned (run recognize acts initial) →
  text = recognize file.
Proof.
  intros Hin. destruct (own_run acts initial own_initial) as (_ & _ & _ & Hret).
  by apply (proj1 (Forall_forall _ _) Hret (file, text)).
Qed.

End OwnText.

(** A recognizer that tells the file [b] from the others. *)
Definition tell_b (f : string) : string :=
  if decide (f = "b"%string) then "B"%string else "A"%string.

Lemma call_resumes_with_own_text_witness : "B"%string = tell_b "b".
Proof.
  apply (call_resumes_with_own_text tell_b
           [Lock.Chain "a"; Lock.Chain "b"; Lock.Tick; Lock.Tick; Lock.Tick;
            Lock.Tick]%string "b" "B").
  vm_compute. apply list_elem_of_further, list_elem_of_here.
Defined.


(** ** The recognition stage: chunks, text and files *)

Section Chunks.
Import Recognition.

Lemma chunkSize_pos : (0 < chunkSize)%nat.
Proof. unfold chunkSize. lia. Qed.

Lemma chunks_nil (fuel : nat) : chunks fuel [] = [].
Proof. by destruct fuel. Qed.

Lemma chunks_cons (fuel : nat) (b : byte) (rest : list byte) :
  chunks (S fuel) (b :: rest)
  = take chunkSize (b :: rest) :: chunks fuel (drop chunkSize (b :: rest)).
Proof. reflexivity. Qed.

Lemma chunks_spec (fuel : nat) (audioData : list byte) :
  (length audioData ≤ fuel)%nat →
  let cs := chunks fuel audioData in
  concat cs = audioData ∧
  Forall (λ c, (0 < length c ≤ chunkSize)%nat) cs ∧
  (∀ i c, cs !! i = Some c → (S i < length cs)%nat → length c = chunkSize) ∧
  length cs = ((length audioData + (chunkSize - 1)) / chunkSize)%nat.
Proof.
  pose proof chunkSize_pos as Hpos. cbn zeta.
  assert (Hempty : ∀ fuel', let cs := chunks fuel' [] in
    concat cs = [] ∧
    Forall (λ c, (0 < length c ≤ chunkSize)%nat) cs ∧
    (∀ i c, cs !! i = Some c → (S i < length cs)%nat → length c = chunkSize) ∧
    length cs = ((length (@nil byte) + (chunkSize - 1)) / chunkSize)%nat).
  { intros fuel'. cbn zeta. rewrite chunks_nil.
    split; [done|]. split; [constructor|]. split; [by intros [|i] c|].
    cbn [length]. symmetry. apply Nat.div_small. lia. }
  revert audioData. induction fuel as [|fuel IH]; intros audioData Hfuel.
  { destruct audioData; [apply Hempty | cbn [length] in Hfuel; lia]. }
  destruct audioData as [|b rest]; [apply Hempty|].
  rewrite chunks_cons. set (data := b :: rest) in *.
  assert (Hdata : (0 < length data)%nat) by (unfold data; cbn [length]; lia).
  assert (Hfuel' : (length data ≤ S fuel)%nat) by exact Hfuel.
  clearbody data. clear Hfuel.
  destruct (IH (drop chunkSize data)) as (Hcat & Hall & Hfull & Hlen).
  { rewrite length_drop. lia. }
  split; [|split; [|split]].
  - cbn [concat]. rewrite Hcat. apply take_drop.
  - constructor; [|done]. rewrite length_take. lia.
  - intros [|i] c Hc Hi; cbn [length] in Hi.
    + pose proof (Hc : Some (take chunkSize data) = Some c) as Hc'.
      injection Hc' as <-. rewrite length_take.
      destruct (chunks fuel (drop chunkSize data)) as [|c' cs'] eqn:Hcs;
        [cbn [length] in Hi; lia|].
      destruct (drop chunkSize data) as [|b' rest'] eqn:Hdrop;
        [rewrite chunks_nil in Hcs; discriminate Hcs|].
      apply (f_equal length) in Hdrop. rewrite length_drop in Hdrop.
      cbn [length] in Hdrop. lia.
    + apply (Hfull i c); [exact Hc | lia].
  - cbn [length]. rewrite Hlen, length_drop.
    destruct (decide (length data ≤ chunkSize)%nat) as [Hle|Hgt].
    + assert (E1 : ((length data - chunkSize + (chunkSize - 1)) / chunkSize = 0)%nat)
        by (apply Nat.div_small; lia).
      assert (E2 : ((length data + (chunkSize - 1)) / chunkSize = 1)%nat)
        by (symmetry; apply (Nat.div_unique _ _ 1 (length data - 1)); lia).
      rewrite E1, E2. reflexivity.
    + assert (E : (length data + (chunkSize - 1)
                   = (length data - chunkSize + (chunkSize - 1)) + 1 * chunkSize)%nat)
        by lia.
      rewrite E, Nat.div_add by lia. lia.
Qed.

(** The loop of [recognizeAudio] feeds the recognizer every byte of the
    converted audio once and in order, in chunks of [chunkSize] bytes but for
    the last, which holds what is left; empty audio gives no chunk. *)
Theorem chunks_cover_the_audio (audioData : list byte) :
  let cs := chunks (length audioData) audioData in
  concat cs = audioData ∧
  Forall (λ c, (0 < length c ≤ chunkSize)%nat) cs ∧
  (∀ i c, cs !! i = Some c → (S i < length cs)%nat → length c = chunkSize) ∧
  length cs = ((length audioData + (chunkSize - 1)) / chunkSize)%nat.
Proof. by apply chunks_spec. Qed.

End Chunks.

Section Trimmed.
Import Scheduler Recognition.
Variable parse_text : string → option string + Js.exn.

Lemma trim_start_head (l : list ascii) :
  match trim_start l with
  | c :: _ => is_space c = false
  | [] => True
  end.
Proof.
  induction l as [|c l IH]; [done|]. cbn.
  destruct (is_space c) eqn:Hc; [done|]. done.
Qed.

Lemma trim_start_fixed (c : ascii) (l : list ascii) :
  is_space c = false → trim_start (c :: l) = c :: l.
Proof. intros Hc. cbn. by rewrite Hc. Qed.

Lemma trim_start_snoc (l : list ascii) (c : ascii) :
  is_space c = false → trim_start (l ++ [c]) = trim_start l ++ [c].
Proof.
  intros Hc. induction l as [|d l IH]; cbn; [by rewrite Hc|].
  by destruct (is_space d).
Qed.

Lemma trim_start_idem (l : list ascii) : trim_start (trim_start l) = trim_start l.
Proof.
  pose proof (trim_start_head l) as H.
  destruct (trim_start l) as [|c l']; [done|]. by apply trim_start_fixed.
Qed.

(** The characters [trim] keeps. *)
Definition trimmed (l : list ascii) : list ascii :=
  rev (trim_start (rev (trim_start l))).

Lemma trimmed_idem (l : list ascii) : trimmed (trimmed l) = trimmed l.
Proof.
  unfold trimmed. pose proof (trim_start_head l) as H.
  destruct (trim_start l) as [|c l']; [done|].
  cbn [rev]. rewrite trim_start_snoc by done.
  rewrite rev_app_distr. cbn [rev app].
  rewrite trim_start_fixed by done.
  cbn [rev]. rewrite rev_involutive, trim_start_snoc by done.
  rewrite trim_start_idem, rev_app_distr. reflexivity.
Qed.

Lemma trim_idem (s : string) : trim (trim s) = trim s.
Proof.
  unfold trim. rewrite list_ascii_of_string_of_list_ascii.
  fold (trimmed (list_ascii_of_string s)).
  fold (trimmed (trimmed (list_ascii_of_string s))). by rewrite trimmed_idem.
Qed.

Lemma blank_chars (s : string) :
  blank s = forallb is_space (list_ascii_of_string s).
Proof. induction s as [|c s IH]; [done|]. cbn. by rewrite IH. Qed.

Lemma trim_blank_iff (s : string) : blank (trim s) = true ↔ trim s = ""%string.
Proof.
  split; [|by intros ->].
  intros Hb. rewrite <- trim_idem. by apply trim_blank.
Qed.

Lemma recognize_body_trimmed (b : backend) (f : string) (w : world) :
  match (recognize_body parse_text b f w).1 with
  | Normal text => ∃ t, text = trim t
  | _ => True
  end.
Proof.
  unfold recognize_body. rewrite M_bind_eq.
  destruct (raise_if (create b) w) as [[[]| |e] w1]; [|done|done].
  rewrite M_bind_eq.
  destruct (readFileSync f w1) as [[data| |e] w2]; [|done|done].
  rewrite M_bind_eq.
  destruct (feed_all parse_text b 0 (chunks (length data) data) "" w2)
    as [[t1| |e] w3]; [|done|done].
  rewrite M_bind_eq.
  destruct (match finalResult b with
            | FinalThrows e => throw e
            | FinalObject (Some text) => mret (t1 +:+ text)
            | _ => mret t1
            end w3) as [[t2| |e] w4]; [|done|done].
  rewrite M_bind_eq.
  destruct (raise_if (free b) w4) as [[[]| |e] w5]; [|done|done].
  cbn. by exists t2.
Qed.

Lemma heard_trimmed (b : backend) (f : string) (w : world) :
  trim (heard parse_text b f w) = heard parse_text b f w.
Proof.
  unfold heard. pose proof (recognize_body_trimmed b f w) as H.
  destruct (recognize_body parse_text b f w).1 as [text| |e]; [|done|done].
  destruct H as [t ->]. apply trim_idem.
Qed.

(** The text [transcribeAudio] resolves with has no white space at either
    end. So the test [text && text.trim().length > 0] made on it by the
    caller holds exactly when the text is not the empty string. *)
Theorem transcribed_text_is_trimmed
    (b : backend) (child : ffmpeg) (filename : string) (w : world) :
  ∃ called text w',
    transcribeAudio parse_text b (Spawned child) filename w
    = (Normal (called, text), w') ∧
    trim text = text ∧
    (blank text = true ↔ text = ""%string).
Proof.
  destruct (transcribeAudio_total parse_text b child filename w)
    as (called & text & w' & Hrun & Hfalse & Htrue & _).
  exists called, text, w'. split; [done|].
  assert (Htrim : trim text = text).
  { destruct called.
    - destruct (Htrue eq_refl) as [_ ->]. apply heard_trimmed.
    - by rewrite (Hfalse eq_refl). }
  split; [done|]. rewrite <- Htrim. apply trim_blank_iff.
Qed.

(** When the enhancement subprocess exits with a code other than 0 after
    it has created its output file, [transcribeAudio] resolves with the empty
    string and the converted file stays in the scratch directory. *)
Theorem failed_conversion_leaves_its_output
    (b : backend) (code : Z) (bytes : list byte) (filename : string) (w : world) :
  code ≠ 0 →
  transcribeAudio parse_text b (Spawned (Closed code (Some bytes))) filename w
  = (Normal (false, ""%string),
     set_files (λ fs, <[convertedFile_of filename := bytes]> fs) w) ∧
  files (transcribeAudio parse_text b (Spawned (Closed code (Some bytes))) filename w).2
    !! convertedFile_of filename = Some bytes.
Proof.
  intros Hcode.
  assert (Hrun :
    transcribeAudio parse_text b (Spawned (Closed code (Some bytes))) filename w
    = (Normal (false, ""%string),
       set_files (λ fs, <[convertedFile_of filename := bytes]> fs) w)).
  { unfold transcribeAudio, convertAudio. rewrite !M_bind_eq. cbn.
    by destruct (decide (code ≠ 0)). }
  split; [done|]. rewrite Hrun. cbn. apply lookup_insert_eq.
Qed.

Lemma converted_differs (filename : string) :
  filename ≠ convertedFile_of filename.
Proof.
  unfold convertedFile_of. intros E.
  apply (f_equal (λ s, length (list_ascii_of_string s))) in E.
  rewrite chars_app, length_app in E. cbn in E. lia.
Qed.

Lemma transcribeAudio_frame
    (b : backend) (s : spawn) (filename : string) (w : world) :
  (∀ path, path ≠ convertedFile_of filename →
     files (transcribeAudio parse_text b s filename w).2 !! path
     = files w !! path) ∧
  same_accounts w (transcribeAudio parse_text b s filename w).2 ∧
  delivered (transcribeAudio parse_text b s filename w).2 = delivered w.
Proof.
  destruct s as [e|[err|code output]]; [done|done|].
  set (w1 := set_files (λ fs, match output with
                              | Some bytes => <[convertedFile_of filename := bytes]> fs
                              | None => fs
                              end) w).
  assert (H1 : ∀ path, path ≠ convertedFile_of filename →
                       files w1 !! path = files w !! path).
  { intros path Hpath. unfold w1. cbn. destruct output; [|done].
    by rewrite lookup_insert_ne. }
  assert (Hconv : convertAudio filename (Spawned (Closed code output)) w
                  = (Normal (if decide (code ≠ 0) then None
                             else Some (convertedFile_of filename)), w1)).
  { unfold convertAudio. rewrite M_bind_eq. cbn. by destruct (decide _). }
  unfold transcribeAudio. rewrite M_bind_eq, Hconv.
  destruct (decide (code ≠ 0)); [done|].
  rewrite M_bind_eq. unfold existsSync. case_bool_decide; [|done].
  rewrite M_bind_eq.
  destruct (recognize_total parse_text b (convertedFile_of filename) w1)
    as (w2 & -> & Hfiles & Hacc & Hd). cbn. split; [|done].
  intros path Hpath. rewrite Hfiles, lookup_delete_ne by done. by apply H1.
Qed.

(** [transcribeAudio] writes and deletes one file, the converted file of
    its argument: the raw capture it was given, the scratch file of every
    task and every other file are as before, and so are the two sets of the
    class and what was passed to the callback, also when the call is
    rejected. *)
Theorem transcription_touches_only_its_converted_file
    (b : backend) (s : spawn) (filename : string) (w : world) :
  let w' := (transcribeAudio parse_text b s filename w).2 in
  (∀ path, path ≠ convertedFile_of filename →
           files w' !! path = files w !! path) ∧
  files w' !! filename = files w !! filename ∧
  (∀ u now, files w' !! file_of u now = files w !! file_of u now) ∧
  processingQueue w' = processingQueue w ∧
  activeUsers w' = activeUsers w ∧
  timers w' = timers w ∧
  delivered w' = delivered w.
Proof.
  cbn zeta.
  destruct (transcribeAudio_frame b s filename w)
    as (Hfiles & (Hq & Ha & Ht) & Hd).
  repeat split; try done.
  - apply Hfiles, converted_differs.
  - intros u now. apply Hfiles. intros E. symmetry in E.
    by apply converted_is_no_scratch_file in E.
Qed.

End Trimmed.

Lemma failed_conversion_leaves_its_output_witness :
  Scheduler.files
    (Recognition.transcribeAudio parse_demo one_word
       (Recognition.Spawned (Recognition.Closed 1 (Some [x01; x02]))) "a.pcm"
       Scheduler.initial).2
    !! Recognition.convertedFile_of "a.pcm" = Some [x01; x02].
Proof.
  apply (failed_conversion_leaves_its_output parse_demo one_word 1 [x01; x02]
           "a.pcm" Scheduler.initial).
  lia.
Defined.


(** ** One segment from the capture to the callback *)

Section WholeCall.
Import Scheduler Recognition.
Variable parse_text : string → option string + Js.exn.

Lemma after_capture_suspended (t : task) (content : list byte) (w : world) :
  (after_capture t (Capture (Some content) None) w).1 = Suspended →
  files (after_capture t (Capture (Some content) None) w).2
  = <[filename t := content]> (files w).
Proof.
  unfold after_capture, try_segment. rewrite M_bind_eq.
  unfold settle_capture. rewrite M_bind_eq. cbn [update written failure mret M_ret].
  rewrite (gate_segment_cases t _ content) by apply lookup_insert_eq.
  repeat case_bool_decide; cbn; done.
Qed.

Lemma after_transcribe_files (t : task) (text : string) (content : list byte)
    (w : world) :
  files w !! filename t = Some content →
  files (after_transcribe t (inl text) w) = delete (filename t) (files w).
Proof.
  intros Hfile. destruct w as [q a ti fs d c]. cbn in Hfile.
  unfold after_transcribe, try_segment, deliver_segment, finalizer, unlinkSync,
    onTranscription, log, update, mbind, M_bind, mret, M_ret.
  cbn. destruct (blank text); cbn; rewrite Hfile; cbn; done.
Qed.

(** A segment that passes the gate and is converted without error leaves
    nothing behind: while [transcribeAudio] runs the scratch file is in
    place, the converted file is gone when it resolves, and when the call ends
    the scratch directory is what it was before the capture, whatever the
    recognizer did. *)
Theorem accepted_segment_leaves_no_file
    (b : backend) (t : task) (content bytes : list byte) (w : world) :
  files w !! filename t = None →
  files w !! convertedFile_of (filename t) = None →
  (after_capture t (Capture (Some content) None) w).1 = Suspended →
  let w1 := (after_capture t (Capture (Some content) None) w).2 in
  let r := transcribeAudio parse_text b (Spawned (Closed 0 (Some bytes)))
             (filename t) w1 in
  ∃ text, r.1 = Normal (true, text) ∧
          files w1 !! filename t = Some content ∧
          files r.2 = files w1 ∧
          files (after_transcribe t (inl text) r.2) = files w.
Proof.
  intros Hraw Hconv Hsusp w1 r.
  assert (Hw1 : files w1 = <[filename t := content]> (files w))
    by (by apply after_capture_suspended).
  assert (Hfile : files w1 !! filename t = Some content)
    by (rewrite Hw1; apply lookup_insert_eq).
  assert (Hnoconv : files w1 !! convertedFile_of (filename t) = None).
  { rewrite Hw1, lookup_insert_ne; [done|]. apply converted_differs. }
  destruct (transcribeAudio_total parse_text b (Closed 0 (Some bytes))
              (filename t) w1) as (called & text & w2 & Hrun & _ & Hgone & Hcalled).
  assert (called = true) as -> by (apply Hcalled; exists bytes; by left).
  fold r in Hrun.
  destruct (transcribeAudio_frame parse_text b
              (Spawned (Closed 0 (Some bytes))) (filename t) w1) as (Hother & _).
  fold r in Hother.
  destruct (Hgone eq_refl) as [Hgone' _].
  assert (Hw2 : files r.2 = files w1).
  { apply map_eq. intros path.
    destruct (decide (path = convertedFile_of (filename t))) as [->|Hne].
    - rewrite Hrun. cbn. by rewrite Hgone', Hnoconv.
    - by apply Hother. }
  exists text. split; [by rewrite Hrun|]. split; [done|]. split; [done|].
  rewrite (after_transcribe_files t text content) by (by rewrite Hw2).
  rewrite Hw2, Hw1, delete_insert_eq. by apply delete_id.
Qed.

End WholeCall.

Lemma accepted_segment_leaves_no_file_witness :
  let w1 := (Scheduler.after_capture ann_task
               (Scheduler.Capture (Some loud) None) admitted_world).2 in
  let r := Recognition.transcribeAudio parse_demo one_word
             (Recognition.Spawned (Recognition.Closed 0 (Some [x01; x02])))
             (Scheduler.filename ann_task) w1 in
  ∃ text, r.1 = Scheduler.Normal (true, text) ∧
          Scheduler.files w1 !! Scheduler.filename ann_task = Some loud ∧
          Scheduler.files r.2 = Scheduler.files w1 ∧
          Scheduler.files (Scheduler.after_transcribe ann_task (inl text) r.2)
          = Scheduler.files admitted_world.
Proof.
  apply (accepted_segment_leaves_no_file parse_demo one_word ann_task loud
           [x01; x02] admitted_world).
  - reflexivity.
  - reflexivity.
  - by rewrite after_capture_loud.
Defined.


(** ** The bot over its runs *)

Section Preserved.
Import Scheduler Bot.

(** A property of the bot that the elementary updates keep is kept by
    every handler. *)
Variable P : bot → Prop.
Hypothesis P_monitor : ∀ g c m s,
  P s → activeConnections s !! g = Some c → P (monitorUser c m s).
Hypothesis P_connect : ∀ g ready ms s, P s → P (connect g ready ms s).
Hypothesis P_disconnect : ∀ g s, P s → P (disconnect g s).
Hypothesis P_cooldowns : ∀ f s, P s → P (set_cooldowns f s).
Hypothesis P_warnings : ∀ k s, P s → P (set_warnings (delete k) s).
Hypothesis P_timers : ∀ f s, P s → P (set_cooldownTimers f s).
Hypothesis P_processor : ∀ w s, P s → P (set_processor w s).

Lemma user_joined_preserved (m : member) (now : N) (s : bot) :
  P s → P (user_joined m now s).2.
Proof.
  intros Hs. unfold user_joined.
  assert (Hmon : ∀ s0, P s0 →
    P match activeConnections s0 !! guild m with
      | Some connection =>
          if bool_decide (id (user m) ≠ botId s0)
          then monitorUser connection m s0 else s0
      | None => s0
      end).
  { intros s0 H0. destruct (activeConnections s0 !! guild m) eqn:Hc; [|done].
    case_bool_decide; [by eapply P_monitor | done]. }
  destruct (if bool_decide _ then _ else _) as [cooldownEnd|].
  - case_bool_decide; cbn [snd]; [by apply P_timers|].
    apply (Hmon (set_cooldowns (delete (id (user m))) s)). by apply P_cooldowns.
  - cbn [snd]. by apply Hmon.
Qed.

Lemma listeners_preserved (ls : list (nat * member)) (c : nat) (userId : string)
    (now now' : N) (rs : list (option task)) (s : bot) :
  P s →
  P (foldl (λ '(rs, s) '(c', m),
              if bool_decide (c' = c ∧ userId = id (user m))
              then let '(r, w) :=
                     setupUserAudioCapture (user m) now now' (processor s) in
                   (rs ++ [r], set_processor w s)
              else (rs, s)) (rs, s) ls).2.
Proof.
  revert rs s. induction ls as [|[c' m] ls IH]; intros rs s Hs; [done|].
  cbn [foldl]. case_bool_decide; [|by apply IH].
  destruct (setupUserAudioCapture (user m) now now' (processor s)) as [r w].
  apply IH. by apply P_processor.
Qed.

Lemma step_preserved (s : bot) (e : event) : P s → P (step s e).
Proof.
  intros Hs. destruct e as [g ready ms|g|o n m now ready ms|m v|c u now now'
                            |m v d now|e]; cbn [step].
  - by apply P_connect.
  - by apply P_disconnect.
  - unfold handleVoiceStateUpdate.
    assert (Hrest : ∀ s1, P s1 →
      P (let s2 := if o && negb n
                   then (if bool_decide (id (user m) ≠ ""%string)
                         then set_warnings (delete (id (user m))) s1 else s1)
                   else s1 in
         let s3 := if bool_decide (id (user m) = botId s2) && n && negb o
                   then (if bool_decide (is_Some (activeConnections s2 !! guild m))
                         then s2 else connect (guild m) ready ms s2)
                   else s2 in
         if bool_decide (id (user m) = botId s3) && o && negb n
         then disconnect (guild m) s3 else s3)).
    { intros s1 H1. cbn zeta.
      set (s2 := if o && negb n then _ else s1).
      assert (H2 : P s2).
      { unfold s2. destruct (o && negb n); [|done].
        case_bool_decide; [by apply P_warnings | done]. }
      clearbody s2.
      set (s3 := if bool_decide (id (user m) = botId s2) && n && negb o
                 then _ else s2).
      assert (H3 : P s3).
      { unfold s3. destruct (bool_decide (id (user m) = botId s2) && n && negb o);
          [|done]. case_bool_decide; [done | by apply P_connect]. }
      clearbody s3.
      destruct (bool_decide (id (user m) = botId s3) && o && negb n);
        [by apply P_disconnect | done]. }
    destruct (negb o && n).
    + pose proof (user_joined_preserved m now s Hs) as Hj.
      destruct (user_joined m now s) as [[|] s1]; cbn [snd] in Hj; [done|].
      by apply Hrest.
    + by apply Hrest.
  - case_bool_decide; [|done]. unfold cooldown_elapsed.
    set (s1 := set_cooldowns _ _).
    assert (H1 : P s1) by (by apply P_cooldowns, P_timers).
    clearbody s1. destruct (activeConnections s1 !! guild m) eqn:Hc; [|done].
    destruct v; [by eapply P_monitor | done].
  - by apply listeners_preserved.
  - unfold kickUser. destruct (negb v); [done|]. destruct (negb d); [done|].
    by apply P_warnings, P_cooldowns.
  - by apply P_processor.
Qed.

Lemma run_preserved (es : list event) (s : bot) : P s → P (run es s).
Proof.
  revert s. induction es as [|e es IH]; intros s Hs; [done|].
  cbn. apply IH. by apply step_preserved.
Qed.

End Preserved.

Section BotRuns.
Import Scheduler Bot.

(** What [monitorUser], called for each member of a list, leaves alone and
    what it adds. *)
Lemma monitor_all_spec (c : nat) (ms : list member) (s : bot) :
  let s' := foldl (λ s m, monitorUser c m s) s ms in
  botId s' = botId s ∧ activeConnections s' = activeConnections s ∧
  connections s' = connections s ∧ userWarnings s' = userWarnings s ∧
  userCooldowns s' = userCooldowns s ∧
  listeners s `prefix_of` listeners s' ∧
  monitoredUsers s ⊆ monitoredUsers s' ∧
  (∀ l, l ∈ listeners s' →
        l ∈ listeners s ∨
        (l.1 = c ∧ l.2 ∈ ms ∧ userKey l.2 ∉ monitoredUsers s)).
Proof.
  cbn zeta. revert s. induction ms as [|m ms IH]; intros s.
  { cbn. repeat split; try done. intros l Hl. by left. }
  cbn [foldl]. destruct (IH (monitorUser c m s)) as (E1 & E2 & E3 & E4 & E5 & Hp & Hm & Hl).
  rewrite E1, E2, E3, E4, E5. clear E1 E2 E3 E4 E5.
  unfold monitorUser in *. case_bool_decide as Hk; cbn in *.
  { repeat split; try done. intros l Hin.
    destruct (Hl l Hin) as [Hold|(Hc & Hms & Hnew)]; [by left|].
    right. split; [done|]. split; [by right | done]. }
  repeat split; try done.
  - etransitivity; [|exact Hp]. by apply prefix_app_r.
  - set_solver.
  - intros l Hin. destruct (Hl l Hin) as [Hold|(Hc & Hms & Hnew)].
    + apply elem_of_app in Hold as [Hold|Hold]; [by left|].
      apply list_elem_of_singleton in Hold. subst l. right. cbn.
      split; [done|]. split; [by left | done].
    + right. split; [done|]. split; [by right | set_solver].
Qed.

Lemma connect_spec (g : string) (ms : list member) (s : bot) :
  let s' := connect g true ms s in
  connections s' = S (connections s) ∧
  activeConnections s' = <[g := connections s]> (activeConnections s) ∧
  userWarnings s' = userWarnings s ∧
  listeners s `prefix_of` listeners s' ∧
  monitoredUsers s ⊆ monitoredUsers s' ∧
  (∀ l, l ∈ listeners s' →
        l ∈ listeners s ∨
        (l.1 = connections s ∧ l.2 ∈ ms ∧ userKey l.2 ∉ monitoredUsers s)).
Proof.
  cbn zeta. unfold connect.
  match goal with |- context [foldl ?f ?s0 ms] =>
    destruct (monitor_all_spec (connections s) ms s0)
      as (_ & E2 & E3 & E4 & _ & Hp & Hm & Hl)
  end.
  rewrite E2, E3, E4. done.
Qed.

Lemma connect_failed (g : string) (ms : list member) (s : bot) :
  let s' := connect g false ms s in
  connections s' = S (connections s) ∧
  activeConnections s' = activeConnections s ∧
  userWarnings s' = userWarnings s ∧
  listeners s' = listeners s ∧ monitoredUsers s' = monitoredUsers s.
Proof. done. Qed.

(** *** The warnings map *)

(** [userWarnings] is created empty and the code only ever deletes from
    it: it is empty in every state the bot reaches. *)
Theorem warnings_are_never_recorded (es : list event) (bot_id : string) :
  userWarnings (run es (initial bot_id)) = ∅.
Proof.
  apply (run_preserved (λ s, userWarnings s = ∅)); try done.
  - intros g c m s Hs _. unfold monitorUser. by case_bool_decide.
  - intros g [|] ms s Hs.
    + by destruct (connect_spec g ms s) as (_ & _ & -> & _).
    + done.
  - intros k s Hs. cbn. rewrite Hs. apply delete_empty.
Qed.

(** *** Subscriptions are for ever *)

(** No handler removes a listener or a key of [monitoredUsers]: leaving
    the channel, a disconnection of the bot, a kick and the end of a cooldown
    all keep the listeners registered so far, in their order. *)
Theorem subscriptions_are_never_removed (es : list event) (s : bot) :
  listeners s `prefix_of` listeners (run es s) ∧
  monitoredUsers s ⊆ monitoredUsers (run es s).
Proof.
  apply (run_preserved (λ s', listeners s `prefix_of` listeners s' ∧
                              monitoredUsers s ⊆ monitoredUsers s')); try done.
  - intros g c m s' [Hp Hm] _. unfold monitorUser. case_bool_decide; [done|].
    cbn. split; [by apply prefix_app_r | set_solver].
  - intros g [|] ms s' [Hp Hm]; [|done].
    destruct (connect_spec g ms s') as (_ & _ & _ & Hp' & Hm' & _).
    split; [by etransitivity | set_solver].
Qed.

(** *** Connections are numbered in order *)

Definition numbered (s : bot) : Prop :=
  (∀ l, l ∈ listeners s → (l.1 < connections s)%nat) ∧
  (∀ g c, activeConnections s !! g = Some c → (c < connections s)%nat).

Lemma run_numbered (es : list event) (bot_id : string) :
  numbered (run es (initial bot_id)).
Proof.
  apply (run_preserved numbered); try done.
  - intros g c m s [Hl Ha] Hc. unfold monitorUser. case_bool_decide; [done|].
    split; [|done]. cbn. intros l [Hin|Hin%list_elem_of_singleton]%elem_of_app.
    + by apply Hl.
    + subst l. cbn. by eapply Ha.
  - intros g [|] ms s [Hl Ha].
    + destruct (connect_spec g ms s) as (Ec & Ea & _ & _ & _ & Hnew). split.
      * intros l Hin. rewrite Ec. destruct (Hnew l Hin) as [Hold|[-> _]]; [|lia].
        specialize (Hl l Hold). lia.
      * intros g' c. rewrite Ec, Ea. destruct (decide (g' = g)) as [->|Hne].
        -- rewrite lookup_insert_eq. intros [= <-]. lia.
        -- rewrite lookup_insert_ne by done. intros Hc.
           specialize (Ha g' c Hc). lia.
    + split; cbn.
      * intros l Hin. specialize (Hl l Hin). lia.
      * intros g' c Hc. specialize (Ha g' c Hc). lia.
  - intros g s [Hl Ha]. split; [done|]. cbn. intros g' c Hc.
    apply lookup_delete_Some in Hc as [_ Hc]. by eapply Ha.
  - split; [intros l Hl; by apply elem_of_nil in Hl|].
    intros g c Hc. cbn in Hc. by rewrite lookup_empty in Hc.
Qed.

Lemma no_listener_answers (ls : list (nat * member)) (c : nat) (userId : string)
    (now now' : N) (rs : list (option task)) (s : bot) :
  Forall (λ l : nat * member, ¬ (l.1 = c ∧ userId = id (user l.2))) ls →
  foldl (λ '(rs, s) '(c', m),
           if bool_decide (c' = c ∧ userId = id (user m))
           then let '(r, w) :=
                  setupUserAudioCapture (user m) now now' (processor s) in
                (rs ++ [r], set_processor w s)
           else (rs, s)) (rs, s) ls = (rs, s).
Proof.
  induction 1 as [|[c' m] ls Hl _ IH]; [done|].
  cbn [foldl]. by rewrite bool_decide_eq_false_2.
Qed.

(** A member monitored on an earlier connection is not monitored on a
    later one. When the bot has left the guild and connects again, the
    listeners it registers on the new connection are for members it had not
    monitored before; a member monitored before gets none, so that when this
    member speaks no capture is attempted on the new connection. *)
Theorem reconnection_does_not_resubscribe
    (es : list event) (bot_id g : string) (members : list member) (m : member)
    (now now' : N) :
  let s := run es (initial bot_id) in
  let s' := connect g true members s in
  activeConnections s !! g = None →
  userKey m ∈ monitoredUsers s →
  guild m = g →
  (∀ m', m' ∈ members → guild m' = g) →
  activeConnections s' !! g = Some (connections s) ∧
  (∀ l, l ∈ listeners s' → l.1 = connections s → userKey l.2 ≠ userKey m) ∧
  speaking_start (connections s) (id (user m)) now now' s' = ([], s').
Proof.
  intros s s' Hleft Hmon Hg Hmembers.
  destruct (run_numbered es bot_id) as [Hl _]. fold s in Hl.
  destruct (connect_spec g members s) as (_ & Ha & _ & Hp & _ & Hnew).
  fold s' in Ha, Hp, Hnew.
  assert (Hnone : ∀ l, l ∈ listeners s' → l.1 = connections s →
                       l.2 ∈ members ∧ userKey l.2 ∉ monitoredUsers s).
  { intros l Hin Hc. destruct (Hnew l Hin) as [Hold|(_ & Hms & Hfresh)]; [|done].
    specialize (Hl l Hold). lia. }
  split; [by rewrite Ha, lookup_insert_eq|]. split.
  { intros l Hin Hc Hk. destruct (Hnone l Hin Hc) as [_ Hfresh]. congruence. }
  unfold speaking_start. apply no_listener_answers.
  apply Forall_forall. intros [c' m'] Hin [Hc Hid]. cbn in Hc, Hid. subst c'.
  destruct (Hnone _ Hin eq_refl) as [Hm' Hfresh]. cbn in Hm', Hfresh.
  apply Hfresh. replace (userKey m') with (userKey m); [done|].
  unfold userKey. by rewrite Hg, (Hmembers m' Hm'), Hid.
Qed.

Lemma reconnection_does_not_resubscribe_witness :
  let s := run [Connect "g" true [ann_member]; Disconnect "g"] (initial "bot") in
  speaking_start (connections s) "42" 9000 9000 (connect "g" true [ann_member] s)
  = ([], connect "g" true [ann_member] s).
Proof.
  intros s.
  assert (H1 : activeConnections s !! "g"%string = None) by (vm_compute; reflexivity).
  assert (H2 : userKey ann_member ∈ monitoredUsers s) by (vm_compute; reflexivity).
  assert (H3 : guild ann_member = "g"%string) by reflexivity.
  assert (H4 : ∀ m', m' ∈ [ann_member] → guild m' = "g"%string)
    by (intros m' ->%list_elem_of_singleton; reflexivity).
  destruct (reconnection_does_not_resubscribe
              [Connect "g" true [ann_member]; Disconnect "g"] "bot" "g"
              [ann_member] ann_member 9000 9000 H1 H2 H3 H4) as (_ & _ & Hnone).
  exact Hnone.
Defined.

(** *** The cooldown after a disconnection *)

Lemma monitorUser_cooldowns (c : nat) (m : member) (s : bot) :
  userCooldowns (monitorUser c m s) = userCooldowns s ∧
  userKey m ∈ monitoredUsers (monitorUser c m s).
Proof.
  unfold monitorUser. case_bool_decide; [done|]. cbn. split; [done|]. set_solver.
Qed.

(** [kickUser] records a cooldown only when the member was in a voice
    channel and the disconnection succeeded; the cooldown ends
    [COOLDOWN_MS] after the disconnection. A join before that moment is not
    monitored: the handler returns after arming a timer for the end of the
    cooldown, and when the timer fires with the bot connected and the member
    in a channel, the entry is dropped and the member is monitored. A join at
    or after that moment drops the entry at once. *)
Theorem cooldown_lasts_ten_seconds
    (m : member) (t t' : N) (c : nat) (s : bot) :
  id (user m) ≠ ""%string →
  activeConnections s !! guild m = Some c →
  let s1 := kickUser m true true t s in
  let joined := user_joined m t' s1 in
  kickUser m false true t s = s ∧
  kickUser m true false t s = s ∧
  userCooldowns s1 !! id (user m) = Some (t + COOLDOWN_MS)%N ∧
  ((t' < t + COOLDOWN_MS)%N →
     joined = (true, set_cooldownTimers
                       (λ ts, ts ++ [(m, (t + COOLDOWN_MS)%N)]) s1) ∧
     let s2 := step joined.2 (CooldownElapsed m true) in
     userCooldowns s2 !! id (user m) = None ∧
     userKey m ∈ monitoredUsers s2) ∧
  ((t + COOLDOWN_MS ≤ t')%N →
     joined.1 = false ∧ userCooldowns joined.2 !! id (user m) = None).
Proof.
  intros Hid Hc s1 joined.
  assert (Hcool : userCooldowns s1 !! id (user m) = Some (t + COOLDOWN_MS)%N)
    by apply lookup_insert_eq.
  split; [done|]. split; [done|]. split; [done|].
  unfold joined, user_joined. rewrite (bool_decide_eq_true_2 _ Hid), Hcool.
  split.
  - intros Hearly. rewrite bool_decide_eq_true_2 by done. split; [done|].
    cbn [snd step]. rewrite bool_decide_eq_true_2.
    2:{ cbn. rewrite fmap_app. apply elem_of_app. right. by left. }
    unfold cooldown_elapsed.
    match goal with |- context [activeConnections ?s0 !! guild m] =>
      change (activeConnections s0) with (activeConnections s) end.
    rewrite Hc.
    match goal with |- context [monitorUser c m ?s0] =>
      destruct (monitorUser_cooldowns c m s0) as [-> Hk] end.
    split; [apply lookup_delete_eq | done].
  - intros Hlate. rewrite bool_decide_eq_false_2 by lia. split; [done|].
    cbn [snd].
    match goal with |- context [activeConnections ?s0 !! guild m] =>
      change (activeConnections s0) with (activeConnections s) end.
    rewrite Hc. case_bool_decide.
    + match goal with |- context [monitorUser c m ?s0] =>
        destruct (monitorUser_cooldowns c m s0) as [-> _] end.
      apply lookup_delete_eq.
    + apply lookup_delete_eq.
Qed.

Lemma cooldown_lasts_ten_seconds_witness :
  (user_joined ann_member 6000
     (kickUser ann_member true true 5000
        (connect "g" true [ann_member] (initial "bot")))).1 = true.
Proof.
  assert (H1 : id (user ann_member) ≠ ""%string) by discriminate.
  assert (H2 : activeConnections (connect "g" true [ann_member] (initial "bot"))
               !! guild ann_member = Some 0%nat) by (vm_compute; reflexivity).
  destruct (cooldown_lasts_ten_seconds ann_member 5000 6000 0
              (connect "g" true [ann_member] (initial "bot")) H1 H2)
    as (_ & _ & _ & Hearly & _).
  destruct Hearly as [-> _]; [reflexivity | reflexivity].
Defined.

End BotRuns.

(** ** From the text to the disconnection *)

Section Enforced.
Import Scheduler Bot Enforcement.

(** With keywords free of pattern syntax, which covers the set the class
    is built with, [handleTranscription] leaves the bot as it is when no
    keyword occurs in the text as a whole word, and otherwise does what
    [kickUser] does, once, whatever the number of keywords found. *)
Theorem transcription_is_enforced
    (ks : list string) (m : member) (text : string) (in_voice disconnected : bool)
    (now : N) (s : bot) :
  Forall plain ks →
  ((∀ k, k ∈ ks → ¬ occurs_as_word k text) →
   handleTranscription ks m text in_voice disconnected now s = Some s) ∧
  ((∃ k, k ∈ ks ∧ occurs_as_word k text) →
   handleTranscription ks m text in_voice disconnected now s
   = Some (kickUser m in_voice disconnected now s)).
Proof.
  intros Hplain.
  destruct (detectSports_plain ks text Hplain) as (found & Hrun & _ & _ & Hlen).
  unfold handleTranscription. rewrite Hrun. split.
  - intros Hnone. rewrite bool_decide_eq_false_2; [done|].
    intros (k & Hk & Hocc)%Hlen. by eapply Hnone.
  - intros Hsome. by rewrite bool_decide_eq_true_2 by (by apply Hlen).
Qed.

Lemma transcription_is_enforced_witness :
  handleTranscription Detector.initialKeywords ann_member "nice touchdown"
    true true 5000 (initial "bot")
  = Some (kickUser ann_member true true 5000 (initial "bot")).
Proof.
  destruct (transcription_is_enforced Detector.initialKeywords ann_member
              "nice touchdown" true true 5000 (initial "bot")
              initialKeywords_plain) as [_ Hkick].
  apply Hkick. exists "touchdown"%string. split.
  - apply (bool_decide_unpack _). vm_compute. exact I.
  - apply hit_occurs. vm_compute. reflexivity.
Defined.

End Enforced.


(** ** The keyword set and what a detection reports *)

Section KeywordSet.
Import Detector.

Lemma detect_fold_None (ks : list string) (lowerText : string) :
  foldl (λ acc keyword,
           detectedKeywords ← acc;
           regex ← compile keyword;
           Some (if test regex lowerText
                 then detectedKeywords ++ [keyword]
                 else detectedKeywords))
        None ks = None.
Proof. induction ks as [|k ks IH]; [done|]. exact IH. Qed.

Lemma detect_fold_sublist (ks : list string) (lowerText : string)
    (acc found : list string) :
  foldl (λ acc keyword,
           detectedKeywords ← acc;
           regex ← compile keyword;
           Some (if test regex lowerText
                 then detectedKeywords ++ [keyword]
                 else detectedKeywords))
        (Some acc) ks = Some found →
  ∃ sub, found = acc ++ sub ∧ sub `sublist_of` ks.
Proof.
  revert acc. induction ks as [|k ks IH]; intros acc Hrun.
  { cbn in Hrun. injection Hrun as <-. exists []. by rewrite app_nil_r. }
  cbn [foldl] in Hrun. cbn [mbind option_bind] in Hrun.
  destruct (compile k) as [regex|]; cbn [mbind option_bind] in Hrun;
    [|by rewrite detect_fold_None in Hrun].
  destruct (test regex lowerText).
  - destruct (IH _ Hrun) as (sub & -> & Hsub). exists (k :: sub).
    split; [by rewrite <- app_assoc|]. by constructor.
  - destruct (IH _ Hrun) as (sub & -> & Hsub). exists sub.
    split; [done|]. by constructor.
Qed.

(** Whatever the keywords, when [detectSports] returns, the keywords it
    reports are keywords of the set, each at most once, in the order of the
    set, and [detected] says whether there is one. *)
Theorem detected_keywords_come_from_the_set
    (ks : list string) (text : string) (detected : bool) (found : list string) :
  detectSports ks text = Some (detected, found) →
  found `sublist_of` ks ∧
  (∀ k, k ∈ found → k ∈ ks) ∧
  (NoDup ks → NoDup found) ∧
  (detected = true ↔ found ≠ []).
Proof.
  unfold detectSports. intros Hrun.
  destruct (foldl _ (Some []) ks) as [r|] eqn:Hfold; [|done].
  cbn in Hrun. injection Hrun as <- <-.
  destruct (detect_fold_sublist ks _ [] r Hfold) as (sub & -> & Hsub). cbn.
  split; [done|]. split; [|split].
  - intros k Hk. by eapply elem_of_sublist.
  - intros Hnd. by eapply sublist_NoDup.
  - rewrite bool_decide_eq_true. destruct sub; cbn; [split; [lia | done]|].
    split; [done | lia].
Qed.

Lemma detected_keywords_come_from_the_set_witness :
  ["touchdown"; "pass"]%string `sublist_of` initialKeywords.
Proof.
  apply (detected_keywords_come_from_the_set initialKeywords
           "What a TOUCHDOWN pass, folks" true ["touchdown"; "pass"]%string).
  vm_compute. reflexivity.
Defined.

Lemma lower_lower (c : ascii) : lower (lower c) = lower c.
Proof. destruct c as [[] [] [] [] [] [] [] []]; reflexivity. Qed.

Lemma toLowerCase_idem (s : string) : toLowerCase (toLowerCase s) = toLowerCase s.
Proof.
  unfold toLowerCase at 1. rewrite chars_toLowerCase, <- list_fmap_compose.
  unfold toLowerCase. f_equal. apply list_fmap_ext. intros _ c _. apply lower_lower.
Qed.

Lemma set_add_NoDup (k : string) (ks : list string) :
  NoDup ks → NoDup (set_add k ks).
Proof.
  intros Hnd. unfold set_add. case_bool_decide as Hk; [done|].
  apply NoDup_app. split; [done|]. split; [|apply NoDup_singleton].
  intros x Hx Hx'%list_elem_of_singleton. by subst x.
Qed.

Lemma set_delete_absent (k : string) (ks : list string) :
  k ∉ ks → set_delete k ks = ks.
Proof.
  intros Hk. unfold set_delete. induction ks as [|x ks IH]; [done|].
  apply not_elem_of_cons in Hk as [Hne Hk].
  rewrite filter_cons_True by done. by rewrite IH.
Qed.

Lemma set_delete_Forall (P : string → Prop) (k : string) (ks : list string) :
  Forall P ks → Forall P (set_delete k ks).
Proof.
  rewrite !Forall_forall. intros H x Hx. apply H.
  unfold set_delete in Hx. by apply list_elem_of_filter in Hx as [_ Hx].
Qed.

(** One operation of the mutation API. *)
Inductive edit : Type :=
| Add (keyword : string)
| Remove (keyword : string).

Definition apply_edit (ks : list string) (e : edit) : list string :=
  match e with
  | Add keyword => addKeyword keyword ks
  | Remove keyword => removeKeyword keyword ks
  end.

Lemma initialKeywords_NoDup : NoDup initialKeywords.
Proof.
  unfold initialKeywords.
  assert (H : ∀ l acc, NoDup acc → NoDup (foldl (λ ks k, set_add k ks) acc l)).
  { induction l as [|k l IH]; intros acc Hacc; [done|].
    cbn [foldl]. by apply IH, set_add_NoDup. }
  apply H. constructor.
Qed.

Lemma initialKeywords_lower : Forall (λ k, toLowerCase k = k) initialKeywords.
Proof. apply (bool_decide_unpack _). vm_compute. exact I. Qed.

(** [getKeywords] lists every keyword once and in lower case, after any
    sequence of [addKeyword] and [removeKeyword] on the set the class is built
    with, although the literal it is built from repeats some names and
    whatever the case the keywords are given in. *)
Theorem keywords_are_listed_once_in_lower_case (edits : list edit) :
  let ks := getKeywords (foldl apply_edit initialKeywords edits) in
  NoDup ks ∧ Forall (λ k, toLowerCase k = k) ks.
Proof.
  cbn zeta. unfold getKeywords.
  assert (H : ∀ ks, NoDup ks ∧ Forall (λ k, toLowerCase k = k) ks →
                    NoDup (foldl apply_edit ks edits) ∧
                    Forall (λ k, toLowerCase k = k) (foldl apply_edit ks edits)).
  { induction edits as [|e edits IH]; intros ks [Hnd Hlow]; [done|].
    cbn [foldl]. apply IH. destruct e as [keyword|keyword]; cbn.
    - split; [by apply set_add_NoDup|].
      unfold addKeyword, set_add. case_bool_decide; [done|].
      apply Forall_app. split; [done|]. apply Forall_singleton, toLowerCase_idem.
    - unfold removeKeyword. split.
      + by apply NoDup_filter.
      + by apply set_delete_Forall. }
  apply H. split; [apply initialKeywords_NoDup | apply initialKeywords_lower].
Qed.

(** Adding is idempotent and does not look at the case of the keyword;
    removing after adding gives back the set without the keyword, which is
    the set itself when the keyword was not in it. *)
Theorem keyword_add_remove_round_trip (keyword : string) (ks : list string) :
  addKeyword keyword (addKeyword keyword ks) = addKeyword keyword ks ∧
  addKeyword (toLowerCase keyword) ks = addKeyword keyword ks ∧
  removeKeyword (toLowerCase keyword) ks = removeKeyword keyword ks ∧
  removeKeyword keyword (addKeyword keyword ks) = removeKeyword keyword ks ∧
  (toLowerCase keyword ∉ ks →
   removeKeyword keyword (addKeyword keyword ks) = ks) ∧
  addKeyword keyword (removeKeyword keyword ks)
  = removeKeyword keyword ks ++ [toLowerCase keyword].
Proof.
  unfold addKeyword, removeKeyword. rewrite toLowerCase_idem.
  set (k := toLowerCase keyword).
  assert (Hremove : set_delete k (set_add k ks) = set_delete k ks).
  { unfold set_add. case_bool_decide; [done|]. unfold set_delete.
    rewrite filter_app, filter_cons_False, filter_nil, app_nil_r by (by intros ?).
    done. }
  split; [|split; [done|split; [done|split; [done|split]]]].
  - unfold set_add at 2 3. case_bool_decide as Hk.
    + unfold set_add. by rewrite bool_decide_eq_true_2.
    + unfold set_add. rewrite bool_decide_eq_true_2; [done|].
      apply elem_of_app. right. by left.
  - intros Hk. rewrite Hremove. by apply set_delete_absent.
  - unfold set_add. rewrite bool_decide_eq_false_2; [done|].
    unfold set_delete. rewrite list_elem_of_filter. by intros [? _].
Qed.

End KeywordSet.

Section Mutation.
Import Detector.

Lemma occurs_as_word_lower (keyword text : string) :
  occurs_as_word (toLowerCase keyword) text ↔ occurs_as_word keyword text.
Proof.
  unfold occurs_as_word, same_letters. rewrite chars_toLowerCase.
  assert (E : upper <$> (lower <$> chars keyword) = upper <$> chars keyword).
  { rewrite <- list_fmap_compose. apply list_fmap_ext. intros _ c _.
    apply upper_lower. }
  by rewrite E.
Qed.

(** The mutation API takes effect at the next detection: a keyword free of
    pattern syntax that was added, in whatever case, is reported for a text in
    which it occurs as a whole word; a keyword that was removed is not
    reported, whatever the text. *)
Theorem keyword_edits_take_effect (keyword text : string) (ks : list string) :
  Forall plain ks →
  plain (toLowerCase keyword) →
  (occurs_as_word keyword text →
   ∃ found, detectSports (addKeyword keyword ks) text = Some (true, found) ∧
            toLowerCase keyword ∈ found) ∧
  (∃ detected found,
     detectSports (removeKeyword keyword ks) text = Some (detected, found) ∧
     toLowerCase keyword ∉ found).
Proof.
  intros Hks Hk. split.
  - intros Hocc.
    assert (Hplain : Forall plain (addKeyword keyword ks)).
    { unfold addKeyword, set_add. case_bool_decide; [done|].
      apply Forall_app. split; [done|]. by apply Forall_singleton. }
    destruct (detectSports_plain _ text Hplain) as (found & Hrun & _ & Hin & Hlen).
    assert (Hfound : toLowerCase keyword ∈ found).
    { apply Hin. split; [apply addKeyword_elem; by left|].
      by apply occurs_as_word_lower. }
    exists found. split; [|done]. rewrite Hrun. f_equal. f_equal.
    apply bool_decide_eq_true_2. destruct found; [by apply elem_of_nil in Hfound|].
    cbn. lia.
  - assert (Hplain : Forall plain (removeKeyword keyword ks)).
    { unfold removeKeyword. by apply set_delete_Forall. }
    destruct (detectSports_plain _ text Hplain) as (found & Hrun & _ & Hin & _).
    eexists _, found. split; [exact Hrun|].
    intros [Hmem _]%Hin. apply removeKeyword_elem in Hmem as [Hne _]. done.
Qed.

Lemma keyword_edits_take_effect_witness :
  ∃ found, detectSports (addKeyword "Pickleball" initialKeywords)
             "we play PICKLEBALL on sundays" = Some (true, found) ∧
           "pickleball"%string ∈ found.
Proof.
  assert (Hk : plain (toLowerCase "Pickleball"))
    by (apply plainb_plain; vm_compute; reflexivity).
  destruct (keyword_edits_take_effect "Pickleball" "we play PICKLEBALL on sundays"
              initialKeywords initialKeywords_plain Hk) as [Hadd _].
  apply Hadd. apply occurs_as_word_lower, hit_occurs. vm_compute. reflexivity.
Defined.

(** A text without a letter, a digit or an underscore has no word boundary:
    nothing is detected in it, and in particular nothing in the empty text. *)
Theorem text_without_word_is_clean (ks : list string) (text : string) :
  Forall plain ks →
  (∀ c, c ∈ chars text → is_word c = false) →
  detectSports ks text = Some (false, []).
Proof.
  intros Hks Hnone.
  destruct (detectSports_plain ks text Hks) as (found & Hrun & _ & Hin & _).
  assert (Hempty : found = []).
  { destruct found as [|k l]; [done|]. exfalso.
    destruct (proj1 (Hin k) ltac:(by left))
      as (_ & pre & mid & post & Htext & _ & Hboundary & _).
    apply Hboundary. unfold is_word_at.
    assert (Hpre : ∀ c, last pre = Some c → is_word c = false).
    { intros c Hc. apply Hnone. rewrite Htext. apply elem_of_app. left.
      by apply last_Some_elem_of. }
    assert (Hrest : ∀ c, head (mid ++ post) = Some c → is_word c = false).
    { intros c Hc. apply Hnone. rewrite Htext. apply elem_of_app. right.
      by apply head_Some_elem_of. }
    destruct (last pre) as [c|]; [rewrite (Hpre c eq_refl)|];
      (destruct (head (mid ++ post)) as [d|]; [by rewrite (Hrest d eq_refl)|done]). }
  by rewrite Hrun, Hempty.
Qed.

Lemma text_without_word_is_clean_witness :
  detectSports initialKeywords "... !?" = Some (false, []).
Proof.
  apply (text_without_word_is_clean initialKeywords "... !?" initialKeywords_plain).
  intros c Hc. revert c Hc. apply Forall_forall.
  apply (bool_decide_unpack _). vm_compute. exact I.
Defined.

End Mutation.
